(** * SQL column-lineage extractor of the dbt mapping-doc generator

    A shallow embedding of the text-processing core of
    [dbt-mapping-doc-generator/scripts/generate_enhanced_mapping.py] and
    [dbt-mapping-doc-generator/scripts/generate_mapping_doc.py], and the
    properties of it that the specification states.

    Text.  A Python [str] is modelled as a list of 8-bit characters, read
    as the code points U+0000..U+00FF.  The character predicates below are
    the values of [str.isalnum], [str.isspace], [str.lower] and of the
    [re] classes on that range.

    Loops.  A [while] loop is a function with fuel; for each of them a
    lemma shows that the fuel it is given lets it leave through its guard.

    Regular expressions.  Each pattern of the scripts is a term of the
    type [Re.regex], read by a matcher that returns the matches in the
    order of Python's backtracking. *)

From Stdlib Require Import Ascii String ZArith Lia.
From stdpp Require Import base option list gmap strings.

Local Open Scope string_scope.
Local Open Scope nat_scope.
Local Open Scope list_scope.

(** A Python string. *)
Abbreviation str := (list ascii) (only parsing).

Coercion list_ascii_of_string : string >-> list.

(** ** Python [str] primitives *)
Module PyStr.

Definition code (c : ascii) : nat := nat_of_ascii c.

Definition between (lo hi n : nat) : bool := (lo <=? n) && (n <=? hi).

(** [c.isalnum()] *)
Definition isalnum (c : ascii) : bool :=
  let n := code c in
  between 48 57 n || between 65 90 n || between 97 122 n
  || (n =? 170) || between 178 179 n || (n =? 181) || between 185 186 n
  || between 188 190 n || between 192 214 n || between 216 246 n
  || between 248 255 n.

(** [c.isspace()] *)
Definition isspace (c : ascii) : bool :=
  let n := code c in
  between 9 13 n || between 28 32 n || (n =? 133) || (n =? 160).

(** [c.lower()]: one character to one character on this range. *)
Definition lower_char (c : ascii) : ascii :=
  let n := code c in
  if between 65 90 n || between 192 214 n || between 216 222 n
  then ascii_of_nat (n + 32) else c.

(** [c.upper()].  U+00DF becomes the two characters SS.  The upper-case
    forms of U+00B5 and U+00FF lie outside the modelled range; these two
    characters are left as they are. *)
Definition upper_char (c : ascii) : str :=
  let n := code c in
  if between 97 122 n || between 224 246 n || between 248 254 n
  then [ascii_of_nat (n - 32)]
  else if n =? 223 then ["S"; "S"]%char
  else [c].

Definition lower (s : str) : str := map lower_char s.

Definition upper (s : str) : str := concat (map upper_char s).

Definition str_eqb (a b : str) : bool := bool_decide (a = b).

(** [text[i:j]] for [0 <= i]: Python clamps both ends to the length. *)
Definition slice (text : str) (i j : nat) : str := take (j - i) (drop i text).

(** [s.lstrip()], [s.rstrip()], [s.strip()] *)
Fixpoint lstrip (s : str) : str :=
  match s with
  | c :: s' => if isspace c then lstrip s' else s
  | [] => []
  end.

Definition rstrip (s : str) : str := rev (lstrip (rev s)).

Definition strip (s : str) : str := rstrip (lstrip s).

(** Truth value of a string: non-empty. *)
Definition truthy (s : str) : bool :=
  match s with [] => false | _ => true end.

(** [sep.join(parts)] *)
Fixpoint join (sep : str) (parts : list str) : str :=
  match parts with
  | [] => []
  | [p] => p
  | p :: ps => p ++ sep ++ join sep ps
  end.

(** [s.split(sep)] for a one-character separator: the pieces between the
    separators, always at least one piece.  [cur] is the piece being
    read. *)
Fixpoint split_on_aux (sep : ascii) (cur : str) (s : str) : list str :=
  match s with
  | [] => [cur]
  | c :: s' =>
      if bool_decide (c = sep) then cur :: split_on_aux sep [] s'
      else split_on_aux sep (cur ++ [c]) s'
  end.

Definition split_on (sep : ascii) (s : str) : list str := split_on_aux sep [] s.

(** [s.split()]: the maximal runs of non-whitespace characters. *)
Fixpoint split_ws_aux (cur : str) (s : str) : list str :=
  match s with
  | [] => if truthy cur then [cur] else []
  | c :: s' =>
      if isspace c
      then (if truthy cur then cur :: split_ws_aux [] s' else split_ws_aux [] s')
      else split_ws_aux (cur ++ [c]) s'
  end.

Definition split_ws (s : str) : list str := split_ws_aux [] s.

(** [s.startswith(p)] *)
Fixpoint startswith (s p : str) : bool :=
  match p, s with
  | [], _ => true
  | a :: p', b :: s' => bool_decide (a = b) && startswith s' p'
  | _ :: _, [] => false
  end.

(** [p in s] *)
Fixpoint contains (s p : str) : bool :=
  startswith s p || match s with [] => false | _ :: s' => contains s' p end.

End PyStr.

Import PyStr.

(** ** The fragment of Python's [re] that the program uses

    A backtracking matcher in the list-of-successes style: [exec] returns
    every way a pattern can match from a position, in the order in which
    Python's engine tries them, so that the first element is the match
    Python reports.  Quantifiers are applied to single-character classes
    only, which covers every pattern of the two scripts, and none of these
    patterns can match the empty string. *)
Module Re.

Record flags := Flags { ignorecase : bool; dotall : bool }.

Definition no_flags : flags := Flags false false.
Definition IGNORECASE : flags := Flags true false.
Definition DOTALL : flags := Flags false true.
Definition DOTALL_IGNORECASE : flags := Flags true true.

(** [\w] and [\d] *)
Definition isword (c : ascii) : bool := isalnum c || bool_decide (c = "_"%char).
Definition isdigit (c : ascii) : bool := between 48 57 (code c).

Definition newline : ascii := "010"%char.
Definition dquote : ascii := "034"%char.

(** Single-character classes. *)
Inductive cset :=
| Dot                         (* .      *)
| Space                       (* \s     *)
| Word                        (* \w     *)
| Digit                       (* \d     *)
| Chr (c : ascii)             (* a literal character *)
| NoneOf (l : list ascii)     (* [^...] *)
| Range (lo hi : ascii)       (* lo-hi inside [...] *)
| Union (a b : cset).         (* [...]  *)

Fixpoint cset_match (f : flags) (cs : cset) (c : ascii) : bool :=
  match cs with
  | Dot => dotall f || negb (bool_decide (c = newline))
  | Space => isspace c
  | Word => isword c
  | Digit => isdigit c
  | Chr x =>
      if ignorecase f then bool_decide (lower_char c = lower_char x)
      else bool_decide (c = x)
  | NoneOf l =>
      if ignorecase f then negb (bool_decide (lower_char c ∈ map lower_char l))
      else negb (bool_decide (c ∈ l))
  | Range lo hi =>
      between (code lo) (code hi) (code c)
      || (ignorecase f
          && (between (code lo) (code hi) (code (lower_char c))
              || existsb (fun u => between (code lo) (code hi) (code u)) (upper_char c)))
  | Union a b => cset_match f a c || cset_match f b c
  end.

Inductive regex :=
| Eps
| One (cs : cset)                           (* one character of a class *)
| Rep (greedy : bool) (min : nat) (cs : cset) (* cs*  cs+  cs*?  cs+? *)
| Opt (r : regex)                           (* (r)? , greedy *)
| Seq (r1 r2 : regex)
| Group (n : nat) (r : regex)               (* the n-th capturing group *)
| Bos                                       (* ^  (no MULTILINE) *)
| Eos                                       (* $  (no MULTILINE) *)
| Wordb.                                    (* \b *)

(** A position in the text and the spans captured so far, most recent
    first. *)
Record mstate := MState { pos : nat; groups : list (nat * (nat * nat)) }.

Definition advance (k : nat) (st : mstate) : mstate :=
  MState (pos st + k) (groups st).

Definition set_group (n start : nat) (st : mstate) : mstate :=
  MState (pos st) ((n, (start, pos st)) :: groups st).

(** Length of the longest prefix of [s] made of characters of [cs]. *)
Fixpoint run (f : flags) (cs : cset) (s : str) : nat :=
  match s with
  | c :: s' => if cset_match f cs c then S (run f cs s') else 0
  | [] => 0
  end.

Definition word_at (text : str) (k : nat) : bool :=
  match text !! k with Some c => isword c | None => false end.

Fixpoint exec (f : flags) (text : str) (r : regex) (st : mstate) : list mstate :=
  match r with
  | Eps => [st]
  | One cs =>
      match text !! pos st with
      | Some c => if cset_match f cs c then [advance 1 st] else []
      | None => []
      end
  | Rep greedy min cs =>
      let n := run f cs (drop (pos st) text) in
      if n <? min then []
      else
        let counts := seq min (n - min + 1) in
        map (fun k => advance k st) (if greedy then rev counts else counts)
  | Opt r => exec f text r st ++ [st]
  | Seq r1 r2 => exec f text r1 st ≫= exec f text r2
  | Group n r => map (set_group n (pos st)) (exec f text r st)
  | Bos => if pos st =? 0 then [st] else []
  | Eos =>
      if (pos st =? length text)
         || ((pos st + 1 =? length text)
             && bool_decide (text !! pos st = Some newline))
      then [st] else []
  | Wordb =>
      let before := (0 <? pos st) && word_at text (pos st - 1) in
      if xorb before (word_at text (pos st)) then [st] else []
  end.

(** A match object: where the match starts and ends, and its groups. *)
Record rmatch := RMatch { m_start : nat; m_end : nat; m_groups : list (nat * (nat * nat)) }.

Definition match_at (f : flags) (r : regex) (text : str) (p : nat) : option rmatch :=
  match exec f text r (MState p []) with
  | st :: _ => Some (RMatch p (pos st) (groups st))
  | [] => None
  end.

Fixpoint search_starts (f : flags) (r : regex) (text : str) (starts : list nat)
  : option rmatch :=
  match starts with
  | [] => None
  | p :: ps =>
      match match_at f r text p with
      | Some mt => Some mt
      | None => search_starts f r text ps
      end
  end.

(** The leftmost match that starts at [p0] or later. *)
Definition search_from (f : flags) (r : regex) (text : str) (p0 : nat) : option rmatch :=
  search_starts f r text (seq p0 (length text + 1 - p0)).

(** [re.search(r, text, f)] *)
Definition search (f : flags) (r : regex) (text : str) : option rmatch :=
  search_from f r text 0.

Fixpoint span_of (n : nat) (gs : list (nat * (nat * nat))) : option (nat * nat) :=
  match gs with
  | [] => None
  | (k, sp) :: gs' => if k =? n then Some sp else span_of n gs'
  end.

(** [mt.group(n)]; [None] when the group took no part in the match. *)
Definition group (text : str) (mt : rmatch) (n : nat) : option str :=
  (fun sp => slice text sp.1 sp.2) <$> span_of n (m_groups mt).

(** [mt.group(n)] for a group that every match of the pattern sets (and
    the empty string otherwise, as [re.findall] gives). *)
Definition group' (text : str) (mt : rmatch) (n : nat) : str :=
  default [] (group text mt n).

(** [re.finditer]: the successive non-overlapping matches. *)
Fixpoint finditer_from (fuel : nat) (f : flags) (r : regex) (text : str) (p : nat)
  : list rmatch :=
  match fuel with
  | O => []
  | S fuel' =>
      match search_from f r text p with
      | None => []
      | Some mt =>
          mt :: finditer_from fuel' f r text
                  (if m_end mt =? m_start mt then m_end mt + 1 else m_end mt)
      end
  end.

Definition finditer (f : flags) (r : regex) (text : str) : list rmatch :=
  finditer_from (length text + 1) f r text 0.

(** [re.sub(r, repl, text, flags=f)] for a replacement without
    back-references. *)
Fixpoint sub_aux (text : str) (repl : str) (ms : list rmatch) (p : nat) : str :=
  match ms with
  | [] => drop p text
  | mt :: ms' => slice text p (m_start mt) ++ repl ++ sub_aux text repl ms' (m_end mt)
  end.

Definition sub (f : flags) (r : regex) (repl : str) (text : str) : str :=
  sub_aux text repl (finditer f r text) 0.

(** A literal word. *)
Fixpoint lit (s : str) : regex :=
  match s with
  | [] => Eps
  | [c] => One (Chr c)
  | c :: s' => Seq (One (Chr c)) (lit s')
  end.

(** [cs*], [cs+], [cs*?], [cs+?] *)
Definition star (cs : cset) : regex := Rep true 0 cs.
Definition plus (cs : cset) : regex := Rep true 1 cs.
Definition lazy_star (cs : cset) : regex := Rep false 0 cs.
Definition lazy_plus (cs : cset) : regex := Rep false 1 cs.

End Re.

Declare Scope re_scope.
Delimit Scope re_scope with re.
Bind Scope re_scope with Re.regex.
Infix "⋅" := Re.Seq (at level 41, right associativity) : re_scope.

(** ** generate_enhanced_mapping.py: the top-level splitter *)
Module Enhanced.

(** The loop variables of [split_by_comma_respecting_case]. *)
Record split_state := SplitState {
  expressions : list str;
  current : str;
  depth : Z;
  paren_depth : Z;
  i : nat
}.

(** [(i == 0 or not text[i-1].isalnum()) and
     (i+k >= len(text) or not text[i+k].isalnum())] *)
Definition alnum_at (text : str) (k : nat) : bool :=
  match text !! k with Some c => isalnum c | None => false end.

Definition word_boundary (text : str) (i k : nat) : bool :=
  ((i =? 0) || negb (alnum_at text (i - 1)))
  && ((length text <=? i + k) || negb (alnum_at text (i + k))).

(** Lines 118-133: the two nesting counters after the character at
    position [i] has been looked at. *)
Definition track_case (text : str) (i : nat) (depth : Z) : Z :=
  let depth :=
    if (i + 4 <=? length text) && str_eqb (lower (slice text i (i + 4))) "case"
    then (if word_boundary text i 4 then depth + 1 else depth)%Z
    else depth in
  if (i + 3 <=? length text) && str_eqb (lower (slice text i (i + 3))) "end"
  then (if word_boundary text i 3 then Z.max 0 (depth - 1) else depth)%Z
  else depth.

Definition track_paren (char : ascii) (paren_depth : Z) : Z :=
  if bool_decide (char = "("%char) then (paren_depth + 1)%Z
  else if bool_decide (char = ")"%char) then Z.max 0 (paren_depth - 1)
  else paren_depth.

(** One iteration of the [while] loop body, for [i < len(text)]. *)
Definition split_step (text : str) (s : split_state) : split_state :=
  match text !! i s with
  | None => s
  | Some char =>
      let depth := track_case text (i s) (depth s) in
      let paren_depth := track_paren char (paren_depth s) in
      if bool_decide (char = ","%char) && (depth =? 0)%Z && (paren_depth =? 0)%Z
      then SplitState (expressions s ++ [current s]) [] depth paren_depth (i s + 1)
      else SplitState (expressions s) (current s ++ [char]) depth paren_depth (i s + 1)
  end.

(** [while i < len(text): ...], with the number of iterations bounded by
    [fuel]. *)
Fixpoint split_loop (fuel : nat) (text : str) (s : split_state) : split_state :=
  match fuel with
  | O => s
  | S fuel' =>
      if i s <? length text then split_loop fuel' text (split_step text s) else s
  end.

Definition split_init : split_state := SplitState [] [] 0 0 0.

Definition split_final (text : str) : split_state :=
  split_loop (length text) text split_init.

Definition split_by_comma_respecting_case (text : str) : list str :=
  let s := split_final text in
  if truthy (strip (current s)) then expressions s ++ [current s]
  else expressions s.

(** *** Patterns of generate_enhanced_mapping.py *)

(** [--.*?\n] *)
Definition comment_pattern : Re.regex :=
  (Re.lit "--" ⋅ Re.lazy_star Re.Dot ⋅ Re.One (Re.Chr Re.newline))%re.

(** [{%.*?%}] *)
Definition jinja_pattern : Re.regex :=
  (Re.lit "{%" ⋅ Re.lazy_star Re.Dot ⋅ Re.lit "%}")%re.

(** [\s+as\s+(\w+)\s*$], the end of the next pattern *)
Definition as_tail : Re.regex :=
  (Re.plus Re.Space ⋅ Re.lit "as" ⋅ Re.plus Re.Space ⋅ Re.Group 2 (Re.plus Re.Word)
   ⋅ Re.star Re.Space ⋅ Re.Eos)%re.

(** [^(.*?)\s+as\s+(\w+)\s*$] *)
Definition as_pattern : Re.regex :=
  (Re.Bos ⋅ Re.Group 1 (Re.lazy_star Re.Dot) ⋅ as_tail)%re.

(** [(\w+)\.(\w+)] *)
Definition qualified_pattern : Re.regex :=
  (Re.Group 1 (Re.plus Re.Word) ⋅ Re.One (Re.Chr ".") ⋅ Re.Group 2 (Re.plus Re.Word))%re.

(** [when\s+(.*?)\s+then\s+] followed by a value pattern *)
Definition when_then (value : Re.regex) : Re.regex :=
  (Re.lit "when" ⋅ Re.plus Re.Space ⋅ Re.Group 1 (Re.lazy_star Re.Dot)
   ⋅ Re.plus Re.Space ⋅ Re.lit "then" ⋅ Re.plus Re.Space ⋅ value)%re.

(** The four value patterns, each capturing the group [n]: a value in
    single quotes, a value in double quotes, [(\d+)] and [(\w+)]. *)
Definition single_quoted (n : nat) : Re.regex :=
  (Re.One (Re.Chr "'") ⋅ Re.Group n (Re.star (Re.NoneOf ["'"%char]))
   ⋅ Re.One (Re.Chr "'"))%re.
Definition double_quoted (n : nat) : Re.regex :=
  (Re.One (Re.Chr Re.dquote) ⋅ Re.Group n (Re.star (Re.NoneOf [Re.dquote]))
   ⋅ Re.One (Re.Chr Re.dquote))%re.
Definition digits (n : nat) : Re.regex := Re.Group n (Re.plus Re.Digit).
Definition bare_word (n : nat) : Re.regex := Re.Group n (Re.plus Re.Word).

Definition when_patterns : list Re.regex :=
  [ when_then (single_quoted 2);
    when_then (double_quoted 2);
    when_then (digits 2);
    when_then (single_quoted 2);
    when_then (bare_word 2) ].

(** [else\s+] followed by a value pattern *)
Definition else_ (value : Re.regex) : Re.regex :=
  (Re.lit "else" ⋅ Re.plus Re.Space ⋅ value)%re.

Definition else_patterns : list Re.regex :=
  [ else_ (single_quoted 1); else_ (double_quoted 1);
    else_ (digits 1); else_ (bare_word 1) ].

(** [final\s+as\s*\((.*?)\)\s*select\s+\*\s+from\s+final] *)
Definition final_pattern : Re.regex :=
  (Re.lit "final" ⋅ Re.plus Re.Space ⋅ Re.lit "as" ⋅ Re.star Re.Space
   ⋅ Re.One (Re.Chr "(") ⋅ Re.Group 1 (Re.lazy_star Re.Dot) ⋅ Re.One (Re.Chr ")")
   ⋅ Re.star Re.Space ⋅ Re.lit "select" ⋅ Re.plus Re.Space ⋅ Re.One (Re.Chr "*")
   ⋅ Re.plus Re.Space ⋅ Re.lit "from" ⋅ Re.plus Re.Space ⋅ Re.lit "final")%re.

(** *** extract_source_column *)
Definition extract_source_column (expression : str) : str :=
  match Re.search Re.no_flags qualified_pattern expression with
  | Some simple_match =>
      Re.group' expression simple_match 1 ++ "." ++ Re.group' expression simple_match 2
  | None => []
  end.

(** *** parse_select_columns *)

(** The value stored for one output column. *)
Record column := Column {
  expression : str;
  source_column : str;
  is_case : bool
}.

(** [' '.join(s.split())] *)
Definition normalize_ws (s : str) : str := join " " (split_ws s).

(** The body of the [for expr in col_expressions] loop: the key and the
    value it stores, if it stores one. *)
Definition parse_column_expr (expr : str) : option (str * column) :=
  let expr := strip expr in
  if negb (truthy expr) then None
  else
    match Re.search Re.DOTALL_IGNORECASE as_pattern expr with
    | Some as_match =>
        let expression := strip (Re.group' expr as_match 1) in
        let col_name := upper (strip (Re.group' expr as_match 2)) in
        let expression := normalize_ws expression in
        Some (col_name,
              Column expression (extract_source_column expression)
                     (contains (lower expression) "case"))
    | None => None
    end.

Definition add_column (columns : gmap (list ascii) column) (expr : str)
  : gmap (list ascii) column :=
  match parse_column_expr expr with
  | Some (col_name, c) => <[col_name := c]> columns
  | None => columns
  end.

Definition parse_select_columns (select_clause : str) : gmap (list ascii) column :=
  let select_clause := Re.sub Re.no_flags comment_pattern [Re.newline] select_clause in
  let select_clause := Re.sub Re.DOTALL jinja_pattern " [jinja_template] " select_clause in
  let col_expressions := split_by_comma_respecting_case select_clause in
  foldl add_column ∅ col_expressions.

(** *** extract_case_logic *)
Record case_logic := CaseLogic {
  conditions : list (str * str);        (* the 'when' and 'then' of each entry *)
  else_value : option str
}.

(** The entries one pattern contributes, in the order of its matches. *)
Definition when_entries (expression : str) (pattern : Re.regex) : list (str * str) :=
  omap (fun mt =>
          let condition := strip (Re.group' expression mt 1) in
          let value := strip (Re.group' expression mt 2) in
          let condition := normalize_ws condition in
          if truthy condition && truthy value then Some (condition, value) else None)
       (Re.finditer Re.DOTALL_IGNORECASE pattern expression).

(** The [for pattern in else_patterns] loop with its [break]. *)
Fixpoint first_else (expression : str) (patterns : list Re.regex) : option str :=
  match patterns with
  | [] => None
  | pattern :: rest =>
      match Re.search Re.IGNORECASE pattern expression with
      | Some else_match => Some (strip (Re.group' expression else_match 1))
      | None => first_else expression rest
      end
  end.

Definition extract_case_logic (expression : str) : option case_logic :=
  if negb (contains (lower expression) "case") then None
  else
    Some (CaseLogic (when_patterns ≫= when_entries expression)
                    (first_else expression else_patterns)).

(** *** parse_final_select_enhanced *)

(** The [for i, line in enumerate(lines)] loop: the final values of
    [select_start] and [from_line]. *)
Fixpoint scan_lines (lines : list str) (i : nat) (select_start : Z) : Z * Z :=
  match lines with
  | [] => (select_start, (-1)%Z)
  | line :: rest =>
      let stripped := lower (strip line) in
      if startswith stripped "select" then scan_lines rest (i + 1) (Z.of_nat i)
      else if (0 <=? select_start)%Z && startswith stripped "from"
           then (select_start, Z.of_nat i)
           else scan_lines rest (i + 1) select_start
  end.

(** What a call gives back to its caller: the dictionary it returns and
    the diagnostics it emits.  The function prints nothing and raises
    nothing on any path, and its only result is the dictionary. *)
Record outcome := Outcome {
  columns : gmap (list ascii) column;
  diagnostics : list str
}.

Definition parse_final_select_enhanced (sql_content : str) : outcome :=
  match Re.search Re.DOTALL_IGNORECASE final_pattern sql_content with
  | None => Outcome ∅ []
  | Some mt =>
      let final_cte := Re.group' sql_content mt 1 in
      let lines := split_on Re.newline final_cte in
      let '(select_start, from_line) := scan_lines lines 0 (-1) in
      if (select_start <? 0)%Z || (from_line <? 0)%Z then Outcome ∅ []
      else
        let select_lines :=
          take (Z.to_nat from_line - Z.to_nat (select_start + 1))
               (drop (Z.to_nat (select_start + 1)) lines) in
        let select_clause := join [Re.newline] select_lines in
        Outcome (parse_select_columns select_clause) []
  end.

(** *** extract_upstream_tables *)

(** One of the two quote characters, and any character that is not a
    quote. *)
Definition quote : Re.cset := Re.Union (Re.Chr Re.dquote) (Re.Chr "'").
Definition not_quote : Re.cset := Re.NoneOf [Re.dquote; "'"%char].

(** Two opening braces, optional whitespace, [ref] and an opening
    parenthesis, a quote, group 1 of one or more characters that are not
    quotes, a quote, a closing parenthesis, optional whitespace and two
    closing braces. *)
Definition ref_call_pattern : Re.regex :=
  (Re.lit "{{" ⋅ Re.star Re.Space ⋅ Re.lit "ref(" ⋅ Re.One quote
   ⋅ Re.Group 1 (Re.plus not_quote) ⋅ Re.One quote ⋅ Re.One (Re.Chr ")")
   ⋅ Re.star Re.Space ⋅ Re.lit "}}")%re.

(** [list(set(refs))]: the order of the result is not specified. *)
Definition extract_upstream_tables (sql_content : str) : gset (list ascii) :=
  list_to_set (map (fun mt => Re.group' sql_content mt 1)
                   (Re.finditer Re.no_flags ref_call_pattern sql_content)).

(** *** extract_ctes *)

(** Group 1 of word characters, whitespace, [as], optional whitespace and
    an opening parenthesis. *)
Definition cte_pattern : Re.regex :=
  (Re.Group 1 (Re.plus Re.Word) ⋅ Re.plus Re.Space ⋅ Re.lit "as"
   ⋅ Re.star Re.Space ⋅ Re.One (Re.Chr "("))%re.

Definition not_cte_names : list str :=
  [ "with" : str; "select" : str; "from" : str; "where" : str; "and" : str;
    "or" : str ].

(** [ctes[cte_name] = True] on the keys of a dictionary: a new key goes
    to the end, a known key stays where it is. *)
Definition add_key (keys : list str) (k : str) : list str :=
  if bool_decide (k ∈ keys) then keys else keys ++ [k].

Definition extract_ctes (sql_content : str) : list str :=
  foldl (fun ctes mt =>
           let cte_name := Re.group' sql_content mt 1 in
           if bool_decide (lower cte_name ∈ not_cte_names) then ctes
           else add_key ctes cte_name)
        [] (Re.finditer Re.IGNORECASE cte_pattern sql_content).

(** *** generate_comprehensive_mapping: how a column is classified *)

(** [column_transformations.get(col_name, {})] followed by
    [.get('expression', '')] and [.get('source_column', '')], and the
    value of [r3_type]. *)
Definition r3_type (column_transformations : gmap (list ascii) column)
    (col_name : str) : str :=
  let transformation := column_transformations !! col_name in
  let expression := from_option expression [] transformation in
  let source_col := from_option source_column [] transformation in
  if negb (truthy expression) || str_eqb expression source_col
     || str_eqb expression "null"
  then "R3" else "R3+".

(** The value of [upstream_col]: the second part of [source_col] split
    at the dots, if there is one. *)
Definition upstream_col (source_col : str) : str :=
  if truthy source_col then
    let source_parts := split_on "." source_col in
    if 1 <? length source_parts then default [] (source_parts !! 1) else []
  else [].

(** *** format_case_logic *)

(** A condition of more than 50 characters is cut to its first 47
    characters and three dots. *)
Definition shorten (when : str) : str :=
  if 50 <? length when then take 47 when ++ "..." else when.

Definition when_line (cond : str * str) : str :=
  "WHEN " ++ shorten cond.1 ++ " THEN '" ++ cond.2 ++ "'".

Definition else_line (cl : case_logic) : list str :=
  match else_value cl with
  | Some v => if truthy v then ["ELSE '" ++ v ++ "'"] else []
  | None => []
  end.

(** The argument is [None] or a dictionary with its two keys. *)
Definition format_case_logic (case_logic : option case_logic) : str :=
  match case_logic with
  | None => []
  | Some cl =>
      match conditions cl with
      | [] => []
      | _ :: _ => join " | " (map when_line (conditions cl) ++ else_line cl)
      end
  end.

(** *** generate_comprehensive_mapping: the transformation shown *)

(** The values of [case_summary] and [transform_display] for a column
    name. *)
Definition case_summary (column_transformations : gmap (list ascii) column)
    (col_name : str) : str :=
  let transformation := column_transformations !! col_name in
  let expression := from_option expression [] transformation in
  let is_case := from_option is_case false transformation in
  if is_case && truthy expression then
    match extract_case_logic expression with
    | Some cl => format_case_logic (Some cl)
    | None => []
    end
  else [].

Definition transform_display (column_transformations : gmap (list ascii) column)
    (col_name : str) : str :=
  let transformation := column_transformations !! col_name in
  let expression := from_option expression [] transformation in
  let case_summary := case_summary column_transformations col_name in
  if truthy case_summary then case_summary else take 300 expression.

End Enhanced.


(** ** generate_mapping_doc.py: the methods of [DbtModelAnalyzer] *)
Module DbtModelAnalyzer.

(** The loop variables of [_split_by_comma]; [current] is a list of
    pieces, joined when a part is finished. *)
Record split_state := SplitState {
  parts : list str;
  current : list str;
  paren_depth : Z;
  case_depth : Z;
  i : nat
}.

(** One iteration of the [while] loop body, for [i < len(text)]. *)
Definition split_step (text : str) (s : split_state) : split_state :=
  match text !! i s with
  | None => s
  | Some char =>
      if str_eqb (upper (slice text (i s) (i s + 4))) "CASE"
      then SplitState (parts s) (current s ++ [slice text (i s) (i s + 4)])
                      (paren_depth s) (case_depth s + 1) (i s + 4)
      else if str_eqb (upper (slice text (i s) (i s + 3))) "END"
      then SplitState (parts s) (current s ++ [slice text (i s) (i s + 3)])
                      (paren_depth s) (Z.max 0 (case_depth s - 1)) (i s + 3)
      else if bool_decide (char = "("%char)
      then SplitState (parts s) (current s ++ [[char]])
                      (paren_depth s + 1) (case_depth s) (i s + 1)
      else if bool_decide (char = ")"%char)
      then SplitState (parts s) (current s ++ [[char]])
                      (paren_depth s - 1) (case_depth s) (i s + 1)
      else if bool_decide (char = ","%char)
              && (paren_depth s =? 0)%Z && (case_depth s =? 0)%Z
      then SplitState (parts s ++ [concat (current s)]) []
                      (paren_depth s) (case_depth s) (i s + 1)
      else SplitState (parts s) (current s ++ [[char]])
                      (paren_depth s) (case_depth s) (i s + 1)
  end.

Fixpoint split_loop (fuel : nat) (text : str) (s : split_state) : split_state :=
  match fuel with
  | O => s
  | S fuel' =>
      if i s <? length text then split_loop fuel' text (split_step text s) else s
  end.

Definition split_init : split_state := SplitState [] [] 0 0 0.

Definition split_final (text : str) : split_state :=
  split_loop (length text) text split_init.

Definition _split_by_comma (text : str) : list str :=
  let s := split_final text in
  match current s with
  | [] => parts s
  | _ :: _ => parts s ++ [concat (current s)]
  end.

(** *** Patterns of generate_mapping_doc.py *)

(** [[a-zA-Z_]] and [[a-zA-Z0-9_]] *)
Definition ident_start : Re.cset :=
  Re.Union (Re.Range "a" "z") (Re.Union (Re.Range "A" "Z") (Re.Chr "_")).
Definition ident_char : Re.cset :=
  Re.Union (Re.Range "a" "z")
    (Re.Union (Re.Range "A" "Z") (Re.Union (Re.Range "0" "9") (Re.Chr "_"))).

(** Between two [\b]: an optional first group, an identifier followed by
    a dot, then the second group, an identifier; an identifier is one
    character of [[a-zA-Z_]] and any number of [[a-zA-Z0-9_]]. *)
Definition column_pattern : Re.regex :=
  (Re.Wordb
   ⋅ Re.Opt (Re.Group 1 (Re.One ident_start ⋅ Re.star ident_char ⋅ Re.One (Re.Chr ".")))
   ⋅ Re.Group 2 (Re.One ident_start ⋅ Re.star ident_char)
   ⋅ Re.Wordb)%re.

(** [(.+?)\s+(?:as\s+)?(\w+)$] *)
Definition alias_pattern : Re.regex :=
  (Re.Group 1 (Re.lazy_plus Re.Dot) ⋅ Re.plus Re.Space
   ⋅ Re.Opt (Re.lit "as" ⋅ Re.plus Re.Space)
   ⋅ Re.Group 2 (Re.plus Re.Word) ⋅ Re.Eos)%re.

(** [^\s*select\s+] and [\bfrom\b] *)
Definition select_pattern : Re.regex :=
  (Re.Bos ⋅ Re.star Re.Space ⋅ Re.lit "select" ⋅ Re.plus Re.Space)%re.
Definition from_pattern : Re.regex := (Re.Wordb ⋅ Re.lit "from" ⋅ Re.Wordb)%re.

(** *** _extract_source_columns *)
Definition sql_keywords : list str :=
  [ "SELECT" : str; "FROM" : str; "WHERE" : str; "AND" : str; "OR" : str;
    "AS" : str; "CASE" : str; "WHEN" : str; "THEN" : str; "ELSE" : str;
    "END" : str; "NULL" : str; "TRUE" : str; "FALSE" : str; "IN" : str;
    "NOT" : str; "IS" : str; "LIKE" : str; "BETWEEN" : str; "EXISTS" : str;
    "ALL" : str; "ANY" : str ].

(** [re.findall(column_pattern, transformation)]: the two groups of each
    match, an absent group as the empty string. *)
Definition column_matches (transformation : str) : list (str * str) :=
  map (fun mt => (Re.group' transformation mt 1, Re.group' transformation mt 2))
      (Re.finditer Re.no_flags column_pattern transformation).

(** The list [columns] before it is turned into a set. *)
Definition kept_columns (transformation : str) : list str :=
  omap (fun match_ : str * str =>
          let col := match_.2 in
          if bool_decide (upper col ∈ sql_keywords) then None else Some (upper col))
       (column_matches transformation).

(** [list(set(columns))]: the order of the result is not specified. *)
Definition _extract_source_columns (transformation : str) : gset (list ascii) :=
  list_to_set (kept_columns transformation).

(** *** _parse_select_columns *)
Record column := Column {
  column_name : str;
  transformation : str;
  source_columns : gset (list ascii)
}.

(** The body of the [for col_str in column_strings] loop. *)
Definition parse_column_string (col_str : str) : option column :=
  let col_str := strip col_str in
  if negb (truthy col_str) then None
  else
    let '(transformation, column_name) :=
      match Re.search Re.IGNORECASE alias_pattern col_str with
      | Some as_match =>
          (strip (Re.group' col_str as_match 1), strip (Re.group' col_str as_match 2))
      | None => (col_str, strip (List.last (split_on "." col_str) []))
      end in
    Some (Column (upper column_name) transformation
                 (_extract_source_columns transformation)).

Definition _parse_select_columns (select_statement : str) : list column :=
  let select_content :=
    strip (Re.sub Re.IGNORECASE select_pattern [] select_statement) in
  let select_content :=
    match Re.search Re.IGNORECASE from_pattern select_content with
    | Some mt => take (Re.m_start mt) select_content
    | None => select_content
    end in
  omap parse_column_string (_split_by_comma select_content).

(** *** _extract_source_tables *)

(** [ref], an opening parenthesis, a quote, group 1 of characters that
    are not quotes, a quote and a closing parenthesis; and the same with
    [source] and two quoted groups separated by a comma with optional
    whitespace around it. *)
Definition ref_pattern : Re.regex :=
  (Re.lit "ref(" ⋅ Re.One Enhanced.quote ⋅ Re.Group 1 (Re.plus Enhanced.not_quote)
   ⋅ Re.One Enhanced.quote ⋅ Re.One (Re.Chr ")"))%re.
Definition source_pattern : Re.regex :=
  (Re.lit "source(" ⋅ Re.One Enhanced.quote ⋅ Re.Group 1 (Re.plus Enhanced.not_quote)
   ⋅ Re.One Enhanced.quote ⋅ Re.star Re.Space ⋅ Re.One (Re.Chr ",")
   ⋅ Re.star Re.Space ⋅ Re.One Enhanced.quote
   ⋅ Re.Group 2 (Re.plus Enhanced.not_quote) ⋅ Re.One Enhanced.quote
   ⋅ Re.One (Re.Chr ")"))%re.

(** An entry of [sources]; [schema] is present for a [source] entry
    only. *)
Record source_table := SourceTable {
  source_type : str;
  schema : option str;
  name : str;
  full_name : str
}.

Definition _extract_source_tables (sql : str) : list source_table :=
  map (fun mt => let ref := Re.group' sql mt 1 in SourceTable "ref" None ref ref)
      (Re.finditer Re.no_flags ref_pattern sql)
  ++ map (fun mt =>
            let src0 := Re.group' sql mt 1 in
            let src1 := Re.group' sql mt 2 in
            SourceTable "source" (Some src0) src1 (src0 ++ "__" ++ src1))
         (Re.finditer Re.no_flags source_pattern sql).

End DbtModelAnalyzer.

(** ** generate_mapping_doc.py: the methods of [MappingDocGenerator] *)
Module MappingDocGenerator.

(** [re.match(r, text)]: a match that starts at the first character. *)
Definition re_match (f : Re.flags) (r : Re.regex) (text : str) : option Re.rmatch :=
  Re.match_at f r text 0.

(** [^\w+\.\w+$] and [^\w+$] *)
Definition qualified_only : Re.regex :=
  (Re.Bos ⋅ Re.plus Re.Word ⋅ Re.One (Re.Chr ".") ⋅ Re.plus Re.Word ⋅ Re.Eos)%re.
Definition word_only : Re.regex := (Re.Bos ⋅ Re.plus Re.Word ⋅ Re.Eos)%re.

Definition _determine_r3_status (transformation : str) : str :=
  if negb (truthy transformation) then []
  else if bool_decide (is_Some (re_match Re.no_flags qualified_only (strip transformation)))
          || bool_decide (is_Some (re_match Re.no_flags word_only (strip transformation)))
  then "R3" else "R3+".

End MappingDocGenerator.

(** ** The notions the specification states its properties with *)
Module Spec.

(** The counters [(caseDepth, parenDepth)] reached by scanning the text
    from the left up to, and excluding, position [k]. *)
Fixpoint counters_before (text : str) (k : nat) : Z * Z :=
  match k with
  | O => (0%Z, 0%Z)
  | S k' =>
      let '(d, p) := counters_before text k' in
      (Enhanced.track_case text k' d,
       match text !! k' with Some c => Enhanced.track_paren c p | None => p end)
  end.

Definition is_comma (text : str) (k : nat) : bool :=
  bool_decide (text !! k = Some ","%char).

(** A comma at top level: both counters are zero at the comma. *)
Definition top_level_comma (text : str) (k : nat) : bool :=
  is_comma text k && bool_decide (counters_before text k = (0%Z, 0%Z)).

(** A comma inside parentheses or inside CASE...END. *)
Definition nested_comma (text : str) (k : nat) : bool :=
  is_comma text k && negb (bool_decide (counters_before text k = (0%Z, 0%Z))).

(** How many positions below [n] satisfy [P]. *)
Fixpoint count_upto (P : nat -> bool) (n : nat) : nat :=
  match n with
  | O => 0
  | S n' => count_upto P n' + (if P n' then 1 else 0)
  end.

(** N and M of the specification. *)
Definition top_level_commas (text : str) : nat :=
  count_upto (top_level_comma text) (length text).
Definition nested_commas (text : str) : nat :=
  count_upto (nested_comma text) (length text).

(** Where the segment that contains position [k] starts: just after the
    last top-level comma before [k]. *)
Fixpoint segment_start (text : str) (k : nat) : nat :=
  match k with
  | O => 0
  | S k' => if top_level_comma text k' then S k' else segment_start text k'
  end.

(** The text after the last top-level comma. *)
Definition final_segment (text : str) : str :=
  drop (segment_start text (length text)) text.

(** A string with at least one non-whitespace character. *)
Definition has_nonspace (s : str) : bool := existsb (fun c => negb (isspace c)) s.

(** The word CASE at a word boundary: [\bcase\b], case-insensitive. *)
Definition case_word : Re.regex := (Re.Wordb ⋅ Re.lit "case" ⋅ Re.Wordb)%re.
Definition case_at_word_boundary (expression : str) : bool :=
  bool_decide (is_Some (Re.search Re.IGNORECASE case_word expression)).

(** The source references of a column of [parse_select_columns], as a
    set: the one reference its [source_column] holds, if any. *)
Definition source_references (c : Enhanced.column) : gset (list ascii) :=
  if truthy (Enhanced.source_column c) then {[ Enhanced.source_column c ]} else ∅.

(** A line that starts with [select], and one that starts with [from],
    after trimming, in any letter case. *)
Definition select_line (line : str) : bool :=
  startswith (lower (strip line)) "select".
Definition from_line (line : str) : bool :=
  startswith (lower (strip line)) "from".

(** Some [select] line is followed, later, by a [from] line. *)
Definition has_select_from (lines : list str) : Prop :=
  exists (k1 k2 : nat) (l1 l2 : str),
    k1 < k2 /\ lines !! k1 = Some l1 /\ lines !! k2 = Some l2
    /\ select_line l1 = true /\ from_line l2 = true.

(** The terminal CTE is not found, or no [select] ... [from] line pair
    is found inside its body. *)
Definition structure_not_found (sql_content : str) : Prop :=
  match Re.search Re.DOTALL_IGNORECASE Enhanced.final_pattern sql_content with
  | None => True
  | Some mt =>
      ~ has_select_from (split_on Re.newline (Re.group' sql_content mt 1))
  end.

(** The invariant of the loop of [split_by_comma_respecting_case]: the
    counters are those defined above, one expression has been closed per
    top-level comma, and [current] is the text read since the last one. *)
Definition split_inv (text : str) (s : Enhanced.split_state) : Prop :=
  Enhanced.i s <= length text
  /\ (Enhanced.depth s, Enhanced.paren_depth s) = counters_before text (Enhanced.i s)
  /\ length (Enhanced.expressions s) = count_upto (top_level_comma text) (Enhanced.i s)
  /\ Enhanced.current s = slice text (segment_start text (Enhanced.i s)) (Enhanced.i s).

(** *** The form [expression AS identifier] *)

(** Whitespace only, possibly empty; and at least one whitespace
    character. *)
Definition whitespace (s : str) : bool := forallb isspace s.
Definition separator (s : str) : bool := truthy s && forallb isspace s.

(** A bare identifier: one or more word characters. *)
Definition identifier (s : str) : bool := truthy s && forallb Re.isword s.

(** The column [parse_select_columns] stores for a stored expression. *)
Definition column_of (expression : str) : Enhanced.column :=
  Enhanced.Column expression (Enhanced.extract_source_column expression)
    (contains (lower expression) "case").

(** *** When the two splitters agree *)

(** The letters of a keyword stand at position [k], in any letter case. *)
Definition keyword_at (kw : str) (text : str) (k : nat) : bool :=
  str_eqb (lower (slice text k (k + length kw))) kw.

(** Every occurrence of the letters CASE or END is a word of its own:
    the characters around it are not alphanumeric. *)
Definition keywords_delimited (text : str) : bool :=
  forallb (fun k =>
             implb (keyword_at "case" text k) (Enhanced.word_boundary text k 4)
             && implb (keyword_at "end" text k) (Enhanced.word_boundary text k 3))
          (seq 0 (length text)).

(** Opening minus closing parentheses. *)
Fixpoint paren_balance (s : str) : Z :=
  match s with
  | [] => 0%Z
  | c :: s' =>
      ((if bool_decide (c = "("%char) then 1
        else if bool_decide (c = ")"%char) then -1 else 0)
       + paren_balance s')%Z
  end.

(** No prefix of the text closes more parentheses than it opens. *)
Definition parens_never_negative (text : str) : bool :=
  forallb (fun k => (0 <=? paren_balance (take k text))%Z) (seq 0 (length text + 1)).

(** The final segment is empty or has a non-whitespace character. *)
Definition final_segment_not_blank (text : str) : bool :=
  negb (truthy (final_segment text)) || has_nonspace (final_segment text).

(** The states of the two loops at the same position. *)
Definition same_state (text : str) (se : Enhanced.split_state)
    (sd : DbtModelAnalyzer.split_state) : Prop :=
  Enhanced.i se = DbtModelAnalyzer.i sd
  /\ Enhanced.i se <= length text
  /\ Enhanced.expressions se = DbtModelAnalyzer.parts sd
  /\ Enhanced.current se = concat (DbtModelAnalyzer.current sd)
  /\ Enhanced.depth se = DbtModelAnalyzer.case_depth sd
  /\ Enhanced.paren_depth se = DbtModelAnalyzer.paren_depth sd
  /\ DbtModelAnalyzer.paren_depth sd = paren_balance (take (DbtModelAnalyzer.i sd) text)
  /\ Forall (fun piece => piece <> []) (DbtModelAnalyzer.current sd).

(** *** Direct references *)

(** A text that is one identifier, or two identifiers joined by a dot. *)
Definition direct_reference (s : str) : Prop :=
  identifier s = true
  \/ exists qualifier col,
       identifier qualifier = true /\ identifier col = true
       /\ s = qualifier ++ "." ++ col.

(** *** Line comments *)

(** Two dashes with a line break somewhere after them: a text that the
    comment pattern can match. *)
Definition closed_comment (s : str) : Prop :=
  exists a b c, s = a ++ "--" ++ b ++ Re.newline :: c.

(** An opening template mark with a closing mark somewhere after it: a
    text that the template pattern can match. *)
Definition closed_template (s : str) : Prop :=
  exists a b c, s = a ++ "{%" ++ b ++ "%}" ++ c.

End Spec.

(** * Properties *)

(** ** Strings *)

Lemma truthy_lstrip (s : list ascii) : truthy (lstrip s) = Spec.has_nonspace s.
Proof.
  induction s as [|c s IH]; simpl; [done|].
  destruct (isspace c); simpl; done.
Qed.

Lemma has_nonspace_lstrip (s : list ascii) :
  Spec.has_nonspace (lstrip s) = Spec.has_nonspace s.
Proof.
  induction s as [|c s IH]; simpl; [done|].
  destruct (isspace c) eqn:E; simpl; [done|]. by rewrite E.
Qed.

Lemma has_nonspace_app (s t : list ascii) :
  Spec.has_nonspace (s ++ t) = Spec.has_nonspace s || Spec.has_nonspace t.
Proof. apply existsb_app. Qed.

Lemma has_nonspace_rev (s : list ascii) :
  Spec.has_nonspace (rev s) = Spec.has_nonspace s.
Proof.
  induction s as [|c s IH]; simpl; [done|].
  rewrite has_nonspace_app, IH. simpl. rewrite orb_false_r. apply orb_comm.
Qed.

Lemma truthy_rev (s : list ascii) : truthy (rev s) = truthy s.
Proof.
  destruct s as [|c s]; simpl; [done|]. by destruct (rev s).
Qed.

(** The test [if current.strip()]. *)
Lemma truthy_strip_has_nonspace (s : list ascii) :
  truthy (strip s) = Spec.has_nonspace s.
Proof.
  unfold strip, rstrip.
  by rewrite truthy_rev, truthy_lstrip, has_nonspace_rev, has_nonspace_lstrip.
Qed.

Lemma join_snoc (sep : list ascii) (l : list (list ascii)) (x : list ascii) :
  join sep (l ++ [x]) = match l with [] => x | _ => join sep l ++ sep ++ x end.
Proof.
  induction l as [|y l IH]; simpl; [done|].
  rewrite IH. destruct l as [|z l]; simpl; [done|].
  by rewrite <- !app_assoc.
Qed.

Lemma join_snoc_app (sep : list ascii) (l : list (list ascii)) (x y : list ascii) :
  join sep (l ++ [x ++ y]) = join sep (l ++ [x]) ++ y.
Proof.
  rewrite !join_snoc. destruct l; [done|]. by rewrite <- !app_assoc.
Qed.

(** ** The loop of [split_by_comma_respecting_case] *)
Section EnhancedSplitter.

Import Enhanced.
Variable text : list ascii.

Lemma split_step_i s :
  i s < length text -> i (split_step text s) = i s + 1.
Proof.
  intros Hlt. unfold split_step.
  destruct (lookup_lt_is_Some_2 text (i s) Hlt) as [c ->].
  by case_match.
Qed.

(** An invariant of the loop body is an invariant of the loop. *)
Lemma split_loop_ind (P : split_state -> Prop) fuel s :
  (forall s, i s < length text -> P s -> P (split_step text s)) ->
  P s -> P (split_loop fuel text s).
Proof.
  intros Hstep. revert s.
  induction fuel as [|fuel IH]; intros s Hs; simpl; [done|].
  case_match; [|done].
  apply IH, Hstep; [|done]. by apply Nat.ltb_lt.
Qed.

(** The loop leaves through its guard, not for lack of fuel. *)
Lemma split_loop_exit fuel s :
  i s <= length text -> length text <= i s + fuel ->
  i (split_loop fuel text s) = length text.
Proof.
  revert s. induction fuel as [|fuel IH]; intros s Hle Hfuel; simpl; [lia|].
  destruct (Nat.ltb_spec (i s) (length text)) as [Hlt|Hge]; [|lia].
  apply IH; rewrite split_step_i; lia.
Qed.

Lemma split_final_i : i (split_final text) = length text.
Proof. apply split_loop_exit; simpl; lia. Qed.

(** A character that cannot start a keyword leaves the CASE counter. *)
Lemma track_case_other k c d :
  text !! k = Some c ->
  lower_char c <> "c"%char -> lower_char c <> "e"%char ->
  track_case text k d = d.
Proof.
  intros Hk Hc He. unfold track_case, slice, str_eqb.
  rewrite (drop_S _ _ _ Hk).
  replace (k + 4 - k) with 4 by lia. replace (k + 3 - k) with 3 by lia.
  simpl. rewrite !bool_decide_eq_false_2, !andb_false_r; [done| |];
    intros [=]; done.
Qed.

Lemma track_case_comma k d :
  text !! k = Some ","%char -> track_case text k d = d.
Proof. intros Hk. by apply (track_case_other k ","%char). Qed.

Lemma segment_start_le k : Spec.segment_start text k <= k.
Proof. induction k; simpl; [done|]. case_match; lia. Qed.

Lemma slice_snoc (a k : nat) c :
  a <= k -> text !! k = Some c -> slice text a (S k) = slice text a k ++ [c].
Proof.
  intros Hle Hk. unfold slice.
  replace (S k - a) with (S (k - a)) by lia.
  apply take_S_r. rewrite lookup_drop. by replace (a + (k - a)) with k by lia.
Qed.

Lemma split_step_inv s :
  i s < length text -> Spec.split_inv text s -> Spec.split_inv text (split_step text s).
Proof.
  intros Hlt (Hle & Hcnt & Hlen & Hcur). unfold split_step.
  destruct (lookup_lt_is_Some_2 text (i s) Hlt) as [c Hc]. rewrite Hc.
  assert (Htop : bool_decide (c = ","%char)
                 && (track_case text (i s) (depth s) =? 0)%Z
                 && (track_paren c (paren_depth s) =? 0)%Z
                 = Spec.top_level_comma text (i s)).
  { unfold Spec.top_level_comma, Spec.is_comma. rewrite Hc, <- Hcnt.
    destruct (decide (c = ","%char)) as [->|Hne].
    - rewrite (track_case_comma _ _ Hc). rewrite !bool_decide_eq_true_2 by done.
      simpl. unfold track_paren. simpl.
      destruct (depth s), (paren_depth s); simpl; try done;
        rewrite bool_decide_eq_false_2; done.
    - rewrite (bool_decide_eq_false_2 (c = _)) by done.
      rewrite (bool_decide_eq_false_2 (Some c = _)) by congruence. done. }
  rewrite Htop.
  destruct (Spec.top_level_comma text (i s)) eqn:E; unfold Spec.split_inv; simpl;
    replace (i s + 1) with (S (i s)) by lia; simpl; rewrite E, Hc, <- Hcnt;
    (split; [lia|]); (split; [done|]).
  - split; [rewrite length_app; simpl; lia|].
    unfold slice. by rewrite Nat.sub_diag.
  - split; [lia|]. rewrite Hcur. symmetry. apply slice_snoc; [|done].
    apply segment_start_le.
Qed.

Lemma split_final_inv : Spec.split_inv text (split_final text).
Proof.
  unfold split_final. apply split_loop_ind; [apply split_step_inv|].
  unfold Spec.split_inv, slice; simpl. repeat split. lia.
Qed.

Lemma split_final_current : current (split_final text) = Spec.final_segment text.
Proof.
  destruct split_final_inv as (_ & _ & _ & ->).
  rewrite split_final_i. unfold slice, Spec.final_segment.
  apply take_ge. rewrite length_drop. lia.
Qed.

Lemma split_final_expressions :
  length (expressions (split_final text)) = Spec.top_level_commas text.
Proof.
  destruct split_final_inv as (_ & _ & -> & _). by rewrite split_final_i.
Qed.

End EnhancedSplitter.

(** ** The counters of the enhanced splitter never go below zero *)

Lemma track_case_nonneg (text : list ascii) k d :
  (0 <= d)%Z -> (0 <= Enhanced.track_case text k d)%Z.
Proof. intros Hd. unfold Enhanced.track_case. repeat case_match; lia. Qed.

Lemma track_paren_nonneg c p :
  (0 <= p)%Z -> (0 <= Enhanced.track_paren c p)%Z.
Proof. intros Hp. unfold Enhanced.track_paren. repeat case_match; lia. Qed.

(** At every point of a scan of the enhanced splitter both counters are
    non-negative. *)
Lemma enhanced_counters_nonneg (text : list ascii) (fuel : nat) :
  let s := Enhanced.split_loop fuel text Enhanced.split_init in
  (0 <= Enhanced.depth s)%Z /\ (0 <= Enhanced.paren_depth s)%Z.
Proof.
  apply (split_loop_ind text (fun s => (0 <= Enhanced.depth s)%Z
                                       /\ (0 <= Enhanced.paren_depth s)%Z));
    [|simpl; lia].
  intros s _ [Hd Hp]. unfold Enhanced.split_step.
  pose proof (track_case_nonneg text (Enhanced.i s) _ Hd).
  repeat case_match; simpl; try done; split; try done;
    by apply track_paren_nonneg.
Qed.

(** ** Joining the expressions gives the text back *)

Lemma split_step_join (text : list ascii) s :
  Enhanced.i s < length text ->
  join "," (Enhanced.expressions s ++ [Enhanced.current s]) = take (Enhanced.i s) text ->
  let s' := Enhanced.split_step text s in
  join "," (Enhanced.expressions s' ++ [Enhanced.current s']) = take (Enhanced.i s') text.
Proof.
  intros Hlt Hjoin. unfold Enhanced.split_step.
  destruct (lookup_lt_is_Some_2 text _ Hlt) as [c Hc]. rewrite Hc.
  replace (Enhanced.i s + 1) with (S (Enhanced.i s)) by lia.
  case_match eqn:E;
    cbn [Enhanced.expressions Enhanced.current Enhanced.i];
    rewrite (take_S_r _ _ _ Hc).
  - apply andb_prop in E as [E _]. apply andb_prop in E as [E _].
    apply bool_decide_eq_true in E as ->.
    rewrite join_snoc.
    destruct (Enhanced.expressions s ++ [Enhanced.current s]) eqn:E2;
      [by destruct (Enhanced.expressions s)|].
    by rewrite Hjoin.
  - by rewrite join_snoc_app, Hjoin.
Qed.

Lemma split_final_join (text : list ascii) :
  let s := Enhanced.split_final text in
  join "," (Enhanced.expressions s ++ [Enhanced.current s]) = text.
Proof.
  intros s.
  assert (H : join "," (Enhanced.expressions s ++ [Enhanced.current s])
              = take (Enhanced.i s) text).
  { subst s. unfold Enhanced.split_final.
    apply (split_loop_ind text
      (fun s => join "," (Enhanced.expressions s ++ [Enhanced.current s])
                = take (Enhanced.i s) text)); [|done].
    intros s Hlt Hs. by apply split_step_join. }
  rewrite H. subst s. rewrite split_final_i. by apply take_ge.
Qed.

(** ** How many expressions the splitter returns *)



(** C10: when the final accumulated segment has a non-whitespace
    character, joining the expressions returned by
    [split_by_comma_respecting_case] with single commas gives the input
    text back. *)
Theorem split_join (text : list ascii) :
  Spec.has_nonspace (Enhanced.current (Enhanced.split_final text)) = true ->
  join "," (Enhanced.split_by_comma_respecting_case text) = text.
Proof.
  intros Hfinal. unfold Enhanced.split_by_comma_respecting_case.
  rewrite truthy_strip_has_nonspace, Hfinal. apply split_final_join.
Qed.

Lemma split_join_witness :
  Spec.has_nonspace (Enhanced.current (Enhanced.split_final "f(a, b) as x, c")) = true
  /\ join "," (Enhanced.split_by_comma_respecting_case "f(a, b) as x, c")
     = "f(a, b) as x, c".
Proof. split; [reflexivity|]. apply split_join. reflexivity. Defined.

(** ** The keyword boundary test *)


(** C2: the identifier CASE_TYPE does raise the CASE counter.  In the
    enhanced splitter the boundary test is [isalnum], which the underscore
    fails, so [case_type, amount] is not split at its comma; in
    [_split_by_comma] there is no boundary test at all, so CASE_TYPE raises
    the counter and ENDDATE lowers it. *)
Theorem case_type_raises_case_depth :
  Enhanced.track_case "CASE_TYPE" 0 0 = 1%Z
  /\ Enhanced.split_by_comma_respecting_case "case_type, amount"
     = [ "case_type, amount" : list ascii ]
  /\ DbtModelAnalyzer.case_depth (DbtModelAnalyzer.split_final "CASE_TYPE") = 1%Z
  /\ DbtModelAnalyzer.case_depth
       (DbtModelAnalyzer.split_loop 2 "case ENDDATE" DbtModelAnalyzer.split_init) = 1%Z
  /\ DbtModelAnalyzer.case_depth
       (DbtModelAnalyzer.split_loop 3 "case ENDDATE" DbtModelAnalyzer.split_init) = 0%Z.
Proof. repeat split; vm_compute; reflexivity. Qed.

(** ** The branches of a CASE expression *)

(** C3: on the expression of the claim every WHEN...THEN pair is returned
    twice, because the pattern for a single-quoted value stands twice in
    [when_patterns] and the matches of all patterns are concatenated; and
    when the values are of different kinds the entries come in the order
    of the patterns, not of the source. *)
Theorem extract_case_logic_duplicates :
  Enhanced.extract_case_logic "CASE WHEN a THEN '1' WHEN b THEN '2' ELSE '3' END"
  = Some (Enhanced.CaseLogic
            [ ("a" : list ascii, "1" : list ascii); ("b" : list ascii, "2" : list ascii);
              ("a" : list ascii, "1" : list ascii); ("b" : list ascii, "2" : list ascii) ]
            (Some ("3" : list ascii)))
  /\ Enhanced.extract_case_logic "case when a then 1 when b then 'x' end"
     = Some (Enhanced.CaseLogic
               [ ("a then 1 when b" : list ascii, "x" : list ascii);
                 ("a" : list ascii, "1" : list ascii);
                 ("a then 1 when b" : list ascii, "x" : list ascii);
                 ("a" : list ascii, "1" : list ascii) ]
               None).
Proof. split; vm_compute; reflexivity. Qed.

(** ** A stray closing parenthesis *)

(** C8: in [_split_by_comma] a closing parenthesis lowers [paren_depth]
    without a floor: after [a)] the counter is -1 and the comma that
    follows is not taken as a separator, where the enhanced splitter
    splits. *)
Theorem split_by_comma_negative_paren_depth :
  DbtModelAnalyzer.paren_depth
    (DbtModelAnalyzer.split_loop 2 "a), b" DbtModelAnalyzer.split_init) = (-1)%Z
  /\ DbtModelAnalyzer._split_by_comma "a), b" = [ "a), b" : list ascii ]
  /\ Enhanced.split_by_comma_respecting_case "a), b" = [ "a)" : list ascii; " b" : list ascii ].
Proof. repeat split; vm_compute; reflexivity. Qed.


(** ** Source references *)



(** ** The conditional flag *)

Lemma startswith_spec (s p : list ascii) :
  startswith s p = true <-> exists rest, s = p ++ rest.
Proof.
  revert s. induction p as [|a p IH]; intros s; simpl.
  - split; [intros _; by exists s|by destruct s].
  - destruct s as [|b s]; simpl; [split; [done|by intros [? ?]]|].
    rewrite andb_true_iff, bool_decide_eq_true, IH. split.
    + intros [-> [rest ->]]. by exists rest.
    + intros [rest [= -> ->]]. split; [done|by exists rest].
Qed.

Lemma contains_spec (s p : list ascii) :
  contains s p = true <-> exists before after, s = before ++ p ++ after.
Proof.
  induction s as [|c s IH].
  - change (contains [] p) with (startswith [] p || false).
    rewrite orb_false_r, startswith_spec. split.
    + intros [rest H]. by exists [], rest.
    + intros (before & after & H). symmetry in H.
      apply app_eq_nil in H as [-> H]. by exists after.
  - change (contains (c :: s) p) with (startswith (c :: s) p || contains s p).
    rewrite orb_true_iff, startswith_spec, IH. split.
    + intros [[rest H]|(before & after & H)].
      * by exists [], rest.
      * exists (c :: before), after. by rewrite H.
    + intros (before & after & H). destruct before as [|b before].
      * left. by exists after.
      * right. injection H as -> ->. by exists before, after.
Qed.

Lemma parse_column_expr_is_case (expr k : list ascii) c :
  Enhanced.parse_column_expr expr = Some (k, c) ->
  Enhanced.is_case c = contains (lower (Enhanced.expression c)) "case".
Proof.
  unfold Enhanced.parse_column_expr. intros H.
  repeat case_match; try done. by injection H as <- <-.
Qed.

Lemma foldl_add_column_lookup (P : Enhanced.column -> Prop)
    (exprs : list (list ascii)) (m : gmap (list ascii) Enhanced.column) :
  (forall expr k c, Enhanced.parse_column_expr expr = Some (k, c) -> P c) ->
  map_Forall (fun _ c => P c) m ->
  map_Forall (fun _ c => P c) (foldl Enhanced.add_column m exprs).
Proof.
  intros Hparse. revert m.
  induction exprs as [|expr exprs IH]; intros m Hm; simpl; [done|].
  apply IH. unfold Enhanced.add_column.
  destruct (Enhanced.parse_column_expr expr) as [[k c]|] eqn:E; [|done].
  apply map_Forall_insert_2; [|done]. by eapply Hparse.
Qed.

(** C6, as stated, fails: for [a.showcase as x] the flag is set although
    CASE occurs only inside the identifier [showcase]. *)
Lemma is_case_counterexample :
  ~ (forall (select_clause col_name : list ascii) c,
       Enhanced.parse_select_columns select_clause !! col_name = Some c ->
       (Enhanced.is_case c = true
        <-> Spec.case_at_word_boundary (Enhanced.expression c) = true)).
Proof.
  intros H.
  assert (Hx : Enhanced.parse_select_columns "a.showcase as x" !! ("X" : list ascii)
               = Some (Enhanced.Column "a.showcase" "a.showcase" true))
    by (vm_compute; reflexivity).
  destruct (H _ _ _ Hx) as [Hword _].
  specialize (Hword eq_refl). vm_compute in Hword. discriminate.
Qed.

(** C6 (amended): for every column produced by [parse_select_columns],
    the flag [is_case] is true if and only if the letters CASE occur, in
    any letter case, somewhere in the stored expression, be it as a word
    or inside a longer identifier. *)
Theorem is_case_substring (select_clause col_name : list ascii) c :
  Enhanced.parse_select_columns select_clause !! col_name = Some c ->
  (Enhanced.is_case c = true
   <-> exists before after,
         lower (Enhanced.expression c) = before ++ "case" ++ after).
Proof.
  intros Hc. rewrite <- contains_spec.
  unfold Enhanced.parse_select_columns in Hc.
  eapply (foldl_add_column_lookup
            (fun c => Enhanced.is_case c = true
                      <-> contains (lower (Enhanced.expression c)) "case" = true))
    in Hc; [done| |apply map_Forall_empty].
  intros expr k c' Hparse. by rewrite (parse_column_expr_is_case _ _ _ Hparse).
Qed.

Lemma is_case_substring_witness :
  Enhanced.parse_select_columns "a.showcase as x, case when a.y > 0 then 1 end as s"
    !! ("X" : list ascii)
  = Some (Enhanced.Column "a.showcase" "a.showcase" true)
  /\ (true = true
      <-> exists before after : list ascii,
            lower ("a.showcase" : list ascii) = before ++ "case" ++ after).
Proof.
  split; [vm_compute; reflexivity|].
  apply (is_case_substring
           "a.showcase as x, case when a.y > 0 then 1 end as s" "X"
           (Enhanced.Column "a.showcase" "a.showcase" true)).
  vm_compute. reflexivity.
Defined.

(** ** The final CTE is not found *)

Lemma scan_lines_cons (line : list ascii) (rest : list (list ascii)) i select_start :
  Enhanced.scan_lines (line :: rest) i select_start
  = if Spec.select_line line then Enhanced.scan_lines rest (i + 1) (Z.of_nat i)
    else if (0 <=? select_start)%Z && Spec.from_line line
         then (select_start, Z.of_nat i)
         else Enhanced.scan_lines rest (i + 1) select_start.
Proof. reflexivity. Qed.

Lemma scan_lines_no_from (lines : list (list ascii)) i select_start :
  (forall l, l ∈ lines -> Spec.from_line l = false) ->
  (Enhanced.scan_lines lines i select_start).2 = (-1)%Z.
Proof.
  revert i select_start.
  induction lines as [|line lines IH]; intros i ss Hfrom; [done|].
  assert (Hline : Spec.from_line line = false) by (apply Hfrom; left).
  assert (Hrest : forall l, l ∈ lines -> Spec.from_line l = false)
    by (intros l Hl; apply Hfrom; by right).
  rewrite scan_lines_cons, Hline, andb_false_r. case_match; by apply IH.
Qed.

Lemma scan_lines_no_pair (lines : list (list ascii)) i select_start :
  (select_start < 0)%Z -> ~ Spec.has_select_from lines ->
  ((Enhanced.scan_lines lines i select_start).1 < 0)%Z
  \/ ((Enhanced.scan_lines lines i select_start).2 < 0)%Z.
Proof.
  revert i. induction lines as [|line lines IH]; intros i Hss Hnone.
  - by left.
  - rewrite scan_lines_cons. destruct (Spec.select_line line) eqn:Hsel.
    + right. rewrite scan_lines_no_from; [done|].
      intros l Hl. destruct (Spec.from_line l) eqn:Hfrom; [|done].
      exfalso. apply Hnone. apply list_elem_of_lookup in Hl as [k Hk].
      exists 0, (S k), line, l. repeat split; try done. lia.
    + replace (0 <=? select_start)%Z with false by (symmetry; apply Z.leb_gt; lia).
      simpl. apply IH; [done|].
      intros (k1 & k2 & l1 & l2 & Hlt & H1 & H2 & Hs & Hf). apply Hnone.
      exists (S k1), (S k2), l1, l2. repeat split; try done. lia.
Qed.

(** C7, as stated, fails: when the structure is not found the function
    returns the empty dictionary and emits no diagnostic at all. *)
Lemma structure_not_found_counterexample :
  ~ (forall sql_content : list ascii,
       Spec.structure_not_found sql_content ->
       Enhanced.columns (Enhanced.parse_final_select_enhanced sql_content) = ∅
       /\ length (Enhanced.diagnostics (Enhanced.parse_final_select_enhanced sql_content)) = 1).
Proof.
  intros H. destruct (H ("select a.x as y from t" : list ascii)) as [_ Hdiag].
  - vm_compute. exact Logic.I.
  - vm_compute in Hdiag. discriminate.
Qed.

(** C7 (amended): when no terminal CTE is found, or no [select] line
    followed by a [from] line is found inside its body,
    [parse_final_select_enhanced] returns the empty dictionary, without a
    diagnostic and without an exception. *)
Theorem structure_not_found_empty (sql_content : list ascii) :
  Spec.structure_not_found sql_content ->
  Enhanced.parse_final_select_enhanced sql_content = Enhanced.Outcome ∅ [].
Proof.
  unfold Spec.structure_not_found, Enhanced.parse_final_select_enhanced.
  destruct (Re.search _ _ _) as [mt|]; [|done].
  intros Hnone.
  destruct (scan_lines_no_pair _ 0 (-1)%Z eq_refl Hnone) as [H|H];
    destruct (Enhanced.scan_lines _ _ _) as [select_start from_line]; simpl in H.
  - replace (select_start <? 0)%Z with true by (symmetry; by apply Z.ltb_lt). done.
  - replace (from_line <? 0)%Z with true by (symmetry; by apply Z.ltb_lt).
    by rewrite orb_true_r.
Qed.

Lemma structure_not_found_empty_witness :
  Spec.structure_not_found "select a.x as y from t"
  /\ Enhanced.parse_final_select_enhanced "select a.x as y from t"
     = Enhanced.Outcome ∅ [].
Proof.
  split; [vm_compute; exact Logic.I|].
  apply structure_not_found_empty. vm_compute. exact Logic.I.
Defined.

(** ** The two splitters compared *)

(** A property of characters that holds on the 256 code points holds of
    every character. *)
Lemma ascii_all (P : ascii -> bool) :
  forallb (fun n => P (ascii_of_nat n)) (seq 0 256) = true -> forall c, P c = true.
Proof.
  intros H c. rewrite forallb_forall in H.
  specialize (H (nat_of_ascii c)). rewrite ascii_nat_embedding in H.
  apply H, in_seq. pose proof (nat_ascii_bounded c). lia.
Qed.

Lemma upper_char_head (c u : ascii) (rest tail : list ascii) :
  upper_char c ++ rest = u :: tail ->
  between 65 90 (code u) = true ->
  (rest = tail /\ lower_char c = lower_char u)
  \/ (u = "S"%char /\ tail = "S"%char :: rest).
Proof.
  assert (Hc := ascii_all (fun c => match upper_char c with
                          | [u] => negb (between 65 90 (code u))
                                   || bool_decide (lower_char c = lower_char u)
                          | [u1; u2] => bool_decide (u1 = "S"%char)
                                        && bool_decide (u2 = "S"%char)
                          | _ => false
                          end)).
  specialize (Hc ltac:(vm_compute; reflexivity) c).
  simpl in Hc. destruct (upper_char c) as [|u1 [|u2 [|u3 us]]]; try done; simpl.
  - intros [= -> ->] Hu. rewrite Hu in Hc. simpl in Hc.
    apply bool_decide_eq_true in Hc. by left.
  - intros [= -> <-] _. apply andb_prop in Hc as [H1 H2].
    apply bool_decide_eq_true in H1, H2. subst. by right.
Qed.

Lemma lower_char_letter (c l : ascii) :
  lower_char c = l -> between 97 122 (code l) = true ->
  upper_char c = [ascii_of_nat (code l - 32)] /\ isalnum c = true
  /\ c <> "("%char /\ c <> ")"%char /\ c <> ","%char.
Proof.
  intros <- Hl.
  assert (Hc := ascii_all (fun c =>
                  negb (between 97 122 (code (lower_char c)))
                  || (bool_decide (upper_char c = [ascii_of_nat (code (lower_char c) - 32)])
                      && isalnum c
                      && negb (bool_decide (c = "("%char))
                      && negb (bool_decide (c = ")"%char))
                      && negb (bool_decide (c = ","%char))))).
  specialize (Hc ltac:(vm_compute; reflexivity) c).
  simpl in Hc. rewrite Hl in Hc. simpl in Hc.
  repeat (apply andb_prop in Hc as [Hc ?]).
  apply bool_decide_eq_true in Hc.
  repeat split; try done; intros ->; done.
Qed.

Lemma upper_nonempty (c : ascii) (s : list ascii) : upper (c :: s) <> [].
Proof.
  unfold upper. simpl. unfold upper_char. repeat case_match; done.
Qed.

Lemma upper_cons (c : ascii) (s : list ascii) : upper (c :: s) = upper_char c ++ upper s.
Proof. reflexivity. Qed.

Lemma upper_nil_inv (s : list ascii) : upper s = [] -> s = [].
Proof. destruct s as [|c s]; [done|]. intros H. by apply upper_nonempty in H. Qed.

(** The upper-case test of [_split_by_comma] and the lower-case test of
    the enhanced splitter find the same keywords. *)
Lemma upper_case_lower (s : list ascii) : upper s = "CASE" -> lower s = "case".
Proof.
  destruct s as [|c1 [|c2 [|c3 [|c4 s]]]]; rewrite ?upper_cons; try done; simpl.
  - intros H. apply upper_char_head in H as [[H ->]|[? ?]]; done.
  - intros H. apply upper_char_head in H as [[H ->]|[? ?]]; [|done..].
    apply upper_char_head in H as [[H ->]|[? ?]]; done.
  - intros H. apply upper_char_head in H as [[H ->]|[? ?]]; [|done..].
    apply upper_char_head in H as [[H ->]|[? ?]]; [|done..].
    apply upper_char_head in H as [[H ->]|[? ?]]; done.
  - intros H. apply upper_char_head in H as [[H ->]|[? ?]]; [|done..].
    apply upper_char_head in H as [[H ->]|[? ?]]; [|done..].
    apply upper_char_head in H as [[H ->]|[? ?]]; [|done..].
    apply upper_char_head in H as [[H ->]|[? ?]]; [|done..].
    apply upper_nil_inv in H as ->. done.
Qed.

Lemma upper_end_lower (s : list ascii) : upper s = "END" -> lower s = "end".
Proof.
  destruct s as [|c1 [|c2 [|c3 s]]]; rewrite ?upper_cons; try done; simpl.
  - intros H. apply upper_char_head in H as [[H ->]|[? ?]]; done.
  - intros H. apply upper_char_head in H as [[H ->]|[? ?]]; [|done..].
    apply upper_char_head in H as [[H ->]|[? ?]]; done.
  - intros H. apply upper_char_head in H as [[H ->]|[? ?]]; [|done..].
    apply upper_char_head in H as [[H ->]|[? ?]]; [|done..].
    apply upper_char_head in H as [[H ->]|[? ?]]; [|done..].
    apply upper_nil_inv in H as ->. done.
Qed.

Lemma lower_case_upper (s : list ascii) : lower s = "case" -> upper s = "CASE".
Proof.
  destruct s as [|c1 [|c2 [|c3 [|c4 [|c5 s]]]]]; try done. simpl.
  intros [= H1 H2 H3 H4].
  apply lower_char_letter in H1 as [H1 _], H2 as [H2 _], H3 as [H3 _], H4 as [H4 _];
    try done.
  rewrite !upper_cons, H1, H2, H3, H4. done.
Qed.

Lemma lower_end_upper (s : list ascii) : lower s = "end" -> upper s = "END".
Proof.
  destruct s as [|c1 [|c2 [|c3 [|c4 s]]]]; try done. simpl.
  intros [= H1 H2 H3].
  apply lower_char_letter in H1 as [H1 _], H2 as [H2 _], H3 as [H3 _]; try done.
  rewrite !upper_cons, H1, H2, H3. done.
Qed.

Lemma paren_balance_app (a b : list ascii) :
  Spec.paren_balance (a ++ b) = (Spec.paren_balance a + Spec.paren_balance b)%Z.
Proof. induction a as [|c a IH]; simpl; [done|]. rewrite IH. lia. Qed.

Section TwoSplitters.

Variable text : list ascii.
Hypothesis Hkw : Spec.keywords_delimited text = true.
Hypothesis Hpar : Spec.parens_never_negative text = true.

Lemma slice_lookup k n j : j < n -> slice text k (k + n) !! j = text !! (k + j).
Proof.
  intros Hj. unfold slice. replace (k + n - k) with n by lia.
  rewrite lookup_take_lt by done. apply lookup_drop.
Qed.

Lemma slice_full k n :
  0 < n -> length (slice text k (k + n)) = n -> k + n <= length text.
Proof. unfold slice. rewrite length_take, length_drop. lia. Qed.

Lemma slice_prefix k n m : n <= m -> slice text k (k + n) = take n (slice text k (k + m)).
Proof.
  intros Hle. unfold slice. rewrite take_take.
  replace (k + n - k) with n by lia. replace (k + m - k) with m by lia.
  by rewrite Nat.min_l.
Qed.

Lemma case_delimited k :
  lower (slice text k (k + 4)) = "case" -> Enhanced.word_boundary text k 4 = true.
Proof.
  intros Hcase.
  assert (Hlen : k + 4 <= length text).
  { apply slice_full; [lia|]. apply (f_equal length) in Hcase.
    unfold lower in Hcase. by rewrite length_map in Hcase. }
  pose proof Hkw as H. unfold Spec.keywords_delimited in H.
  rewrite forallb_forall in H. specialize (H k). 
  apply andb_prop in H as [H _]; [|apply in_seq; lia].
  unfold Spec.keyword_at, str_eqb in H. simpl length in H.
  by rewrite bool_decide_eq_true_2 in H.
Qed.

Lemma end_delimited k :
  lower (slice text k (k + 3)) = "end" -> Enhanced.word_boundary text k 3 = true.
Proof.
  intros Hend.
  assert (Hlen : k + 3 <= length text).
  { apply slice_full; [lia|]. apply (f_equal length) in Hend.
    unfold lower in Hend. by rewrite length_map in Hend. }
  pose proof Hkw as H. unfold Spec.keywords_delimited in H.
  rewrite forallb_forall in H. specialize (H k).
  apply andb_prop in H as [_ H]; [|apply in_seq; lia].
  unfold Spec.keyword_at, str_eqb in H. simpl length in H.
  by rewrite bool_decide_eq_true_2 in H.
Qed.

Lemma paren_balance_nonneg k :
  k <= length text -> (0 <= Spec.paren_balance (take k text))%Z.
Proof.
  intros Hk. pose proof Hpar as H. unfold Spec.parens_never_negative in H.
  rewrite forallb_forall in H. apply Z.leb_le, H, in_seq. lia.
Qed.

Lemma paren_balance_step k c :
  text !! k = Some c ->
  Spec.paren_balance (take (k + 1) text)
  = (Spec.paren_balance (take k text)
     + (if bool_decide (c = "("%char) then 1
        else if bool_decide (c = ")"%char) then -1 else 0))%Z.
Proof.
  intros Hc. rewrite Nat.add_1_r, (take_S_r _ _ _ Hc), paren_balance_app.
  simpl. lia.
Qed.

(** *** Steps of the enhanced loop *)

Lemma enhanced_unroll fuel s :
  Enhanced.i s < length text ->
  Enhanced.split_loop (S fuel) text s
  = Enhanced.split_loop fuel text (Enhanced.split_step text s).
Proof. intros Hlt. simpl. by rewrite (proj2 (Nat.ltb_lt _ _) Hlt). Qed.

Lemma enhanced_done fuel s :
  length text <= Enhanced.i s -> Enhanced.split_loop fuel text s = s.
Proof.
  intros Hge. destruct fuel; simpl; [done|].
  by rewrite (proj2 (Nat.ltb_ge _ _) Hge).
Qed.

Lemma enhanced_step_other s c d :
  text !! Enhanced.i s = Some c ->
  Enhanced.track_case text (Enhanced.i s) (Enhanced.depth s) = d ->
  c <> "("%char -> c <> ")"%char -> c <> ","%char ->
  Enhanced.split_step text s
  = Enhanced.SplitState (Enhanced.expressions s) (Enhanced.current s ++ [c]) d
      (Enhanced.paren_depth s) (Enhanced.i s + 1).
Proof.
  intros Hc Hd H1 H2 H3. unfold Enhanced.split_step, Enhanced.track_paren.
  rewrite Hc, Hd. by rewrite !bool_decide_eq_false_2 by done.
Qed.

Lemma track_case_after_alnum k c d :
  text !! k = Some c -> isalnum c = true -> Enhanced.track_case text (k + 1) d = d.
Proof.
  intros Hc Halnum.
  assert (Hwb : forall n, Enhanced.word_boundary text (k + 1) n = false).
  { intros n. unfold Enhanced.word_boundary, Enhanced.alnum_at.
    replace (k + 1 - 1) with k by lia. rewrite Hc, Halnum.
    replace (k + 1 =? 0) with false by (symmetry; apply Nat.eqb_neq; lia). done. }
  unfold Enhanced.track_case. rewrite !Hwb. by repeat case_match.
Qed.

Lemma case_test_first k c :
  text !! k = Some c -> lower_char c <> "c"%char ->
  str_eqb (lower (slice text k (k + 4))) "case" = false.
Proof.
  intros Hc Hne. unfold slice, str_eqb. rewrite (drop_S _ _ _ Hc).
  replace (k + 4 - k) with 4 by lia. simpl.
  apply bool_decide_eq_false_2. intros [=]. done.
Qed.

Lemma end_test_first k c :
  text !! k = Some c -> lower_char c <> "e"%char ->
  str_eqb (lower (slice text k (k + 3))) "end" = false.
Proof.
  intros Hc Hne. unfold slice, str_eqb. rewrite (drop_S _ _ _ Hc).
  replace (k + 3 - k) with 3 by lia. simpl.
  apply bool_decide_eq_false_2. intros [=]. done.
Qed.

Lemma track_case_at_case k c1 c2 c3 c4 d :
  slice text k (k + 4) = [c1; c2; c3; c4] ->
  lower [c1; c2; c3; c4] = "case" ->
  Enhanced.track_case text k d = (d + 1)%Z.
Proof.
  intros Hs Hl.
  assert (Hlen : k + 4 <= length text) by (apply slice_full; [lia|by rewrite Hs]).
  assert (Hc1 : text !! k = Some c1).
  { pose proof (slice_lookup k 4 0 ltac:(lia)) as T. rewrite Hs, Nat.add_0_r in T. done. }
  unfold Enhanced.track_case.
  rewrite (end_test_first k c1 Hc1), andb_false_r
    by (injection Hl as -> _; done).
  rewrite case_delimited by by rewrite Hs.
  rewrite Hs. unfold str_eqb. rewrite bool_decide_eq_true_2 by done.
  by rewrite (proj2 (Nat.leb_le _ _) Hlen).
Qed.

Lemma track_case_at_end k c1 c2 c3 d :
  slice text k (k + 3) = [c1; c2; c3] ->
  lower [c1; c2; c3] = "end" ->
  Enhanced.track_case text k d = Z.max 0 (d - 1).
Proof.
  intros Hs Hl.
  assert (Hlen : k + 3 <= length text) by (apply slice_full; [lia|by rewrite Hs]).
  assert (Hc1 : text !! k = Some c1).
  { pose proof (slice_lookup k 3 0 ltac:(lia)) as T. rewrite Hs, Nat.add_0_r in T. done. }
  unfold Enhanced.track_case.
  rewrite (case_test_first k c1 Hc1), andb_false_r
    by (injection Hl as -> _; done).
  rewrite end_delimited by by rewrite Hs.
  rewrite Hs. unfold str_eqb. rewrite bool_decide_eq_true_2 by done.
  by rewrite (proj2 (Nat.leb_le _ _) Hlen).
Qed.

(** Where [_split_by_comma] sees no keyword, the enhanced tracker leaves
    the CASE counter as it is. *)
Lemma track_case_no_keyword k d :
  upper (slice text k (k + 4)) <> "CASE" ->
  upper (slice text k (k + 3)) <> "END" ->
  Enhanced.track_case text k d = d.
Proof.
  intros Hcase Hend. unfold Enhanced.track_case, str_eqb.
  rewrite (bool_decide_eq_false_2 (lower (slice text k (k + 4)) = _))
    by (intros H; by apply Hcase, lower_case_upper).
  rewrite (bool_decide_eq_false_2 (lower (slice text k (k + 3)) = _))
    by (intros H; by apply Hend, lower_end_upper).
  by rewrite !andb_false_r.
Qed.

(** *** One step of [_split_by_comma] against the enhanced loop *)

Lemma paren_balance_other k c :
  text !! k = Some c -> c <> "("%char -> c <> ")"%char ->
  Spec.paren_balance (take (k + 1) text) = Spec.paren_balance (take k text).
Proof.
  intros Hc H1 H2. rewrite (paren_balance_step k c Hc).
  rewrite !bool_decide_eq_false_2 by done. lia.
Qed.

(** At a keyword CASE the enhanced loop takes four steps. *)
Lemma sim_case se sd :
  Spec.same_state text se sd ->
  upper (slice text (DbtModelAnalyzer.i sd) (DbtModelAnalyzer.i sd + 4)) = "CASE" ->
  exists se',
    (forall fuel, Enhanced.split_loop (4 + fuel) text se
                  = Enhanced.split_loop fuel text se')
    /\ Spec.same_state text se' (DbtModelAnalyzer.split_step text sd)
    /\ DbtModelAnalyzer.i (DbtModelAnalyzer.split_step text sd)
       = DbtModelAnalyzer.i sd + 4.
Proof.
  intros (Hi & Hle & He & Hc & Hd & Hp & Hb & Hne) Hu.
  destruct se as [ex cur d p k], sd as [parts curd pd cd kd];
    simpl in Hi, Hle, He, Hc, Hd, Hp, Hb, Hne, Hu; subst.
  pose proof (upper_case_lower _ Hu) as Hl.
  destruct (slice text kd (kd + 4)) as [|c1 [|c2 [|c3 [|c4 [|c5 tl]]]]] eqn:Hs;
    try done.
  assert (Hlen : kd + 4 <= length text) by (apply slice_full; [lia|by rewrite Hs]).
  assert (T0 : text !! kd = Some c1).
  { pose proof (slice_lookup kd 4 0 ltac:(lia)) as T. by rewrite Hs, Nat.add_0_r in T. }
  assert (T1 : text !! (kd + 1) = Some c2).
  { pose proof (slice_lookup kd 4 1 ltac:(lia)) as T. by rewrite Hs in T. }
  assert (T2 : text !! (kd + 1 + 1) = Some c3).
  { pose proof (slice_lookup kd 4 2 ltac:(lia)) as T. rewrite Hs in T.
    by replace (kd + 1 + 1) with (kd + 2) by lia. }
  assert (T3 : text !! (kd + 1 + 1 + 1) = Some c4).
  { pose proof (slice_lookup kd 4 3 ltac:(lia)) as T. rewrite Hs in T.
    by replace (kd + 1 + 1 + 1) with (kd + 3) by lia. }
  injection Hl as L1 L2 L3 L4.
  destruct (lower_char_letter c1 _ L1 eq_refl) as (_ & A1 & N1 & N1' & N1'').
  destruct (lower_char_letter c2 _ L2 eq_refl) as (_ & A2 & N2 & N2' & N2'').
  destruct (lower_char_letter c3 _ L3 eq_refl) as (_ & A3 & N3 & N3' & N3'').
  destruct (lower_char_letter c4 _ L4 eq_refl) as (_ & A4 & N4 & N4' & N4'').
  exists (Enhanced.SplitState parts ((((concat curd ++ [c1]) ++ [c2]) ++ [c3]) ++ [c4])
            (cd + 1) (Spec.paren_balance (take kd text)) (kd + 1 + 1 + 1 + 1)).
  split; [|split].
  - intros fuel. change (4 + fuel) with (S (S (S (S fuel)))).
    rewrite enhanced_unroll by (simpl; lia).
    rewrite (enhanced_step_other _ c1 (cd + 1)%Z); try done;
      [|simpl; eapply track_case_at_case; [done|]; simpl; congruence].
    cbn [Enhanced.i Enhanced.expressions Enhanced.current Enhanced.depth
         Enhanced.paren_depth].
    rewrite enhanced_unroll by (simpl; lia).
    rewrite (enhanced_step_other _ c2 (cd + 1)%Z); try done;
      [|simpl; by eapply track_case_after_alnum].
    cbn [Enhanced.i Enhanced.expressions Enhanced.current Enhanced.depth
         Enhanced.paren_depth].
    rewrite enhanced_unroll by (simpl; lia).
    rewrite (enhanced_step_other _ c3 (cd + 1)%Z); try done;
      [|simpl; by eapply track_case_after_alnum].
    cbn [Enhanced.i Enhanced.expressions Enhanced.current Enhanced.depth
         Enhanced.paren_depth].
    rewrite enhanced_unroll by (simpl; lia).
    rewrite (enhanced_step_other _ c4 (cd + 1)%Z); try done.
    simpl; by eapply track_case_after_alnum.
  - unfold DbtModelAnalyzer.split_step. simpl. rewrite T0, Hs. unfold str_eqb.
    rewrite bool_decide_eq_true_2 by done.
    unfold Spec.same_state; simpl. repeat split; try done; try lia.
    + rewrite concat_app. simpl. by rewrite <- !app_assoc.
    + replace (kd + 4) with (kd + 1 + 1 + 1 + 1) by lia.
      rewrite (paren_balance_other _ c4), (paren_balance_other _ c3),
        (paren_balance_other _ c2), (paren_balance_other _ c1); done.
    + apply Forall_app. split; [done|]. by apply Forall_singleton.
  - unfold DbtModelAnalyzer.split_step. simpl. rewrite T0, Hs. unfold str_eqb.
    by rewrite bool_decide_eq_true_2.
Qed.

(** At a keyword END the enhanced loop takes three steps. *)
Lemma sim_end se sd :
  Spec.same_state text se sd ->
  upper (slice text (DbtModelAnalyzer.i sd) (DbtModelAnalyzer.i sd + 4)) <> "CASE" ->
  upper (slice text (DbtModelAnalyzer.i sd) (DbtModelAnalyzer.i sd + 3)) = "END" ->
  exists se',
    (forall fuel, Enhanced.split_loop (3 + fuel) text se
                  = Enhanced.split_loop fuel text se')
    /\ Spec.same_state text se' (DbtModelAnalyzer.split_step text sd)
    /\ DbtModelAnalyzer.i (DbtModelAnalyzer.split_step text sd)
       = DbtModelAnalyzer.i sd + 3.
Proof.
  intros (Hi & Hle & He & Hc & Hd & Hp & Hb & Hne) Hcase Hu.
  destruct se as [ex cur d p k], sd as [parts curd pd cd kd];
    simpl in Hi, Hle, He, Hc, Hd, Hp, Hb, Hne, Hu, Hcase; subst.
  pose proof (upper_end_lower _ Hu) as Hl.
  destruct (slice text kd (kd + 3)) as [|c1 [|c2 [|c3 [|c4 tl]]]] eqn:Hs; try done.
  assert (Hlen : kd + 3 <= length text) by (apply slice_full; [lia|by rewrite Hs]).
  assert (T0 : text !! kd = Some c1).
  { pose proof (slice_lookup kd 3 0 ltac:(lia)) as T. by rewrite Hs, Nat.add_0_r in T. }
  assert (T1 : text !! (kd + 1) = Some c2).
  { pose proof (slice_lookup kd 3 1 ltac:(lia)) as T. by rewrite Hs in T. }
  assert (T2 : text !! (kd + 1 + 1) = Some c3).
  { pose proof (slice_lookup kd 3 2 ltac:(lia)) as T. rewrite Hs in T.
    by replace (kd + 1 + 1) with (kd + 2) by lia. }
  injection Hl as L1 L2 L3.
  destruct (lower_char_letter c1 _ L1 eq_refl) as (_ & A1 & N1 & N1' & N1'').
  destruct (lower_char_letter c2 _ L2 eq_refl) as (_ & A2 & N2 & N2' & N2'').
  destruct (lower_char_letter c3 _ L3 eq_refl) as (_ & A3 & N3 & N3' & N3'').
  exists (Enhanced.SplitState parts (((concat curd ++ [c1]) ++ [c2]) ++ [c3])
            (Z.max 0 (cd - 1)) (Spec.paren_balance (take kd text)) (kd + 1 + 1 + 1)).
  split; [|split].
  - intros fuel. change (3 + fuel) with (S (S (S fuel))).
    rewrite enhanced_unroll by (simpl; lia).
    rewrite (enhanced_step_other _ c1 (Z.max 0 (cd - 1))); try done;
      [|simpl; eapply track_case_at_end; [done|]; simpl; congruence].
    cbn [Enhanced.i Enhanced.expressions Enhanced.current Enhanced.depth
         Enhanced.paren_depth].
    rewrite enhanced_unroll by (simpl; lia).
    rewrite (enhanced_step_other _ c2 (Z.max 0 (cd - 1))); try done;
      [|simpl; by eapply track_case_after_alnum].
    cbn [Enhanced.i Enhanced.expressions Enhanced.current Enhanced.depth
         Enhanced.paren_depth].
    rewrite enhanced_unroll by (simpl; lia).
    rewrite (enhanced_step_other _ c3 (Z.max 0 (cd - 1))); try done.
    simpl; by eapply track_case_after_alnum.
  - unfold DbtModelAnalyzer.split_step. simpl. rewrite T0, Hs. unfold str_eqb.
    rewrite bool_decide_eq_false_2 by done.
    rewrite bool_decide_eq_true_2 by done.
    unfold Spec.same_state; simpl. repeat split; try done; try lia.
    + rewrite concat_app. simpl. by rewrite <- !app_assoc.
    + replace (kd + 3) with (kd + 1 + 1 + 1) by lia.
      rewrite (paren_balance_other _ c3), (paren_balance_other _ c2),
        (paren_balance_other _ c1); done.
    + apply Forall_app. split; [done|]. by apply Forall_singleton.
  - unfold DbtModelAnalyzer.split_step. simpl. rewrite T0, Hs. unfold str_eqb.
    rewrite bool_decide_eq_false_2 by done.
    by rewrite bool_decide_eq_true_2.
Qed.

(** Elsewhere both loops take one step. *)
Lemma sim_char se sd :
  Spec.same_state text se sd ->
  DbtModelAnalyzer.i sd < length text ->
  upper (slice text (DbtModelAnalyzer.i sd) (DbtModelAnalyzer.i sd + 4)) <> "CASE" ->
  upper (slice text (DbtModelAnalyzer.i sd) (DbtModelAnalyzer.i sd + 3)) <> "END" ->
  Spec.same_state text (Enhanced.split_step text se) (DbtModelAnalyzer.split_step text sd)
  /\ DbtModelAnalyzer.i (DbtModelAnalyzer.split_step text sd)
     = DbtModelAnalyzer.i sd + 1.
Proof.
  intros (Hi & Hle & He & Hc & Hd & Hp & Hb & Hne) Hlt Hcase Hend.
  destruct se as [ex cur d p k], sd as [parts curd pd cd kd];
    simpl in Hi, Hle, He, Hc, Hd, Hp, Hb, Hne, Hlt, Hcase, Hend; subst.
  destruct (lookup_lt_is_Some_2 text kd Hlt) as [c Hchar].
  pose proof (paren_balance_step kd c Hchar) as Hstep.
  pose proof (paren_balance_nonneg (kd + 1) ltac:(lia)) as Hnonneg.
  unfold Enhanced.split_step, DbtModelAnalyzer.split_step, Enhanced.track_paren,
    str_eqb.
  cbn [Enhanced.i Enhanced.expressions Enhanced.current Enhanced.depth
       Enhanced.paren_depth DbtModelAnalyzer.i DbtModelAnalyzer.parts
       DbtModelAnalyzer.current DbtModelAnalyzer.paren_depth
       DbtModelAnalyzer.case_depth].
  rewrite Hchar, (track_case_no_keyword kd cd Hcase Hend).
  rewrite (bool_decide_eq_false_2 (upper _ = _)) by done.
  rewrite (bool_decide_eq_false_2 (upper _ = _)) by done.
  assert (Hpieces : Forall (fun piece : list ascii => piece <> []) (curd ++ [[c]])).
  { apply Forall_app. split; [done|]. by apply Forall_singleton. }
  assert (Hcat : concat (curd ++ [[c]]) = concat curd ++ [c]).
  { rewrite concat_app. simpl. done. }
  destruct (decide (c = "("%char)) as [->|Hopen].
  { simpl. unfold Spec.same_state; simpl.
    rewrite bool_decide_eq_true_2 in Hstep by done.
    repeat split; try done; try lia. }
  rewrite (bool_decide_eq_false_2 (c = "("%char)) in * by done.
  destruct (decide (c = ")"%char)) as [->|Hclose].
  { simpl. unfold Spec.same_state; simpl.
    rewrite bool_decide_eq_true_2 in Hstep by done.
    repeat split; try done; try lia. }
  rewrite (bool_decide_eq_false_2 (c = ")"%char)) in * by done.
  destruct (decide (c = ","%char)) as [->|Hcomma].
  - rewrite !bool_decide_eq_true_2 by done. simpl.
    destruct (cd =? 0)%Z, (Spec.paren_balance (take kd text) =? 0)%Z;
      unfold Spec.same_state; simpl; repeat split; try done; try lia.
  - rewrite !bool_decide_eq_false_2 by done. simpl.
    unfold Spec.same_state; simpl. repeat split; try done; try lia.
Qed.

(** *** The loop of [_split_by_comma] *)

Lemma dbt_unroll fuel s :
  DbtModelAnalyzer.i s < length text ->
  DbtModelAnalyzer.split_loop (S fuel) text s
  = DbtModelAnalyzer.split_loop fuel text (DbtModelAnalyzer.split_step text s).
Proof. intros Hlt. simpl. by rewrite (proj2 (Nat.ltb_lt _ _) Hlt). Qed.

Lemma dbt_done fuel s :
  length text <= DbtModelAnalyzer.i s -> DbtModelAnalyzer.split_loop fuel text s = s.
Proof.
  intros Hge. destruct fuel; simpl; [done|].
  by rewrite (proj2 (Nat.ltb_ge _ _) Hge).
Qed.

(** The two loops, started in the same state with enough fuel to reach
    the end of the text, end in the same state. *)
Lemma splitters_sim n : forall se sd fe fd,
  Spec.same_state text se sd ->
  length text - DbtModelAnalyzer.i sd <= n ->
  length text - DbtModelAnalyzer.i sd <= fe ->
  length text - DbtModelAnalyzer.i sd <= fd ->
  Spec.same_state text (Enhanced.split_loop fe text se)
                       (DbtModelAnalyzer.split_loop fd text sd).
Proof.
  induction n as [|n IH]; intros se sd fe fd Hsame Hn Hfe Hfd.
  - pose proof Hsame as (Hi & _).
    rewrite enhanced_done, dbt_done by lia. done.
  - pose proof Hsame as (Hi & Hle & _).
    destruct (decide (DbtModelAnalyzer.i sd < length text)) as [Hlt|Hge];
      [|rewrite enhanced_done, dbt_done by lia; done].
    destruct fd as [|fd]; [lia|]. rewrite dbt_unroll by done.
    destruct (decide (upper (slice text (DbtModelAnalyzer.i sd)
                               (DbtModelAnalyzer.i sd + 4)) = "CASE")) as [Hcase|Hcase].
    { destruct (sim_case se sd Hsame Hcase) as (se' & Hloop & Hsame' & Hi').
      pose proof Hsame' as (Hi'' & Hle' & _).
      replace fe with (4 + (fe - 4)) by lia. rewrite Hloop.
      apply IH; [done|lia..]. }
    destruct (decide (upper (slice text (DbtModelAnalyzer.i sd)
                               (DbtModelAnalyzer.i sd + 3)) = "END")) as [Hend|Hend].
    { destruct (sim_end se sd Hsame Hcase Hend) as (se' & Hloop & Hsame' & Hi').
      pose proof Hsame' as (Hi'' & Hle' & _).
      replace fe with (3 + (fe - 3)) by lia. rewrite Hloop.
      apply IH; [done|lia..]. }
    destruct (sim_char se sd Hsame Hlt Hcase Hend) as (Hsame' & Hi').
    destruct fe as [|fe]; [lia|]. rewrite enhanced_unroll by lia.
    apply IH; [done|lia..].
Qed.

Lemma split_final_same :
  Spec.same_state text (Enhanced.split_final text) (DbtModelAnalyzer.split_final text).
Proof.
  apply (splitters_sim (length text)); simpl; try lia.
  unfold Spec.same_state; simpl. repeat split; try done; lia.
Qed.

End TwoSplitters.




(** ** The matcher: what a result of [exec] says about the text *)

Lemma elem_of_rev {A} (x : A) (l : list A) : x ∈ rev l <-> x ∈ l.
Proof. rewrite !list_elem_of_In. symmetry. apply in_rev. Qed.

Section ExecFacts.

Variable f : Re.flags.
Variable text : list ascii.

Lemma run_take (cs : Re.cset) (s : list ascii) j :
  j <= Re.run f cs s ->
  Forall (fun c => Re.cset_match f cs c = true) (take j s) /\ j <= length s.
Proof.
  revert j. induction s as [|c s IH]; intros j Hj; simpl in *.
  - assert (j = 0) as -> by lia. by split.
  - destruct j as [|j]; [split; [done|lia]|].
    destruct (Re.cset_match f cs c) eqn:Hc; [|lia].
    destruct (IH j ltac:(lia)) as [Hall Hlen]. split; [|lia].
    simpl. by constructor.
Qed.

Lemma run_prefix (cs : Re.cset) (w rest : list ascii) :
  Forall (fun c => Re.cset_match f cs c = true) w ->
  length w <= Re.run f cs (w ++ rest).
Proof.
  induction 1 as [|c w Hc Hw IH]; simpl; [lia|]. rewrite Hc. lia.
Qed.

(** A step over one character. *)
Lemma exec_One_elem cs st st' :
  st' ∈ Re.exec f text (Re.One cs) st <->
  exists c, text !! Re.pos st = Some c /\ Re.cset_match f cs c = true
            /\ st' = Re.advance 1 st.
Proof.
  simpl. destruct (text !! Re.pos st) as [c|] eqn:Hc.
  - destruct (Re.cset_match f cs c) eqn:Hm.
    + rewrite list_elem_of_singleton. split; [intros ->; by exists c|].
      by intros (c' & _ & _ & ->).
    + split; [by intros ?%elem_of_nil|]. intros (c' & [= <-] & Hm' & _). congruence.
  - split; [by intros ?%elem_of_nil|]. by intros (c' & ? & _).
Qed.

(** A repetition takes some number of characters of the class, at least
    [min] and at most the whole run. *)
Lemma exec_Rep_elem greedy min cs st st' :
  st' ∈ Re.exec f text (Re.Rep greedy min cs) st <->
  exists j, min <= j <= Re.run f cs (drop (Re.pos st) text)
            /\ st' = Re.advance j st.
Proof.
  simpl. destruct (Nat.ltb_spec (Re.run f cs (drop (Re.pos st) text)) min) as [Hlt|Hge].
  - split; [by intros ?%elem_of_nil|]. intros (j & Hj & _). lia.
  - rewrite list_elem_of_fmap. split.
    + intros (j & -> & Hj). exists j. split; [|done].
      assert (Hin : j ∈ seq min (Re.run f cs (drop (Re.pos st) text) - min + 1)).
      { destruct greedy; [by apply elem_of_rev|done]. }
      apply elem_of_seq in Hin. lia.
    + intros (j & Hj & ->). exists j. split; [done|].
      assert (Hin : j ∈ seq min (Re.run f cs (drop (Re.pos st) text) - min + 1))
        by (apply elem_of_seq; lia).
      destruct greedy; [by apply elem_of_rev|done].
Qed.

Lemma exec_Seq_elem r1 r2 st st' :
  st' ∈ Re.exec f text (Re.Seq r1 r2) st <->
  exists st1, st1 ∈ Re.exec f text r1 st /\ st' ∈ Re.exec f text r2 st1.
Proof.
  simpl. rewrite list_elem_of_bind. split; intros (st1 & H1 & H2); by exists st1.
Qed.

Lemma exec_Group_elem n r st st' :
  st' ∈ Re.exec f text (Re.Group n r) st <->
  exists st1, st1 ∈ Re.exec f text r st /\ st' = Re.set_group n (Re.pos st) st1.
Proof.
  simpl. rewrite list_elem_of_fmap. split; intros (st1 & H1 & H2); by exists st1.
Qed.

Lemma exec_Eos_elem st st' :
  st' ∈ Re.exec f text Re.Eos st <->
  st' = st
  /\ (Re.pos st = length text
      \/ (Re.pos st + 1 = length text /\ text !! Re.pos st = Some Re.newline)).
Proof.
  simpl. destruct (Nat.eqb_spec (Re.pos st) (length text)) as [Heq|Hne]; simpl.
  - rewrite list_elem_of_singleton. split; [intros ->; split; [done|by left]|by intros [-> _]].
  - destruct (Nat.eqb_spec (Re.pos st + 1) (length text)) as [Heq1|Hne1]; simpl.
    + case_bool_decide as Hnl.
      * rewrite list_elem_of_singleton.
        split; [intros ->; split; [done|by right]|by intros [-> _]].
      * split; [by intros ?%elem_of_nil|]. intros [_ [?|[_ ?]]]; done.
    + split; [by intros ?%elem_of_nil|]. intros [_ [?|[? _]]]; done.
Qed.

End ExecFacts.

Section ExecSuffix.

Variable f : Re.flags.
Variable text : list ascii.

Lemma drop_cons_inv (n : nat) (c : ascii) (rest : list ascii) :
  drop n text = c :: rest -> text !! n = Some c /\ drop (n + 1) text = rest.
Proof.
  intros H. assert (Hc : text !! n = Some c).
  { rewrite <- (Nat.add_0_r n), <- lookup_drop, H. done. }
  split; [done|]. rewrite (drop_S _ _ _ Hc) in H. rewrite Nat.add_1_r. congruence.
Qed.

(** In terms of the text that is left at a position: one character. *)
Lemma exec_One_inv cs st st' :
  st' ∈ Re.exec f text (Re.One cs) st ->
  exists c, drop (Re.pos st) text = c :: drop (Re.pos st') text
            /\ Re.cset_match f cs c = true /\ st' = Re.advance 1 st.
Proof.
  intros (c & Hc & Hm & ->)%exec_One_elem. exists c. repeat split; try done.
  simpl. rewrite Nat.add_1_r. by apply drop_S.
Qed.

Lemma exec_One_intro cs st c rest :
  drop (Re.pos st) text = c :: rest -> Re.cset_match f cs c = true ->
  Re.advance 1 st ∈ Re.exec f text (Re.One cs) st
  /\ drop (Re.pos (Re.advance 1 st)) text = rest.
Proof.
  intros [Hc Hrest]%drop_cons_inv Hm. split; [|done].
  apply exec_One_elem. by exists c.
Qed.

(** A repetition. *)
Lemma exec_Rep_inv greedy min cs st st' :
  st' ∈ Re.exec f text (Re.Rep greedy min cs) st ->
  exists w, drop (Re.pos st) text = w ++ drop (Re.pos st') text
            /\ Forall (fun c => Re.cset_match f cs c = true) w
            /\ min <= length w /\ st' = Re.advance (length w) st.
Proof.
  intros (j & Hj & ->)%exec_Rep_elem.
  destruct (run_take f cs _ j (proj2 Hj)) as [Hall Hlen].
  exists (take j (drop (Re.pos st) text)).
  rewrite length_take_le by done. repeat split; try done; [|lia].
  simpl. by rewrite <- drop_drop, take_drop.
Qed.

Lemma exec_Rep_intro greedy min cs st w rest :
  drop (Re.pos st) text = w ++ rest ->
  Forall (fun c => Re.cset_match f cs c = true) w -> min <= length w ->
  Re.advance (length w) st ∈ Re.exec f text (Re.Rep greedy min cs) st
  /\ drop (Re.pos (Re.advance (length w) st)) text = rest.
Proof.
  intros Hdrop Hall Hmin. split.
  - apply exec_Rep_elem. exists (length w). split; [|done].
    split; [done|]. rewrite Hdrop. by apply run_prefix.
  - simpl. by rewrite <- drop_drop, Hdrop, drop_app_length.
Qed.

Lemma exec_Eos_inv st st' :
  st' ∈ Re.exec f text Re.Eos st ->
  st' = st /\ (drop (Re.pos st) text = [] \/ drop (Re.pos st) text = [Re.newline]).
Proof.
  intros [-> [Hend|[Hlen Hnl]]]%exec_Eos_elem; (split; [done|]).
  - left. apply drop_ge. lia.
  - right. rewrite (drop_S _ _ _ Hnl). f_equal. apply drop_ge. lia.
Qed.

Lemma exec_Eos_intro st :
  drop (Re.pos st) text = [] -> Re.pos st <= length text ->
  st ∈ Re.exec f text Re.Eos st.
Proof.
  intros Hdrop Hle. apply exec_Eos_elem. split; [done|]. left.
  apply (f_equal length) in Hdrop. rewrite length_drop in Hdrop. simpl in Hdrop. lia.
Qed.

End ExecSuffix.

(** ** Word characters, whitespace, and runs of them *)

Lemma isword_not_space (c : ascii) : Re.isword c = true -> isspace c = false.
Proof.
  assert (H := ascii_all (fun c => negb (Re.isword c) || negb (isspace c))).
  specialize (H ltac:(vm_compute; reflexivity) c). simpl in H.
  intros Hw. rewrite Hw in H. simpl in H. by apply negb_true_iff.
Qed.

Lemma letter_not_space (c l : ascii) :
  lower_char c = l -> between 97 122 (code l) = true -> isspace c = false.
Proof.
  intros Hl Hb. apply isword_not_space. unfold Re.isword.
  destruct (lower_char_letter c l Hl Hb) as (_ & -> & _). done.
Qed.

(** A non-empty list ends with one of its elements. *)
Lemma last_of_nonempty {A} (P : A -> Prop) (l : list A) :
  l <> [] -> Forall P l -> exists l0 c, l = l0 ++ [c] /\ P c.
Proof.
  intros Hne Hall. destruct l as [|c l0 _] using rev_ind; [done|].
  apply Forall_app in Hall as [_ Hc]. apply Forall_inv in Hc.
  by exists l0, c.
Qed.

(** Two ways of cutting a text into a part that ends outside a class and
    a run inside the class are the same way. *)
Lemma span_eq_r (P : ascii -> bool) (a a' b b' : list ascii) :
  b ++ a = b' ++ a' ->
  Forall (fun c => P c = true) a -> Forall (fun c => P c = true) a' ->
  (exists b0 c, b = b0 ++ [c] /\ P c = false) ->
  (exists b0 c, b' = b0 ++ [c] /\ P c = false) ->
  a = a' /\ b = b'.
Proof.
  revert a'. induction a as [|y a IH] using rev_ind; intros a' Heq Ha Ha' Hb Hb'.
  - destruct a' as [|x a' _] using rev_ind; [by rewrite !app_nil_r in Heq|].
    exfalso. destruct Hb as (b0 & c & -> & Hc).
    rewrite app_nil_r, app_assoc in Heq. apply app_inj_tail in Heq as [_ ->].
    apply Forall_app in Ha' as [_ Hx]. apply Forall_inv in Hx. congruence.
  - destruct a' as [|x a' _] using rev_ind.
    + exfalso. destruct Hb' as (b0 & c & -> & Hc).
      rewrite app_nil_r, app_assoc in Heq. apply app_inj_tail in Heq as [_ ->].
      apply Forall_app in Ha as [_ Hy]. apply Forall_inv in Hy. congruence.
    + rewrite !app_assoc in Heq. apply app_inj_tail in Heq as [Heq ->].
      apply Forall_app in Ha as [Ha _]. apply Forall_app in Ha' as [Ha' _].
      destruct (IH a' Heq Ha Ha' Hb Hb') as [-> ->]. done.
Qed.

(** A run inside the class at the end of a text cannot reach back over a
    character outside the class. *)
Lemma span_length_r (P : ascii -> bool) (a a' b b' : list ascii) :
  b ++ a = b' ++ a' ->
  Forall (fun c => P c = true) a' ->
  (exists b0 c, b = b0 ++ [c] /\ P c = false) ->
  length b <= length b'.
Proof.
  intros Heq Ha' (b0 & c & -> & Hc).
  destruct (Nat.le_gt_cases (length (b0 ++ [c])) (length b')) as [|Hlt]; [done|].
  exfalso.
  assert (Hin : c ∈ a').
  { apply (f_equal (drop (length b'))) in Heq.
    rewrite drop_app_length in Heq. rewrite <- Heq.
    rewrite drop_app_le by lia. apply elem_of_app. left.
    rewrite length_app in Hlt. simpl in Hlt.
    rewrite drop_app_le by lia. apply elem_of_app. right.
    by apply list_elem_of_singleton. }
  rewrite Forall_forall in Ha'. specialize (Ha' c Hin). congruence.
Qed.

(** ** The alias pattern *)
Section AsTail.

Variable text : list ascii.

(** Every match of [\s+as\s+(\w+)\s*$] from a position reads whitespace,
    the keyword, whitespace, the identifier captured as group 2, and
    whitespace up to the end of the text. *)
Lemma as_tail_inv st st' :
  st' ∈ Re.exec Re.DOTALL_IGNORECASE text Enhanced.as_tail st ->
  exists w1 k1 k2 w2 id w3 tl,
    drop (Re.pos st) text = w1 ++ k1 :: k2 :: w2 ++ id ++ w3 ++ tl
    /\ (tl = [] \/ tl = [Re.newline])
    /\ Forall (fun c => isspace c = true) w1 /\ w1 <> []
    /\ lower_char k1 = "a"%char /\ lower_char k2 = "s"%char
    /\ Forall (fun c => isspace c = true) w2 /\ w2 <> []
    /\ Forall (fun c => Re.isword c = true) id /\ id <> []
    /\ Forall (fun c => isspace c = true) w3
    /\ Re.groups st'
       = (2, (Re.pos st + length w1 + 2 + length w2,
              Re.pos st + length w1 + 2 + length w2 + length id)) :: Re.groups st.
Proof.
  unfold Enhanced.as_tail.
  intros (s1 & H1 & H)%exec_Seq_elem.
  apply exec_Seq_elem in H as (s2 & H2 & H).
  apply exec_Seq_elem in H2 as (sa & Ha & Hs).
  apply exec_Seq_elem in H as (s3 & H3 & H).
  apply exec_Seq_elem in H as (s4 & H4 & H).
  apply exec_Group_elem in H4 as (s4' & H4 & ->).
  apply exec_Seq_elem in H as (s5 & H5 & H6).
  apply exec_Rep_inv in H1 as (w1 & D1 & F1 & L1 & ->).
  apply exec_One_inv in Ha as (k1 & Da & Ma & ->).
  apply exec_One_inv in Hs as (k2 & Ds & Ms & ->).
  apply exec_Rep_inv in H3 as (w2 & D3 & F3 & L3 & ->).
  apply exec_Rep_inv in H4 as (id & D4 & F4 & L4 & ->).
  apply exec_Rep_inv in H5 as (w3 & D5 & F5 & L5 & ->).
  apply exec_Eos_inv in H6 as [-> H6].
  exists w1, k1, k2, w2, id, w3, (drop (Re.pos (Re.advance (length w3)
    (Re.set_group 2 (Re.pos (Re.advance (length w2) (Re.advance 1 (Re.advance 1
      (Re.advance (length w1) st)))))
      (Re.advance (length id) (Re.advance (length w2) (Re.advance 1 (Re.advance 1
      (Re.advance (length w1) st)))))))) text).
  simpl in *.
  repeat split; try done.
  - rewrite D1, Da, Ds, D3, D4, D5. done.
  - intros ->. simpl in L1. lia.
  - by apply bool_decide_eq_true in Ma.
  - by apply bool_decide_eq_true in Ms.
  - intros ->. simpl in L3. lia.
  - intros ->. simpl in L4. lia.
  - do 3 f_equal; lia.
Qed.

(** Conversely, from a position where the rest of the text has this
    shape, the pattern matches. *)
Lemma as_tail_intro st w1 k1 k2 w2 id :
  drop (Re.pos st) text = w1 ++ k1 :: k2 :: w2 ++ id ->
  Forall (fun c => isspace c = true) w1 -> w1 <> [] ->
  lower_char k1 = "a"%char -> lower_char k2 = "s"%char ->
  Forall (fun c => isspace c = true) w2 -> w2 <> [] ->
  Forall (fun c => Re.isword c = true) id -> id <> [] ->
  exists st', st' ∈ Re.exec Re.DOTALL_IGNORECASE text Enhanced.as_tail st.
Proof.
  intros Hdrop F1 N1 Ha Hs F2 N2 F3 N3.
  assert (Hlen : Re.pos st + length (w1 ++ k1 :: k2 :: w2 ++ id) = length text).
  { apply (f_equal length) in Hdrop as Hl. rewrite length_drop in Hl.
    rewrite <- Hl. rewrite length_app in Hl. destruct w1; [done|]. simpl in Hl. lia. }
  destruct (exec_Rep_intro Re.DOTALL_IGNORECASE text true 1 Re.Space st w1 _ Hdrop F1)
    as [E1 D1]; [destruct w1; [done|simpl; lia]|].
  destruct (exec_One_intro Re.DOTALL_IGNORECASE text (Re.Chr "a") _ k1 _ D1)
    as [Ea Da]; [by apply bool_decide_eq_true_2|].
  destruct (exec_One_intro Re.DOTALL_IGNORECASE text (Re.Chr "s") _ k2 _ Da)
    as [Es Ds]; [by apply bool_decide_eq_true_2|].
  destruct (exec_Rep_intro Re.DOTALL_IGNORECASE text true 1 Re.Space _ w2 _ Ds F2)
    as [E2 D2]; [destruct w2; [done|simpl; lia]|].
  rewrite <- (app_nil_r id) in D2.
  destruct (exec_Rep_intro Re.DOTALL_IGNORECASE text true 1 Re.Word _ id _ D2 F3)
    as [E3 D3]; [destruct id; [done|simpl; lia]|].
  set (s4 := Re.set_group 2
               (Re.pos (Re.advance (length w2) (Re.advance 1 (Re.advance 1
                          (Re.advance (length w1) st)))))
               (Re.advance (length id) (Re.advance (length w2) (Re.advance 1
                  (Re.advance 1 (Re.advance (length w1) st)))))).
  assert (D4 : drop (Re.pos s4) text = [] ++ []) by done.
  destruct (exec_Rep_intro Re.DOTALL_IGNORECASE text true 0 Re.Space s4 [] _ D4)
    as [E5 D5]; [done|simpl; lia|].
  exists (Re.advance (length (@nil ascii)) s4).
  unfold Enhanced.as_tail.
  apply exec_Seq_elem. eexists. split; [exact E1|].
  apply exec_Seq_elem. eexists. split.
  { apply exec_Seq_elem. eexists. split; [exact Ea|exact Es]. }
  apply exec_Seq_elem. eexists. split; [exact E2|].
  apply exec_Seq_elem. exists s4. split.
  { apply exec_Group_elem. eexists. split; [exact E3|done]. }
  apply exec_Seq_elem. eexists. split; [exact E5|].
  apply exec_Eos_intro; [done|].
  simpl. rewrite !length_app in Hlen. simpl in Hlen. rewrite length_app in Hlen. lia.
Qed.

End AsTail.

Lemma ends_outside_app (P : ascii -> bool) (x l : list ascii) :
  (exists l0 c, l = l0 ++ [c] /\ P c = false) ->
  exists l0 c, x ++ l = l0 ++ [c] /\ P c = false.
Proof. intros (l0 & c & -> & Hc). exists (x ++ l0), c. by rewrite app_assoc. Qed.

Lemma ends_outside_run (P Q : ascii -> bool) (l : list ascii) :
  (forall c, Q c = true -> P c = false) ->
  l <> [] -> Forall (fun c => Q c = true) l ->
  exists l0 c, l = l0 ++ [c] /\ P c = false.
Proof.
  intros HQP Hne Hall.
  destruct (last_of_nonempty _ l Hne Hall) as (l0 & c & -> & Hc).
  exists l0, c. split; [done|]. by apply HQP.
Qed.

Lemma space_not_word (c : ascii) : isspace c = true -> Re.isword c = false.
Proof.
  intros Hs. destruct (Re.isword c) eqn:Hw; [|done].
  apply isword_not_space in Hw. congruence.
Qed.

(** The text [core W1 a1 a2 ws2 ident] can be read as "something,
    whitespace, AS, whitespace, identifier, whitespace" in one way only,
    up to where the first whitespace starts. *)
Lemma as_shape_unique (core W1 ws2 ident : list ascii) (a1 a2 : ascii)
    (k : nat) (w1 w2 id w3 tl : list ascii) (k1 k2 : ascii) :
  (exists c0 x, core = c0 ++ [x] /\ isspace x = false) ->
  lower_char a2 = "s"%char ->
  Forall (fun c => isspace c = true) ws2 -> ws2 <> [] ->
  Forall (fun c => Re.isword c = true) ident -> ident <> [] ->
  (tl = [] \/ tl = [Re.newline]) ->
  Forall (fun c => isspace c = true) w1 -> w1 <> [] ->
  lower_char k2 = "s"%char ->
  Forall (fun c => isspace c = true) w2 -> w2 <> [] ->
  Forall (fun c => Re.isword c = true) id -> id <> [] ->
  Forall (fun c => isspace c = true) w3 ->
  drop k (core ++ W1 ++ a1 :: a2 :: ws2 ++ ident)
  = w1 ++ k1 :: k2 :: w2 ++ id ++ w3 ++ tl ->
  length core <= k /\ k + length w1 = length core + length W1
  /\ w2 = ws2 /\ id = ident.
Proof.
  intros Hcore Ha2 Fws2 Nws2 Fident Nident Htl Fw1 Nw1 Hk2 Fw2 Nw2 Fid Nid Fw3 Hdrop.
  set (S := core ++ W1 ++ a1 :: a2 :: ws2 ++ ident) in *.
  assert (Hk : k <= length S).
  { destruct (Nat.le_gt_cases k (length S)) as [|Hgt]; [done|].
    rewrite drop_ge in Hdrop by lia. by destruct w1. }
  pose proof (take_drop k S) as Heq. rewrite Hdrop in Heq.
  (* the trailing whitespace *)
  assert (HA : ((core ++ W1 ++ [a1; a2] ++ ws2) ++ ident) ++ []
               = ((take k S ++ w1 ++ [k1; k2] ++ w2) ++ id) ++ (w3 ++ tl)).
  { rewrite app_nil_r. transitivity S; [subst S; by rewrite <- !app_assoc|].
    rewrite <- Heq at 1. by rewrite <- !app_assoc. }
  apply (span_eq_r isspace) in HA as [HA1 HA]; [| done | | |].
  2: { apply Forall_app. split; [done|].
       destruct Htl as [->| ->]; [done|]. by apply Forall_singleton. }
  2: { apply ends_outside_app.
       apply (ends_outside_run isspace Re.isword); [apply isword_not_space|done..]. }
  2: { apply ends_outside_app.
       apply (ends_outside_run isspace Re.isword); [apply isword_not_space|done..]. }
  (* the identifier *)
  apply (span_eq_r Re.isword) in HA as [HA2 HA]; [| done | done | |].
  2: { rewrite !app_assoc. apply ends_outside_app.
       apply (ends_outside_run Re.isword isspace); [apply space_not_word|done..]. }
  2: { rewrite !app_assoc. apply ends_outside_app.
       apply (ends_outside_run Re.isword isspace); [apply space_not_word|done..]. }
  (* the whitespace before it *)
  rewrite !app_assoc in HA.
  apply (span_eq_r isspace) in HA as [HA3 HA]; [| done | done | |].
  2: { rewrite <- !app_assoc. do 2 apply ends_outside_app. exists [a1], a2.
       split; [done|]. by eapply letter_not_space. }
  2: { rewrite <- !app_assoc. do 2 apply ends_outside_app. exists [k1], k2.
       split; [done|]. by eapply letter_not_space. }
  (* the keyword *)
  change [a1; a2] with ([a1] ++ [a2]) in HA.
  change [k1; k2] with ([k1] ++ [k2]) in HA.
  rewrite !app_assoc in HA.
  apply app_inj_tail in HA as [HA _]. apply app_inj_tail in HA as [HA _].
  (* the whitespace before the keyword *)
  pose proof (span_length_r isspace _ _ _ _ HA Fw1 Hcore) as Hlen.
  rewrite length_take_le in Hlen by done.
  apply (f_equal length) in HA. rewrite !length_app, length_take_le in HA by done.
  repeat split; [done|lia|done..].
Qed.

Lemma run_dotall (s : list ascii) : Re.run Re.DOTALL_IGNORECASE Re.Dot s = length s.
Proof. induction s as [|c s IH]; simpl; [done|]. by rewrite IH. Qed.

(** The matches of the whole pattern from the start of the text: group 1
    is tried at every length, shortest first. *)
Lemma exec_as_pattern (text : list ascii) :
  Re.exec Re.DOTALL_IGNORECASE text Enhanced.as_pattern (Re.MState 0 [])
  = map (fun k => Re.MState k [(1, (0, k))]) (seq 0 (length text + 1))
    ≫= Re.exec Re.DOTALL_IGNORECASE text Enhanced.as_tail.
Proof.
  unfold Enhanced.as_pattern.
  change (Re.exec Re.DOTALL_IGNORECASE text
            (Re.Bos ⋅ Re.Group 1 (Re.lazy_star Re.Dot) ⋅ Enhanced.as_tail)%re
            (Re.MState 0 []))
    with ([Re.MState 0 []]
          ≫= fun st =>
               map (Re.set_group 1 (Re.pos st))
                   (map (fun k => Re.advance k st)
                        (seq 0 (Re.run Re.DOTALL_IGNORECASE Re.Dot
                                  (drop (Re.pos st) text) - 0 + 1)))
               ≫= Re.exec Re.DOTALL_IGNORECASE text Enhanced.as_tail).
  simpl. rewrite app_nil_r, run_dotall, Nat.sub_0_r, map_map. done.
Qed.

Lemma head_bind_skip {A B} (g : A -> list B) (l1 l2 : list A) (x : A) (z : B) (zs : list B) :
  (forall y, y ∈ l1 -> g y = []) -> g x = z :: zs ->
  head ((l1 ++ x :: l2) ≫= g) = Some z.
Proof.
  intros Hskip Hx. induction l1 as [|y l1 IH]; simpl.
  - by rewrite Hx.
  - rewrite (Hskip y) by left. simpl. apply IH. intros y' Hy'. apply Hskip. by right.
Qed.

Lemma bind_skip {A B} (g : A -> list B) (l1 l2 : list A) (x : A) :
  (forall y, y ∈ l1 -> g y = []) ->
  (l1 ++ x :: l2) ≫= g = g x ++ (l2 ≫= g).
Proof.
  intros Hskip. induction l1 as [|y l1 IH]; simpl; [done|].
  rewrite (Hskip y) by left. simpl. apply IH. intros y' Hy'. apply Hskip. by right.
Qed.

(** [re.search] with the alias pattern on a text of the AS form: group 1
    is the text before the whitespace in front of AS, group 2 is the
    identifier. *)
Lemma as_search (core W1 ws2 ident : list ascii) (a1 a2 : ascii) :
  (exists c0 x, core = c0 ++ [x] /\ isspace x = false) ->
  Forall (fun c => isspace c = true) W1 -> W1 <> [] ->
  lower_char a1 = "a"%char -> lower_char a2 = "s"%char ->
  Forall (fun c => isspace c = true) ws2 -> ws2 <> [] ->
  Forall (fun c => Re.isword c = true) ident -> ident <> [] ->
  exists mt,
    Re.search Re.DOTALL_IGNORECASE Enhanced.as_pattern
      (core ++ W1 ++ a1 :: a2 :: ws2 ++ ident) = Some mt
    /\ Re.group' (core ++ W1 ++ a1 :: a2 :: ws2 ++ ident) mt 1 = core
    /\ Re.group' (core ++ W1 ++ a1 :: a2 :: ws2 ++ ident) mt 2 = ident.
Proof.
  intros Hcore FW1 NW1 Ha1 Ha2 Fws2 Nws2 Fident Nident.
  set (S := core ++ W1 ++ a1 :: a2 :: ws2 ++ ident).
  assert (Hlen : length core <= length S) by (subst S; rewrite length_app; lia).
  assert (Hm : exists mt,
             Re.match_at Re.DOTALL_IGNORECASE Enhanced.as_pattern S 0 = Some mt
             /\ Re.group' S mt 1 = core /\ Re.group' S mt 2 = ident).
  { unfold Re.match_at. rewrite exec_as_pattern.
    replace (length S + 1)
      with (length core + Datatypes.S (length S - length core)) by lia.
    rewrite seq_app, map_app. simpl seq. rewrite map_cons.
    rewrite bind_skip.
    2: { intros y (k & -> & Hk%elem_of_seq)%list_elem_of_fmap.
         apply elem_of_nil_inv. intros st' Hst'.
         apply as_tail_inv in Hst'
           as (w1 & k1 & k2 & w2 & id & w3 & tl & Hdrop & Htl & Fw1 & Nw1 & Hk1 & Hk2
               & Fw2 & Nw2 & Fid & Nid & Fw3 & _).
         simpl in Hdrop.
         destruct (as_shape_unique core W1 ws2 ident a1 a2 k w1 w2 id w3 tl k1 k2)
           as [Hle _]; try done.
         lia. }
    destruct (as_tail_intro S (Re.MState (length core) [(1, (0, length core))])
                W1 a1 a2 ws2 ident) as [z0 Hz0]; try done.
    { simpl. subst S. by rewrite drop_app_length. }
    destruct (Re.exec Re.DOTALL_IGNORECASE S Enhanced.as_tail
                (Re.MState (length core) [(1, (0, length core))]))
      as [|z zs] eqn:Hexec; [by apply elem_of_nil in Hz0|].
    assert (Hz : z ∈ Re.exec Re.DOTALL_IGNORECASE S Enhanced.as_tail
                       (Re.MState (length core) [(1, (0, length core))]))
      by (rewrite Hexec; left).
    apply as_tail_inv in Hz
      as (w1 & k1 & k2 & w2 & id & w3 & tl & Hdrop & Htl & Fw1 & Nw1 & Hk1 & Hk2
          & Fw2 & Nw2 & Fid & Nid & Fw3 & Hgroups).
    simpl in Hdrop, Hgroups.
    destruct (as_shape_unique core W1 ws2 ident a1 a2 (length core)
                w1 w2 id w3 tl k1 k2) as (_ & Hw1 & -> & ->); try done.
    simpl. eexists. split; [done|].
    unfold Re.group', Re.group. simpl. rewrite Hgroups. simpl.
    unfold slice. split.
    - rewrite Nat.sub_0_r. change (drop 0 S) with S. subst S.
      apply take_app_length.
    - replace (length core + length w1 + 2 + length ws2)
        with (length (core ++ W1 ++ [a1; a2] ++ ws2))
        by (rewrite !length_app; simpl; lia).
      replace (length (core ++ W1 ++ [a1; a2] ++ ws2) + length ident
               - length (core ++ W1 ++ [a1; a2] ++ ws2)) with (length ident) by lia.
      subst S.
      replace (core ++ W1 ++ a1 :: a2 :: ws2 ++ ident)
        with ((core ++ W1 ++ [a1; a2] ++ ws2) ++ ident)
        by (by rewrite <- !app_assoc).
      rewrite drop_app_length. by apply take_ge. }
  destruct Hm as (mt & Hmt & Hg).
  exists mt. split; [|done].
  unfold Re.search, Re.search_from.
  replace (length S + 1 - 0) with (Datatypes.S (length S)) by lia.
  simpl seq. cbn [Re.search_starts]. by rewrite Hmt.
Qed.

(** ** Trimming *)

Lemma lstrip_app_space (lead s : list ascii) :
  Forall (fun c => isspace c = true) lead -> lstrip (lead ++ s) = lstrip s.
Proof. induction 1 as [|c lead Hc _ IH]; simpl; [done|]. by rewrite Hc. Qed.

Lemma lstrip_decomp (s : list ascii) :
  exists lead, s = lead ++ lstrip s /\ Forall (fun c => isspace c = true) lead
               /\ (lstrip s = [] \/ exists c r, lstrip s = c :: r /\ isspace c = false).
Proof.
  induction s as [|c s (lead & Hs & Hlead & Hhead)]; simpl.
  - exists []. repeat split; [done|by left].
  - destruct (isspace c) eqn:Hc.
    + exists (c :: lead). repeat split; [by rewrite Hs at 1|by constructor|done].
    + exists []. repeat split; [done|]. right. by exists c, s.
Qed.

(** A text between two runs of whitespace that itself starts and ends
    with other characters is what [strip] leaves. *)
Lemma strip_sandwich (lead mid trail : list ascii) :
  Forall (fun c => isspace c = true) lead ->
  Forall (fun c => isspace c = true) trail ->
  (exists c r, mid = c :: r /\ isspace c = false) ->
  (exists r x, mid = r ++ [x] /\ isspace x = false) ->
  strip (lead ++ mid ++ trail) = mid.
Proof.
  intros Hlead Htrail (c & r & Hmid & Hc) (r' & x & Hmid' & Hx).
  unfold strip, rstrip. rewrite lstrip_app_space by done.
  assert (Hl : lstrip (mid ++ trail) = mid ++ trail).
  { rewrite Hmid. simpl. by rewrite Hc. }
  rewrite Hl, rev_app_distr, lstrip_app_space by by apply Forall_rev.
  rewrite Hmid', rev_app_distr. simpl. rewrite Hx.
  change (x :: rev r') with ([x] ++ rev r'). rewrite rev_app_distr, rev_involutive.
  done.
Qed.

Lemma strip_decomp (s : list ascii) :
  Spec.has_nonspace s = true ->
  exists lead trail,
    s = lead ++ strip s ++ trail
    /\ Forall (fun c => isspace c = true) lead
    /\ Forall (fun c => isspace c = true) trail
    /\ (exists c r, strip s = c :: r /\ isspace c = false)
    /\ (exists r x, strip s = r ++ [x] /\ isspace x = false).
Proof.
  intros Hs.
  destruct (lstrip_decomp s) as (lead & Hlead & Flead & Hhead).
  destruct Hhead as [Hnil|(c & r & HL & Hc)].
  { rewrite <- truthy_lstrip, Hnil in Hs. done. }
  destruct (lstrip_decomp (rev (lstrip s))) as (t & Ht & Ft & Hhead').
  destruct Hhead' as [Hnil|(x & r' & HR & Hx)].
  { pose proof (truthy_lstrip (rev (lstrip s))) as H.
    rewrite Hnil, has_nonspace_rev, has_nonspace_lstrip, Hs in H. done. }
  assert (Hstrip : strip s = rev r' ++ [x]).
  { unfold strip, rstrip. rewrite HR. done. }
  assert (HLs : lstrip s = strip s ++ rev t).
  { rewrite <- (rev_involutive (lstrip s)), Ht, rev_app_distr.
    unfold strip, rstrip. done. }
  exists lead, (rev t). repeat split.
  - by rewrite <- HLs.
  - done.
  - by apply Forall_rev.
  - rewrite Hstrip in HLs |- *. rewrite HL in HLs.
    destruct (rev r') as [|c' r'']; simpl in *.
    + injection HLs as <- _. by exists c, [].
    + injection HLs as <- _. by exists c, (r'' ++ [x]).
  - by exists (rev r'), x.
Qed.

Lemma forallb_Forall_true (P : ascii -> bool) (s : list ascii) :
  forallb P s = true -> Forall (fun c => P c = true) s.
Proof. intros H. apply Forall_forall. intros c Hc%list_elem_of_In. revert c Hc. by apply forallb_forall. Qed.

Lemma truthy_nonempty (s : list ascii) : truthy s = true -> s <> [].
Proof. by destruct s. Qed.

(** ** The alias of a column *)




(** ** Enough fuel *)

(** The loop of [_split_by_comma] also leaves through its guard: the
    fuel it is given reaches the end of the text. *)
Lemma dbt_split_step_i (text : list ascii) s :
  DbtModelAnalyzer.i s < length text ->
  DbtModelAnalyzer.i s < DbtModelAnalyzer.i (DbtModelAnalyzer.split_step text s).
Proof.
  intros Hlt. unfold DbtModelAnalyzer.split_step.
  destruct (lookup_lt_is_Some_2 text _ Hlt) as [c ->].
  repeat case_match; simpl; lia.
Qed.

Lemma dbt_split_loop_exit (text : list ascii) fuel s :
  length text <= DbtModelAnalyzer.i s + fuel ->
  length text <= DbtModelAnalyzer.i (DbtModelAnalyzer.split_loop fuel text s).
Proof.
  revert s. induction fuel as [|fuel IH]; intros s Hfuel; simpl; [lia|].
  destruct (Nat.ltb_spec (DbtModelAnalyzer.i s) (length text)) as [Hlt|Hge]; [|done].
  apply IH. pose proof (dbt_split_step_i text s Hlt). lia.
Qed.

Lemma dbt_split_final_i (text : list ascii) :
  length text <= DbtModelAnalyzer.i (DbtModelAnalyzer.split_final text).
Proof. apply dbt_split_loop_exit. simpl. lia. Qed.

(** A match never ends before it starts, and [re.search] from a position
    finds nothing before that position or after the end of the text. *)
Lemma exec_pos_le (f : Re.flags) (text : list ascii) (r : Re.regex) :
  forall st st', st' ∈ Re.exec f text r st -> Re.pos st <= Re.pos st'.
Proof.
  induction r as [|cs|greedy min cs|r IH|r1 IH1 r2 IH2|n r IH| | |]; intros st st' H.
  - apply list_elem_of_singleton in H as ->. done.
  - apply exec_One_elem in H as (c & _ & _ & ->). simpl. lia.
  - apply exec_Rep_elem in H as (j & _ & ->). simpl. lia.
  - simpl in H. apply elem_of_app in H as [H|H]; [by apply IH|].
    apply list_elem_of_singleton in H as ->. done.
  - apply exec_Seq_elem in H as (st1 & H1 & H2).
    etransitivity; [by apply IH1|by apply IH2].
  - apply exec_Group_elem in H as (st1 & H1 & ->). simpl. by apply IH.
  - simpl in H. case_match; [|by apply elem_of_nil in H].
    apply list_elem_of_singleton in H as ->. done.
  - apply exec_Eos_elem in H as [-> _]. done.
  - simpl in H. case_match; [|by apply elem_of_nil in H].
    apply list_elem_of_singleton in H as ->. done.
Qed.

Lemma search_starts_bounds (f : Re.flags) (r : Re.regex) (text : list ascii)
    (starts : list nat) mt :
  Re.search_starts f r text starts = Some mt ->
  Re.m_start mt ∈ starts /\ Re.m_start mt <= Re.m_end mt.
Proof.
  induction starts as [|p starts IH]; simpl; [done|].
  unfold Re.match_at.
  destruct (Re.exec f text r (Re.MState p [])) as [|st sts] eqn:Hexec.
  - intros [Hin Hle]%IH. split; [by right|done].
  - intros [= <-]. simpl. split; [by left|].
    apply (exec_pos_le f text r (Re.MState p []) st). rewrite Hexec. by left.
Qed.

(** [finditer] has the fuel to reach the end of the text: more fuel
    gives no further match. *)
Lemma finditer_enough_fuel (f : Re.flags) (r : Re.regex) (text : list ascii) fuel p :
  length text + 1 <= p + fuel ->
  Re.finditer_from (S fuel) f r text p = Re.finditer_from fuel f r text p.
Proof.
  revert p. induction fuel as [|fuel IH]; intros p Hfuel.
  - simpl. unfold Re.search_from.
    replace (length text + 1 - p) with 0 by lia. done.
  - change (Re.finditer_from (S (S fuel)) f r text p)
      with (match Re.search_from f r text p with
            | None => []
            | Some mt =>
                mt :: Re.finditer_from (S fuel) f r text
                        (if Re.m_end mt =? Re.m_start mt then Re.m_end mt + 1
                         else Re.m_end mt)
            end).
    change (Re.finditer_from (S fuel) f r text p)
      with (match Re.search_from f r text p with
            | None => []
            | Some mt =>
                mt :: Re.finditer_from fuel f r text
                        (if Re.m_end mt =? Re.m_start mt then Re.m_end mt + 1
                         else Re.m_end mt)
            end).
    destruct (Re.search_from f r text p) as [mt|] eqn:Hsearch; [|done].
    apply search_starts_bounds in Hsearch as [Hin%elem_of_seq Hle].
    f_equal. apply IH.
    destruct (Nat.eqb_spec (Re.m_end mt) (Re.m_start mt)); lia.
Qed.

(** * Further properties *)

(** ** What the splitters keep of the text *)


(** The only text [split_by_comma_respecting_case] does not give back is
    a final segment without a non-whitespace character: joined with
    commas, the expressions and that segment are the input. *)
Theorem split_loses_only_blank_tail (text : list ascii) :
  join "," (Enhanced.split_by_comma_respecting_case text
            ++ (if Spec.has_nonspace (Spec.final_segment text) then []
                else [Spec.final_segment text]))
  = text.
Proof.
  unfold Enhanced.split_by_comma_respecting_case.
  rewrite truthy_strip_has_nonspace, split_final_current.
  pose proof (split_final_join text) as Hjoin. simpl in Hjoin.
  rewrite split_final_current in Hjoin.
  destruct (Spec.has_nonspace (Spec.final_segment text)); [by rewrite app_nil_r|done].
Qed.

(** *** The loop of [_split_by_comma] *)

Lemma upper_case_length (s : list ascii) : upper s = "CASE" -> length s = 4.
Proof.
  intros H%upper_case_lower. apply (f_equal length) in H.
  unfold lower in H. by rewrite length_map in H.
Qed.

Lemma upper_end_length (s : list ascii) : upper s = "END" -> length s = 3.
Proof.
  intros H%upper_end_lower. apply (f_equal length) in H.
  unfold lower in H. by rewrite length_map in H.
Qed.

Lemma dbt_split_loop_ind (text : list ascii) (P : DbtModelAnalyzer.split_state -> Prop)
    fuel s :
  (forall s, DbtModelAnalyzer.i s < length text -> P s ->
             P (DbtModelAnalyzer.split_step text s)) ->
  P s -> P (DbtModelAnalyzer.split_loop fuel text s).
Proof.
  intros Hstep. revert s.
  induction fuel as [|fuel IH]; intros s Hs; simpl; [done|].
  case_match; [|done]. apply IH, Hstep; [|done]. by apply Nat.ltb_lt.
Qed.

Lemma slice_length_le (text : list ascii) k n :
  length (slice text k (k + n)) = n -> 0 < n -> k + n <= length text.
Proof. unfold slice. rewrite length_take, length_drop. lia. Qed.

Lemma take_slice (text : list ascii) k n :
  take (k + n) text = take k text ++ slice text k (k + n).
Proof.
  unfold slice. replace (k + n - k) with n by lia. by rewrite take_take_drop.
Qed.

(** One step of [_split_by_comma] keeps the position inside the text,
    the CASE counter at zero or above, and the text read so far equal
    to the finished parts and the current one joined with commas. *)
Lemma dbt_split_step_inv (text : list ascii) s :
  DbtModelAnalyzer.i s < length text ->
  (DbtModelAnalyzer.i s <= length text
   /\ (0 <= DbtModelAnalyzer.case_depth s)%Z
   /\ join "," (DbtModelAnalyzer.parts s ++ [concat (DbtModelAnalyzer.current s)])
      = take (DbtModelAnalyzer.i s) text) ->
  let s' := DbtModelAnalyzer.split_step text s in
  DbtModelAnalyzer.i s' <= length text
  /\ (0 <= DbtModelAnalyzer.case_depth s')%Z
  /\ join "," (DbtModelAnalyzer.parts s' ++ [concat (DbtModelAnalyzer.current s')])
     = take (DbtModelAnalyzer.i s') text.
Proof.
  intros Hlt (Hle & Hcase & Hjoin). unfold DbtModelAnalyzer.split_step.
  destruct (lookup_lt_is_Some_2 text _ Hlt) as [c Hc]. rewrite Hc.
  unfold str_eqb.
  case_bool_decide as H4.
  { cbn [DbtModelAnalyzer.i DbtModelAnalyzer.parts DbtModelAnalyzer.current
         DbtModelAnalyzer.case_depth].
    split; [apply slice_length_le; [by apply upper_case_length|lia]|].
    split; [lia|].
    by rewrite concat_app, join_snoc_app, Hjoin, take_slice, concat_cons, app_nil_r. }
  case_bool_decide as H3.
  { cbn [DbtModelAnalyzer.i DbtModelAnalyzer.parts DbtModelAnalyzer.current
         DbtModelAnalyzer.case_depth].
    split; [apply slice_length_le; [by apply upper_end_length|lia]|].
    split; [lia|].
    by rewrite concat_app, join_snoc_app, Hjoin, take_slice, concat_cons, app_nil_r. }
  assert (Hone : join "," (DbtModelAnalyzer.parts s
                           ++ [concat (DbtModelAnalyzer.current s ++ [[c]])])
                 = take (DbtModelAnalyzer.i s + 1) text).
  { rewrite concat_app, join_snoc_app, Hjoin. simpl.
    by rewrite Nat.add_1_r, (take_S_r _ _ _ Hc). }
  repeat case_match;
    cbn [DbtModelAnalyzer.i DbtModelAnalyzer.parts DbtModelAnalyzer.current
         DbtModelAnalyzer.case_depth];
    (split; [lia|]); (split; [lia|]); try exact Hone.
  (* a top-level comma *)
  match goal with H : _ && _ && _ = true |- _ =>
    apply andb_prop in H as [H _]; apply andb_prop in H as [H _];
    apply bool_decide_eq_true in H; subst c end.
  rewrite join_snoc.
  destruct (DbtModelAnalyzer.parts s ++ [concat (DbtModelAnalyzer.current s)]) eqn:E;
    [by destruct (DbtModelAnalyzer.parts s)|].
  by rewrite Hjoin, Nat.add_1_r, (take_S_r _ _ _ Hc).
Qed.

Lemma dbt_split_final_inv (text : list ascii) :
  let s := DbtModelAnalyzer.split_final text in
  DbtModelAnalyzer.i s = length text
  /\ join "," (DbtModelAnalyzer.parts s ++ [concat (DbtModelAnalyzer.current s)]) = text.
Proof.
  cbv zeta.
  assert (H : DbtModelAnalyzer.i (DbtModelAnalyzer.split_final text) <= length text
              /\ (0 <= DbtModelAnalyzer.case_depth (DbtModelAnalyzer.split_final text))%Z
              /\ join "," (DbtModelAnalyzer.parts (DbtModelAnalyzer.split_final text)
                           ++ [concat (DbtModelAnalyzer.current
                                         (DbtModelAnalyzer.split_final text))])
                 = take (DbtModelAnalyzer.i (DbtModelAnalyzer.split_final text)) text).
  { unfold DbtModelAnalyzer.split_final.
    apply (dbt_split_loop_ind text
             (fun s => DbtModelAnalyzer.i s <= length text
                       /\ (0 <= DbtModelAnalyzer.case_depth s)%Z
                       /\ join "," (DbtModelAnalyzer.parts s
                                    ++ [concat (DbtModelAnalyzer.current s)])
                          = take (DbtModelAnalyzer.i s) text)).
    - intros s Hlt Hs. by apply dbt_split_step_inv.
    - simpl. repeat split; lia. }
  destruct H as (Hle & _ & Hjoin).
  pose proof (dbt_split_final_i text) as Hge.
  split; [lia|]. rewrite Hjoin. apply take_ge. lia.
Qed.

(** At every point of a scan of [_split_by_comma] the CASE counter is
    zero or above (the parenthesis counter has no such bound). *)
Theorem dbt_case_depth_nonneg (text : list ascii) (fuel : nat) :
  (0 <= DbtModelAnalyzer.case_depth
          (DbtModelAnalyzer.split_loop fuel text DbtModelAnalyzer.split_init))%Z.
Proof.
  assert (H : DbtModelAnalyzer.i (DbtModelAnalyzer.split_loop fuel text DbtModelAnalyzer.split_init) <= length text
              /\ (0 <= DbtModelAnalyzer.case_depth (DbtModelAnalyzer.split_loop fuel text DbtModelAnalyzer.split_init))%Z
              /\ join "," (DbtModelAnalyzer.parts (DbtModelAnalyzer.split_loop fuel text DbtModelAnalyzer.split_init)
                           ++ [concat (DbtModelAnalyzer.current
                                         (DbtModelAnalyzer.split_loop fuel text DbtModelAnalyzer.split_init))])
                 = take (DbtModelAnalyzer.i (DbtModelAnalyzer.split_loop fuel text DbtModelAnalyzer.split_init)) text).
  { apply (dbt_split_loop_ind text
             (fun s => DbtModelAnalyzer.i s <= length text
                       /\ (0 <= DbtModelAnalyzer.case_depth s)%Z
                       /\ join "," (DbtModelAnalyzer.parts s
                                    ++ [concat (DbtModelAnalyzer.current s)])
                          = take (DbtModelAnalyzer.i s) text)).
    - intros s Hlt Hs. by apply dbt_split_step_inv.
    - simpl. repeat split; lia. }
  by destruct H as (_ & H & _).
Qed.

(** Joined with commas, the parts [_split_by_comma] returns are the
    input, or the input without its last character when that is a comma
    which ends a part. *)
Theorem dbt_split_join (text : list ascii) :
  join "," (DbtModelAnalyzer._split_by_comma text) = text
  \/ join "," (DbtModelAnalyzer._split_by_comma text) ++ "," = text.
Proof.
  destruct (dbt_split_final_inv text) as [_ Hjoin].
  unfold DbtModelAnalyzer._split_by_comma.
  destruct (DbtModelAnalyzer.current (DbtModelAnalyzer.split_final text)) as [|p ps].
  - rewrite join_snoc in Hjoin.
    destruct (DbtModelAnalyzer.parts (DbtModelAnalyzer.split_final text)); [by left|].
    right. exact Hjoin.
  - by left.
Qed.

(** ** The scan for the select and from lines *)

Lemma select_not_from (l : list ascii) :
  Spec.select_line l = true -> Spec.from_line l = false.
Proof.
  unfold Spec.select_line, Spec.from_line.
  destruct (lower (strip l)) as [|c s]; [done|]. simpl.
  repeat case_bool_decide; subst; done.
Qed.

Lemma scan_lines_spec (lines : list (list ascii)) : forall i select_start a b,
  Enhanced.scan_lines lines i select_start = (a, b) -> (0 <= b)%Z ->
  exists kb lb,
    b = Z.of_nat (i + kb) /\ lines !! kb = Some lb /\ Spec.from_line lb = true
    /\ ((a = select_start /\ (0 <= select_start)%Z
         /\ forall j l, j < kb -> lines !! j = Some l ->
                        Spec.select_line l = false /\ Spec.from_line l = false)
        \/ exists ka la,
             ka < kb /\ a = Z.of_nat (i + ka) /\ lines !! ka = Some la
             /\ Spec.select_line la = true
             /\ forall j l, ka < j < kb -> lines !! j = Some l ->
                            Spec.select_line l = false /\ Spec.from_line l = false).
Proof.
  induction lines as [|line lines IH]; intros i ss a b Hscan Hb.
  - simpl in Hscan. injection Hscan as <- <-. lia.
  - rewrite scan_lines_cons in Hscan.
    destruct (Spec.select_line line) eqn:Hsel.
    + destruct (IH _ _ _ _ Hscan Hb) as (kb & lb & -> & Hkb & Hfrom & Hcase).
      exists (S kb), lb. split; [f_equal; lia|]. split; [done|]. split; [done|].
      right. destruct Hcase as [(-> & _ & Hnone)|(ka & la & Hlt & -> & Hka & Hsela & Hnone)].
      * exists 0, line. split; [lia|]. split; [f_equal; lia|]. repeat split; try done.
        all: destruct j as [|j]; [lia|]; simpl in *; eapply Hnone; [|done]; lia.
      * exists (S ka), la. split; [lia|]. split; [f_equal; lia|]. repeat split; try done.
        all: destruct j as [|j]; [lia|]; simpl in *; eapply Hnone; [|done]; lia.
    + destruct ((0 <=? ss)%Z && Spec.from_line line) eqn:Hcond.
      * injection Hscan as <- <-. apply andb_prop in Hcond as [Hss%Z.leb_le Hfrom].
        exists 0, line. split; [f_equal; lia|]. split; [done|]. split; [done|].
        left. repeat split; try done; lia.
      * destruct (IH _ _ _ _ Hscan Hb) as (kb & lb & -> & Hkb & Hfrom & Hcase).
        exists (S kb), lb. split; [f_equal; lia|]. split; [done|]. split; [done|].
        destruct Hcase as [(-> & Hss & Hnone)|(ka & la & Hlt & -> & Hka & Hsela & Hnone)].
        -- left. split; [done|]. split; [done|]. intros j l Hj Hl.
           destruct j as [|j]; simpl in Hl.
           ++ injection Hl as <-. split; [done|].
              apply andb_false_iff in Hcond as [Hneg|]; [|done].
              apply Z.leb_gt in Hneg. lia.
           ++ eapply Hnone; [|done]. lia.
        -- right. exists (S ka), la. split; [lia|]. split; [f_equal; lia|].
           repeat split; try done.
           all: destruct j as [|j]; [lia|]; simpl in *; eapply Hnone; [|done]; lia.
Qed.

(** When the scan of [parse_final_select_enhanced] finds both lines, the
    two indices are positions of the list with the select line before
    the from line, and no line between them starts with [select] or
    [from]. *)
Theorem scan_lines_found (lines : list (list ascii)) (a b : Z) :
  Enhanced.scan_lines lines 0 (-1) = (a, b) -> (0 <= a)%Z -> (0 <= b)%Z ->
  exists ka kb la lb,
    a = Z.of_nat ka /\ b = Z.of_nat kb /\ ka < kb < length lines
    /\ lines !! ka = Some la /\ Spec.select_line la = true
    /\ lines !! kb = Some lb /\ Spec.from_line lb = true
    /\ forall j l, ka < j < kb -> lines !! j = Some l ->
                   Spec.select_line l = false /\ Spec.from_line l = false.
Proof.
  intros Hscan Ha Hb.
  destruct (scan_lines_spec lines 0 (-1) a b Hscan Hb)
    as (kb & lb & -> & Hkb & Hfrom & [(_ & Hneg & _)|(ka & la & Hlt & -> & Hka & Hsel & Hnone)]);
    [lia|].
  exists ka, kb, la, lb. simpl.
  split; [done|]. split; [done|].
  split; [split; [done|by eapply lookup_lt_Some]|].
  done.
Qed.

Lemma scan_lines_found_witness :
  Enhanced.scan_lines [ "select" : list ascii; " a.x as y," : list ascii;
                        " b as z" : list ascii; "from t" : list ascii ] 0 (-1)
  = (0%Z, 3%Z)
  /\ exists ka kb la lb,
       0%Z = Z.of_nat ka /\ 3%Z = Z.of_nat kb /\ ka < kb < 4
       /\ [ "select" : list ascii; " a.x as y," : list ascii;
            " b as z" : list ascii; "from t" : list ascii ] !! ka = Some la
       /\ Spec.select_line la = true
       /\ [ "select" : list ascii; " a.x as y," : list ascii;
            " b as z" : list ascii; "from t" : list ascii ] !! kb = Some lb
       /\ Spec.from_line lb = true
       /\ forall j l, ka < j < kb ->
            [ "select" : list ascii; " a.x as y," : list ascii;
              " b as z" : list ascii; "from t" : list ascii ] !! j = Some l ->
            Spec.select_line l = false /\ Spec.from_line l = false.
Proof.
  split; [reflexivity|].
  apply (scan_lines_found [ "select" : list ascii; " a.x as y," : list ascii;
                            " b as z" : list ascii; "from t" : list ascii ] 0 3);
    [reflexivity|lia|lia].
Defined.

Lemma scan_lines_from (lines : list (list ascii)) : forall i select_start,
  (0 <= select_start)%Z ->
  (exists k l, lines !! k = Some l /\ Spec.from_line l = true) ->
  (0 <= (Enhanced.scan_lines lines i select_start).1)%Z
  /\ (0 <= (Enhanced.scan_lines lines i select_start).2)%Z.
Proof.
  induction lines as [|line lines IH]; intros i ss Hss (k & l & Hk & Hfrom); [done|].
  rewrite scan_lines_cons.
  destruct (Spec.select_line line) eqn:Hsel.
  - apply IH; [lia|]. destruct k as [|k]; simpl in Hk.
    + injection Hk as ->. apply select_not_from in Hsel. congruence.
    + by exists k, l.
  - destruct ((0 <=? ss)%Z && Spec.from_line line) eqn:Hcond; [simpl; lia|].
    apply IH; [done|]. destruct k as [|k]; simpl in Hk.
    + injection Hk as ->. rewrite Hfrom, andb_true_r in Hcond.
      apply Z.leb_gt in Hcond. lia.
    + by exists k, l.
Qed.

Lemma scan_lines_pair (lines : list (list ascii)) : forall i select_start,
  Spec.has_select_from lines ->
  (0 <= (Enhanced.scan_lines lines i select_start).1)%Z
  /\ (0 <= (Enhanced.scan_lines lines i select_start).2)%Z.
Proof.
  induction lines as [|line lines IH];
    intros i ss (k1 & k2 & l1 & l2 & Hlt & H1 & H2 & Hsel & Hfrom); [done|].
  rewrite scan_lines_cons.
  destruct k2 as [|k2]; [lia|]. simpl in H2.
  destruct (Spec.select_line line) eqn:Hline.
  - apply scan_lines_from; [lia|]. by exists k2, l2.
  - destruct ((0 <=? ss)%Z && Spec.from_line line) eqn:Hcond.
    + apply andb_prop in Hcond as [Hss%Z.leb_le _]. simpl. lia.
    + apply IH. destruct k1 as [|k1]; simpl in H1; [congruence|].
      exists k1, k2, l1, l2. repeat split; try done. lia.
Qed.

(** The scan finds both lines exactly when some line that starts with
    [select] is followed, later, by a line that starts with [from]. *)
Theorem scan_lines_found_iff (lines : list (list ascii)) :
  ((0 <= (Enhanced.scan_lines lines 0 (-1)).1)%Z
   /\ (0 <= (Enhanced.scan_lines lines 0 (-1)).2)%Z)
  <-> Spec.has_select_from lines.
Proof.
  split; [|apply scan_lines_pair].
  intros [Ha Hb].
  destruct (Enhanced.scan_lines lines 0 (-1)) as [a b] eqn:Hscan.
  simpl in Ha, Hb.
  destruct (scan_lines_spec lines 0 (-1) a b Hscan Hb)
    as (kb & lb & -> & Hkb & Hfrom & [(-> & Hneg & _)|(ka & la & Hlt & -> & Hka & Hsel & _)]);
    [lia|].
  by exists ka, kb, la, lb.
Qed.

(** ** Where the result of a search comes from *)

Lemma match_at_Some (f : Re.flags) (r : Re.regex) (text : list ascii) p mt :
  Re.match_at f r text p = Some mt ->
  exists st, st ∈ Re.exec f text r (Re.MState p [])
             /\ mt = Re.RMatch p (Re.pos st) (Re.groups st).
Proof.
  unfold Re.match_at.
  destruct (Re.exec f text r (Re.MState p [])) as [|st sts]; [done|].
  intros [= <-]. exists st. split; [left|done].
Qed.

Lemma match_at_is_Some (f : Re.flags) (r : Re.regex) (text : list ascii) p st :
  st ∈ Re.exec f text r (Re.MState p []) -> is_Some (Re.match_at f r text p).
Proof.
  unfold Re.match_at. intros Hst.
  destruct (Re.exec f text r (Re.MState p [])) as [|st' sts]; [by apply elem_of_nil in Hst|].
  done.
Qed.

Lemma search_starts_Some (f : Re.flags) (r : Re.regex) (text : list ascii)
    (starts : list nat) mt :
  Re.search_starts f r text starts = Some mt ->
  exists p st, p ∈ starts /\ st ∈ Re.exec f text r (Re.MState p [])
               /\ mt = Re.RMatch p (Re.pos st) (Re.groups st).
Proof.
  induction starts as [|p starts IH]; simpl; [done|].
  destruct (Re.match_at f r text p) as [mt'|] eqn:Hm.
  - intros [= <-]. apply match_at_Some in Hm as (st & Hst & ->).
    exists p, st. split; [left|done].
  - intros (p' & st & Hp & Hst)%IH. exists p', st. split; [by right|done].
Qed.

(** Every match [re.search] or [re.finditer] reports is a result of the
    matcher from some start position. *)
Lemma search_Some (f : Re.flags) (r : Re.regex) (text : list ascii) mt :
  Re.search f r text = Some mt ->
  exists p st, st ∈ Re.exec f text r (Re.MState p [])
               /\ mt = Re.RMatch p (Re.pos st) (Re.groups st).
Proof.
  unfold Re.search, Re.search_from.
  intros (p & st & _ & H)%search_starts_Some. by exists p, st.
Qed.

Lemma finditer_from_elem (f : Re.flags) (r : Re.regex) (text : list ascii) fuel :
  forall p0 mt, mt ∈ Re.finditer_from fuel f r text p0 ->
  exists p st, st ∈ Re.exec f text r (Re.MState p [])
               /\ mt = Re.RMatch p (Re.pos st) (Re.groups st).
Proof.
  induction fuel as [|fuel IH]; intros p0 mt Hmt; simpl in Hmt;
    [by apply elem_of_nil in Hmt|].
  destruct (Re.search_from f r text p0) as [mt'|] eqn:Hs;
    [|by apply elem_of_nil in Hmt].
  apply elem_of_cons in Hmt as [->|Hmt]; [|by eapply IH].
  unfold Re.search_from in Hs.
  apply search_starts_Some in Hs as (p & st & _ & H). by exists p, st.
Qed.

Lemma finditer_elem (f : Re.flags) (r : Re.regex) (text : list ascii) mt :
  mt ∈ Re.finditer f r text ->
  exists p st, st ∈ Re.exec f text r (Re.MState p [])
               /\ mt = Re.RMatch p (Re.pos st) (Re.groups st).
Proof. apply finditer_from_elem. Qed.

(** ** What the alias pattern captures *)

(** A text matched by the alias pattern is group 1, whitespace, AS,
    whitespace, group 2, whitespace; group 2 is one or more word
    characters. *)
Lemma as_pattern_match (text : list ascii) mt :
  Re.search Re.DOTALL_IGNORECASE Enhanced.as_pattern text = Some mt ->
  exists w1 k1 k2 w2 w3 tl,
    text = Re.group' text mt 1 ++ w1 ++ k1 :: k2 :: w2 ++ Re.group' text mt 2 ++ w3 ++ tl
    /\ (tl = [] \/ tl = [Re.newline])
    /\ Forall (fun c => isspace c = true) w1 /\ w1 <> []
    /\ lower_char k1 = "a"%char /\ lower_char k2 = "s"%char
    /\ Forall (fun c => isspace c = true) w2 /\ w2 <> []
    /\ Forall (fun c => Re.isword c = true) (Re.group' text mt 2)
    /\ Re.group' text mt 2 <> []
    /\ Forall (fun c => isspace c = true) w3.
Proof.
  intros (p & st & Hst & ->)%search_Some.
  unfold Enhanced.as_pattern in Hst.
  apply exec_Seq_elem in Hst as (s0 & H0 & Hst).
  apply exec_Seq_elem in Hst as (s1 & H1 & Hst).
  simpl in H0. destruct (Nat.eqb_spec p 0) as [->|]; [|by apply elem_of_nil in H0].
  apply list_elem_of_singleton in H0 as ->.
  apply exec_Group_elem in H1 as (s1' & H1 & ->).
  apply exec_Rep_inv in H1 as (g1 & D1 & _ & _ & ->).
  apply as_tail_inv in Hst
    as (w1 & k1 & k2 & w2 & id & w3 & tl & Hdrop & Htl & Fw1 & Nw1 & Hk1 & Hk2
        & Fw2 & Nw2 & Fid & Nid & Fw3 & Hgroups).
  simpl in D1, Hdrop, Hgroups.
  assert (Hg1 : Re.group' text (Re.RMatch 0 (Re.pos st) (Re.groups st)) 1 = g1).
  { unfold Re.group', Re.group. simpl. rewrite Hgroups. simpl.
    unfold slice. rewrite Nat.sub_0_r. simpl. rewrite D1. apply take_app_length. }
  assert (Hg2 : Re.group' text (Re.RMatch 0 (Re.pos st) (Re.groups st)) 2 = id).
  { unfold Re.group', Re.group. simpl. rewrite Hgroups. simpl. unfold slice.
    replace (length g1 + length w1 + 2 + length w2 + length id
             - (length g1 + length w1 + 2 + length w2)) with (length id) by lia.
    replace (length g1 + length w1 + 2 + length w2)
      with (length g1 + length (w1 ++ k1 :: k2 :: w2))
      by (rewrite length_app; simpl; lia).
    rewrite <- drop_drop, Hdrop.
    replace (w1 ++ k1 :: k2 :: w2 ++ id ++ w3 ++ tl)
      with ((w1 ++ k1 :: k2 :: w2) ++ id ++ w3 ++ tl)
      by (rewrite <- app_assoc; done).
    rewrite drop_app_length. apply take_app_length. }
  rewrite Hg1, Hg2. exists w1, k1, k2, w2, w3, tl.
  split; [by rewrite <- Hdrop, <- D1|]. done.
Qed.

(** ** The keys and the stored expressions of [parse_select_columns] *)

Lemma upper_app (a b : list ascii) : upper (a ++ b) = upper a ++ upper b.
Proof. unfold upper. by rewrite map_app, concat_app. Qed.

(** Upper-casing twice is upper-casing once. *)
Lemma upper_upper (s : list ascii) : upper (upper s) = upper s.
Proof.
  assert (Hc := ascii_all (fun c => bool_decide (upper (upper_char c) = upper_char c))).
  specialize (Hc ltac:(vm_compute; reflexivity)).
  induction s as [|c s IH]; [done|].
  rewrite upper_cons, upper_app, IH.
  specialize (Hc c). apply bool_decide_eq_true in Hc. by rewrite Hc.
Qed.

Lemma identifier_spec (w : list ascii) :
  Spec.identifier w = true <-> w <> [] /\ Forall (fun c => Re.isword c = true) w.
Proof.
  unfold Spec.identifier. rewrite andb_true_iff. split.
  - intros [Hne%truthy_nonempty Hall%forallb_Forall_true]. done.
  - intros [Hne Hall]. split; [by destruct w|].
    apply forallb_forall. intros c Hc%list_elem_of_In.
    rewrite Forall_forall in Hall. by apply Hall.
Qed.

Lemma identifier_strip (w : list ascii) : Spec.identifier w = true -> strip w = w.
Proof.
  intros [Hne Hall]%identifier_spec.
  rewrite <- (app_nil_r w) at 1. apply (strip_sandwich []); try done.
  - destruct w as [|c r]; [done|]. exists c, r. split; [done|].
    apply isword_not_space. by apply Forall_inv in Hall.
  - by apply (ends_outside_run isspace Re.isword); [apply isword_not_space|..].
Qed.

(** The pieces [str.split()] returns are not empty and hold no
    whitespace. *)
Lemma split_ws_aux_words (s cur : list ascii) :
  Forall (fun c => isspace c = false) cur ->
  Forall (fun w => w <> [] /\ Forall (fun c => isspace c = false) w)
         (split_ws_aux cur s).
Proof.
  revert cur. induction s as [|c s IH]; intros cur Hcur; simpl.
  - destruct cur; simpl; [constructor|]. constructor; [done|constructor].
  - destruct (isspace c) eqn:Hc.
    + destruct cur; simpl; [by apply IH|].
      constructor; [done|]. by apply IH.
    + apply IH. apply Forall_app. split; [done|]. by apply Forall_singleton.
Qed.

Lemma split_ws_aux_nonempty (s cur : list ascii) :
  cur <> [] \/ Spec.has_nonspace s = true -> split_ws_aux cur s <> [].
Proof.
  revert cur. induction s as [|c s IH]; intros cur H; simpl.
  - destruct H as [H|H]; [|done]. by destruct cur.
  - destruct (isspace c) eqn:Hc.
    + destruct cur; simpl; [|done]. apply IH. right.
      destruct H as [H|H]; [done|]. simpl in H. by rewrite Hc in H.
    + apply IH. left. by destruct cur.
Qed.

Lemma join_nonempty (sep : list ascii) (words : list (list ascii)) :
  words <> [] -> Forall (fun w => w <> []) words -> join sep words <> [].
Proof.
  intros Hne Hall. destruct words as [|w words]; [done|].
  apply Forall_cons in Hall as [Hw _].
  destruct words; simpl; [done|]. by destruct w.
Qed.

(** What the loop body stores for an expression: the key is the
    identifier after AS, upper-cased; the expression is the trimmed,
    whitespace-collapsed text before AS, which is not blank. *)
Lemma parse_column_expr_shape (expr k : list ascii) c :
  Enhanced.parse_column_expr expr = Some (k, c) ->
  exists before ident,
    Spec.identifier ident = true /\ k = upper ident
    /\ Spec.has_nonspace before = true
    /\ c = Spec.column_of (Enhanced.normalize_ws (strip before)).
Proof.
  unfold Enhanced.parse_column_expr. intros H.
  destruct (truthy (strip expr)) eqn:Htruthy; [|done]. simpl in H.
  destruct (Re.search _ _ _) as [mt|] eqn:Hsearch; [|done].
  injection H as <- <-.
  destruct (as_pattern_match _ _ Hsearch)
    as (w1 & k1 & k2 & w2 & w3 & tl & Htext & _ & Fw1 & Nw1 & _ & _ & _ & _ & Fid & Nid & _).
  set (g1 := Re.group' (strip expr) mt 1) in *.
  set (g2 := Re.group' (strip expr) mt 2) in *.
  assert (Hid : Spec.identifier g2 = true) by by apply identifier_spec.
  exists g1, g2. split; [done|]. split; [by rewrite identifier_strip|].
  split; [|done].
  (* the text starts with a character that is not whitespace *)
  rewrite truthy_strip_has_nonspace in Htruthy.
  destruct (strip_decomp expr Htruthy) as (_ & _ & _ & _ & _ & (c & r & Hhead & Hc) & _).
  rewrite Hhead in Htext. destruct g1 as [|c' g1'].
  - exfalso. destruct w1 as [|x w1]; [done|]. simpl in Htext. injection Htext as -> _.
    apply Forall_inv in Fw1. congruence.
  - simpl in Htext. injection Htext as <- _. simpl. by rewrite Hc.
Qed.

Lemma foldl_add_column_keys (P : list ascii -> Enhanced.column -> Prop)
    (exprs : list (list ascii)) (m : gmap (list ascii) Enhanced.column) :
  (forall expr k c, Enhanced.parse_column_expr expr = Some (k, c) -> P k c) ->
  map_Forall P m ->
  map_Forall P (foldl Enhanced.add_column m exprs).
Proof.
  intros Hparse. revert m.
  induction exprs as [|expr exprs IH]; intros m Hm; simpl; [done|].
  apply IH. unfold Enhanced.add_column.
  destruct (Enhanced.parse_column_expr expr) as [[k c]|] eqn:E; [|done].
  apply map_Forall_insert_2; [|done]. by eapply Hparse.
Qed.



(** The expression stored for a column is never empty, and it is a
    sequence of words separated by single spaces: no whitespace at its
    ends, no other whitespace character, no two spaces in a row. *)
Theorem stored_expression_normalized (select_clause col_name : list ascii) c :
  Enhanced.parse_select_columns select_clause !! col_name = Some c ->
  Enhanced.expression c <> []
  /\ exists words,
       Enhanced.expression c = join " " words
       /\ Forall (fun w => w <> [] /\ Forall (fun ch => isspace ch = false) w) words.
Proof.
  intros Hc. unfold Enhanced.parse_select_columns in Hc.
  eapply (foldl_add_column_keys
            (fun _ c => Enhanced.expression c <> []
                        /\ exists words,
                             Enhanced.expression c = join " " words
                             /\ Forall (fun w => w <> []
                                                 /\ Forall (fun ch => isspace ch = false) w)
                                       words))
    in Hc; [done| |apply map_Forall_empty].
  intros expr k c' (before & ident & _ & _ & Hbefore & ->)%parse_column_expr_shape.
  simpl. unfold Enhanced.normalize_ws, split_ws.
  pose proof (split_ws_aux_words (strip before) [] ltac:(done)) as Hwords.
  split; [|by eexists].
  apply join_nonempty.
  - apply split_ws_aux_nonempty. right.
    destruct (strip_decomp before Hbefore) as (_ & _ & _ & _ & _ & (x & r & -> & Hx) & _).
    simpl. by rewrite Hx.
  - eapply Forall_impl; [exact Hwords|]. by intros w [Hw _].
Qed.

Lemma stored_expression_normalized_witness :
  Enhanced.parse_select_columns "coalesce(a.x,
     b.y)   as  amount" !! ("AMOUNT" : list ascii)
  = Some (Enhanced.Column "coalesce(a.x, b.y)" "a.x" false)
  /\ ("coalesce(a.x, b.y)" : list ascii) <> []
  /\ exists words,
       ("coalesce(a.x, b.y)" : list ascii) = join " " words
       /\ Forall (fun w => w <> [] /\ Forall (fun ch => isspace ch = false) w) words.
Proof.
  split; [vm_compute; reflexivity|].
  apply (stored_expression_normalized "coalesce(a.x,
     b.y)   as  amount" "AMOUNT" (Enhanced.Column "coalesce(a.x, b.y)" "a.x" false)).
  vm_compute. reflexivity.
Defined.

(** ** The source column and the classification R3 / R3+ *)

(** A match of the pattern for a qualified reference: two identifiers
    with a dot between them, somewhere in the text. *)
Lemma qualified_match (text : list ascii) mt :
  Re.search Re.no_flags Enhanced.qualified_pattern text = Some mt ->
  exists before after,
    text = before ++ Re.group' text mt 1 ++ "." ++ Re.group' text mt 2 ++ after
    /\ Spec.identifier (Re.group' text mt 1) = true
    /\ Spec.identifier (Re.group' text mt 2) = true.
Proof.
  intros (p & st & Hst & ->)%search_Some.
  unfold Enhanced.qualified_pattern in Hst.
  apply exec_Seq_elem in Hst as (s1 & H1 & Hst).
  apply exec_Seq_elem in Hst as (s2 & H2 & H3).
  apply exec_Group_elem in H1 as (s1' & H1 & ->).
  apply exec_Rep_inv in H1 as (w1 & D1 & F1 & L1 & ->).
  apply exec_One_inv in H2 as (d & D2 & Hd & ->).
  apply exec_Group_elem in H3 as (s3' & H3 & ->).
  apply exec_Rep_inv in H3 as (w2 & D3 & F3 & L3 & ->).
  simpl in D1, D2, D3, Hd. apply bool_decide_eq_true in Hd as ->.
  assert (Hg1 : Re.group' text
                  (Re.RMatch p (Re.pos (Re.set_group 2 (p + length w1 + 1)
                     (Re.advance (length w2) (Re.advance 1
                        (Re.set_group 1 p (Re.advance (length w1) (Re.MState p [])))))))
                     (Re.groups (Re.set_group 2 (p + length w1 + 1)
                     (Re.advance (length w2) (Re.advance 1
                        (Re.set_group 1 p (Re.advance (length w1) (Re.MState p [])))))))) 1
                = w1).
  { unfold Re.group', Re.group. simpl. unfold slice.
    replace (p + length w1 - p) with (length w1) by lia.
    rewrite D1. apply take_app_length. }
  assert (Hg2 : Re.group' text
                  (Re.RMatch p (Re.pos (Re.set_group 2 (p + length w1 + 1)
                     (Re.advance (length w2) (Re.advance 1
                        (Re.set_group 1 p (Re.advance (length w1) (Re.MState p [])))))))
                     (Re.groups (Re.set_group 2 (p + length w1 + 1)
                     (Re.advance (length w2) (Re.advance 1
                        (Re.set_group 1 p (Re.advance (length w1) (Re.MState p [])))))))) 2
                = w2).
  { unfold Re.group', Re.group. simpl. unfold slice.
    replace (p + length w1 + 1 + length w2 - (p + length w1 + 1)) with (length w2) by lia.
    rewrite D3. apply take_app_length. }
  simpl in Hg1, Hg2 |- *. rewrite Hg1, Hg2.
  exists (take p text), (drop (p + length w1 + 1 + length w2) text).
  split.
  - rewrite <- (take_drop p text) at 1. f_equal. rewrite D1, D2, D3. done.
  - split; apply identifier_spec; (split; [|done]); intros ->; simpl in *; lia.
Qed.

(** [extract_source_column] returns the empty string or a part of the
    expression that is an identifier, a dot and an identifier. *)
Theorem source_column_shape (expression : list ascii) :
  Enhanced.extract_source_column expression = []
  \/ exists before qualifier col after,
       expression = before ++ qualifier ++ "." ++ col ++ after
       /\ Spec.identifier qualifier = true /\ Spec.identifier col = true
       /\ Enhanced.extract_source_column expression = qualifier ++ "." ++ col.
Proof.
  unfold Enhanced.extract_source_column.
  destruct (Re.search _ _ _) as [mt|] eqn:Hsearch; [|by left].
  right. destruct (qualified_match _ _ Hsearch) as (before & after & Htext & H1 & H2).
  by exists before, (Re.group' expression mt 1), (Re.group' expression mt 2), after.
Qed.

(** *** A qualified identifier alone *)

Lemma run_exact (f : Re.flags) (cs : Re.cset) (w rest : list ascii) :
  Forall (fun c => Re.cset_match f cs c = true) w ->
  match rest with [] => True | c :: _ => Re.cset_match f cs c = false end ->
  Re.run f cs (w ++ rest) = length w.
Proof.
  intros Hw Hrest. induction Hw as [|c w Hc Hw IH]; simpl.
  - destruct rest as [|c rest]; [done|]. simpl. by rewrite Hrest.
  - by rewrite Hc, IH.
Qed.

Lemma rev_seq_head (n : nat) : rev (seq 1 (S n)) = S n :: rev (seq 1 n).
Proof. rewrite seq_S, rev_app_distr. done. Qed.

(** A greedy repetition tries the whole run first. *)
Lemma exec_Rep_greedy_head (f : Re.flags) (text : list ascii) min cs st n :
  Re.run f cs (drop (Re.pos st) text) = S n -> min <= S n ->
  exists others,
    Re.exec f text (Re.Rep true min cs) st = Re.advance (S n) st :: others.
Proof.
  intros Hrun Hmin. simpl. rewrite Hrun.
  destruct (Nat.ltb_spec (S n) min) as [|_]; [lia|].
  destruct min as [|min].
  - replace (S n - 0 + 1) with (S (S n)) by lia.
    change (seq 0 (S (S n))) with (0 :: seq 1 (S n)).
    change (rev (0 :: seq 1 (S n))) with (rev (seq 1 (S n)) ++ [0]).
    rewrite rev_seq_head. simpl. by eexists.
  - replace (S n - S min + 1) with (S (n - min)) by lia.
    rewrite seq_S, rev_app_distr. simpl.
    replace (S (min + (n - min))) with (S n) by lia. by eexists.
Qed.

Lemma exec_Seq_head (f : Re.flags) (text : list ascii) r1 r2 st s1 o1 s2 o2 :
  Re.exec f text r1 st = s1 :: o1 -> Re.exec f text r2 s1 = s2 :: o2 ->
  exists others, Re.exec f text (Re.Seq r1 r2) st = s2 :: others.
Proof. intros H1 H2. simpl. rewrite H1. simpl. rewrite H2. simpl. by eexists. Qed.

Lemma exec_Group_head (f : Re.flags) (text : list ascii) n r st s1 o1 :
  Re.exec f text r st = s1 :: o1 ->
  exists others,
    Re.exec f text (Re.Group n r) st = Re.set_group n (Re.pos st) s1 :: others.
Proof. intros H1. simpl. rewrite H1. simpl. by eexists. Qed.

Lemma exec_One_head (f : Re.flags) (text : list ascii) cs st c :
  text !! Re.pos st = Some c -> Re.cset_match f cs c = true ->
  Re.exec f text (Re.One cs) st = [Re.advance 1 st].
Proof. intros Hc Hm. simpl. by rewrite Hc, Hm. Qed.

Lemma match_at_head (f : Re.flags) (r : Re.regex) (text : list ascii) p st others :
  Re.exec f text r (Re.MState p []) = st :: others ->
  Re.match_at f r text p = Some (Re.RMatch p (Re.pos st) (Re.groups st)).
Proof. intros H. unfold Re.match_at. by rewrite H. Qed.

Lemma search_at_start (f : Re.flags) (r : Re.regex) (text : list ascii) mt :
  Re.match_at f r text 0 = Some mt -> Re.search f r text = Some mt.
Proof.
  intros H. unfold Re.search, Re.search_from.
  replace (length text + 1 - 0) with (S (length text)) by lia.
  simpl seq. cbn [Re.search_starts]. by rewrite H.
Qed.

(** On a qualified identifier alone, [extract_source_column] returns it
    whole. *)
Lemma qualified_search_exact (qualifier col : list ascii) :
  Spec.identifier qualifier = true -> Spec.identifier col = true ->
  Enhanced.extract_source_column (qualifier ++ "." ++ col) = qualifier ++ "." ++ col.
Proof.
  intros [Nq Fq]%identifier_spec [Nc Fc]%identifier_spec.
  destruct qualifier as [|q0 q]; [done|]. destruct col as [|c0 c]; [done|].
  set (text := (q0 :: q) ++ "." ++ c0 :: c).
  set (st0 := Re.MState 0 []).
  destruct (exec_Rep_greedy_head Re.no_flags text 1 Re.Word st0 (length q))
    as [o1 H1]; [|lia|].
  { subst text. simpl drop. apply (run_exact Re.no_flags Re.Word (q0 :: q)); done. }
  destruct (exec_Group_head _ _ 1 _ _ _ _ H1) as [o1' H1'].
  set (s1 := Re.set_group 1 (Re.pos st0) (Re.advance (S (length q)) st0)) in *.
  assert (Hdot : text !! Re.pos s1 = Some "."%char).
  { subst text s1 st0. simpl. by rewrite lookup_app_r, Nat.sub_diag by lia. }
  pose proof (exec_One_head Re.no_flags text (Re.Chr ".") s1 "." Hdot eq_refl) as H2.
  set (s2 := Re.advance 1 s1) in *.
  destruct (exec_Rep_greedy_head Re.no_flags text 1 Re.Word s2 (length c))
    as [o3 H3]; [|lia|].
  { subst text s2 s1 st0. cbn [Re.pos Re.advance Re.set_group].
    replace (0 + S (length q) + 1) with (length ((q0 :: q) ++ "."))
      by (rewrite length_app; simpl; lia).
    replace ((q0 :: q) ++ "." ++ c0 :: c) with (((q0 :: q) ++ ".") ++ c0 :: c)
      by (by rewrite <- app_assoc).
    rewrite drop_app_length. rewrite <- (app_nil_r (c0 :: c)).
    apply (run_exact Re.no_flags Re.Word (c0 :: c)); done. }
  destruct (exec_Group_head _ _ 2 _ _ _ _ H3) as [o3' H3'].
  destruct (exec_Seq_head _ _ _ _ _ _ _ _ _ H2 H3') as [o23 H23].
  destruct (exec_Seq_head _ _ _ _ _ _ _ _ _ H1' H23) as [o123 H123].
  unfold Enhanced.extract_source_column.
  pose proof (search_at_start _ _ _ _ (match_at_head _ _ _ _ _ _ H123)) as Hs.
  change (Re.search Re.no_flags Enhanced.qualified_pattern text = Some
            (Re.RMatch 0 (Re.pos (Re.set_group 2 (Re.pos s2) (Re.advance (S (length c)) s2)))
               (Re.groups (Re.set_group 2 (Re.pos s2) (Re.advance (S (length c)) s2)))))
    in Hs.
  rewrite Hs.
  unfold Re.group', Re.group. subst s2 s1 st0. cbn. unfold slice.
  f_equal. rewrite take_app_length. do 2 f_equal.
  replace (length q + 1 + S (length c) - (length q + 1)) with (length (c0 :: c))
    by (simpl; lia).
  replace (q ++ "."%char :: c0 :: c) with ((q ++ ["."%char]) ++ c0 :: c)
    by (by rewrite <- app_assoc).
  replace (length q + 1) with (length (q ++ ["."%char]))
    by (rewrite length_app; simpl; lia).
  rewrite drop_app_length. by apply take_ge.
Qed.

(** ** How generate_comprehensive_mapping classifies a column *)

Lemma normalize_ws_nonempty (s : list ascii) :
  Spec.has_nonspace s = true -> Enhanced.normalize_ws (strip s) <> [].
Proof.
  intros Hs. unfold Enhanced.normalize_ws, split_ws.
  pose proof (split_ws_aux_words (strip s) [] ltac:(done)) as Hwords.
  apply join_nonempty.
  - apply split_ws_aux_nonempty. right.
    destruct (strip_decomp s Hs) as (_ & _ & _ & _ & _ & (x & r & -> & Hx) & _).
    simpl. by rewrite Hx.
  - eapply Forall_impl; [exact Hwords|]. by intros w [Hw _].
Qed.

(** A stored column is determined by its expression, which is not
    empty. *)
Lemma stored_column_of (select_clause col_name : list ascii) c :
  Enhanced.parse_select_columns select_clause !! col_name = Some c ->
  Enhanced.expression c <> [] /\ c = Spec.column_of (Enhanced.expression c).
Proof.
  intros Hc. unfold Enhanced.parse_select_columns in Hc.
  eapply (foldl_add_column_keys
            (fun _ c => Enhanced.expression c <> []
                        /\ c = Spec.column_of (Enhanced.expression c)))
    in Hc; [done| |apply map_Forall_empty].
  intros expr k c' (before & ident & _ & _ & Hbefore & ->)%parse_column_expr_shape.
  simpl. split; [by apply normalize_ws_nonempty|done].
Qed.

Lemma stored_key_upper (select_clause col_name : list ascii) c :
  Enhanced.parse_select_columns select_clause !! col_name = Some c ->
  upper col_name = col_name.
Proof.
  intros Hc. unfold Enhanced.parse_select_columns in Hc.
  eapply (foldl_add_column_keys (fun k _ => upper k = k))
    in Hc; [done| |apply map_Forall_empty].
  intros expr k c' (before & ident & _ & -> & _)%parse_column_expr_shape.
  apply upper_upper.
Qed.

(** The dictionary [parse_final_select_enhanced] returns is empty or the
    one [parse_select_columns] builds from some lines of the final CTE. *)
Lemma final_select_columns (sql_content col_name : list ascii) c :
  Enhanced.columns (Enhanced.parse_final_select_enhanced sql_content) !! col_name = Some c ->
  exists select_clause, Enhanced.parse_select_columns select_clause !! col_name = Some c.
Proof.
  unfold Enhanced.parse_final_select_enhanced.
  destruct (Re.search _ _ _) as [mt|]; [|cbn [Enhanced.columns]; by rewrite lookup_empty].
  cbv zeta.
  destruct (Enhanced.scan_lines _ 0 (-1)) as [select_start from_line].
  destruct ((select_start <? 0)%Z || (from_line <? 0)%Z);
    [cbn [Enhanced.columns]; by rewrite lookup_empty|].
  cbn [Enhanced.columns]. intros H. by eexists.
Qed.

Lemma str_eqb_eq (a b : list ascii) : str_eqb a b = true <-> a = b.
Proof. unfold str_eqb. apply bool_decide_eq_true. Qed.



(** A column whose name is not in upper case is never found among the
    parsed columns, so it is classified R3 whatever the SQL says. *)
Theorem r3_type_name_not_upper (sql_content col_name : list ascii) :
  upper col_name <> col_name ->
  Enhanced.columns (Enhanced.parse_final_select_enhanced sql_content) !! col_name = None
  /\ Enhanced.r3_type (Enhanced.columns (Enhanced.parse_final_select_enhanced sql_content))
                      col_name = "R3".
Proof.
  intros Hname.
  assert (Hnone : Enhanced.columns (Enhanced.parse_final_select_enhanced sql_content)
                  !! col_name = None).
  { destruct (_ !! col_name) as [c|] eqn:Hc; [|done].
    destruct (final_select_columns _ _ _ Hc) as [clause Hclause].
    by apply stored_key_upper in Hclause. }
  split; [done|]. unfold Enhanced.r3_type. by rewrite Hnone.
Qed.

Lemma r3_type_name_not_upper_witness :
  upper "twice" <> ("twice" : list ascii)
  /\ Enhanced.columns (Enhanced.parse_final_select_enhanced "with final as (
select
  t.amount * 2 as twice
from t
) select * from final") !! ("twice" : list ascii) = None
  /\ Enhanced.r3_type (Enhanced.columns (Enhanced.parse_final_select_enhanced "with final as (
select
  t.amount * 2 as twice
from t
) select * from final"))
                      "twice" = "R3".
Proof.
  split; [vm_compute; discriminate|].
  apply (r3_type_name_not_upper "with final as (
select
  t.amount * 2 as twice
from t
) select * from final" "twice"); vm_compute; discriminate.
Defined.

(** *** The upstream column *)

Lemma split_on_aux_run (sep : ascii) (cur w rest : list ascii) :
  Forall (fun c => c <> sep) w ->
  split_on_aux sep cur (w ++ rest) = split_on_aux sep (cur ++ w) rest.
Proof.
  intros Hw. revert cur. induction Hw as [|c w Hc _ IH]; intros cur; simpl.
  - by rewrite app_nil_r.
  - rewrite bool_decide_eq_false_2 by done. rewrite IH, <- app_assoc. done.
Qed.

Lemma identifier_no_dot (w : list ascii) :
  Spec.identifier w = true -> Forall (fun c => c <> "."%char) w.
Proof.
  intros [_ Hall]%identifier_spec. eapply Forall_impl; [exact Hall|].
  intros c Hc ->. done.
Qed.

Lemma split_on_qualified (qualifier col : list ascii) :
  Spec.identifier qualifier = true -> Spec.identifier col = true ->
  split_on "." (qualifier ++ "." ++ col) = [qualifier; col].
Proof.
  intros Hq Hc. unfold split_on.
  rewrite split_on_aux_run by by apply identifier_no_dot.
  simpl. rewrite <- (app_nil_r col) at 1.
  rewrite split_on_aux_run by by apply identifier_no_dot. done.
Qed.

(** The upstream column is empty when no source column was found, and
    otherwise the identifier after the dot of the source column. *)
Theorem upstream_col_after_dot (expression : list ascii) :
  (Enhanced.extract_source_column expression = []
   /\ Enhanced.upstream_col (Enhanced.extract_source_column expression) = [])
  \/ (Spec.identifier (Enhanced.upstream_col (Enhanced.extract_source_column expression))
      = true
      /\ exists qualifier,
           Spec.identifier qualifier = true
           /\ Enhanced.extract_source_column expression
              = qualifier ++ "."
                ++ Enhanced.upstream_col (Enhanced.extract_source_column expression)).
Proof.
  unfold Enhanced.extract_source_column.
  destruct (Re.search _ _ _) as [mt|] eqn:Hsearch; [|by left].
  right. destruct (qualified_match _ _ Hsearch) as (before & after & _ & H1 & H2).
  set (q := Re.group' expression mt 1) in *. set (col := Re.group' expression mt 2) in *.
  assert (Hup : Enhanced.upstream_col (q ++ "." ++ col) = col).
  { unfold Enhanced.upstream_col.
    assert (Ht : truthy (q ++ "." ++ col) = true).
    { destruct q; [done|done]. }
    rewrite Ht, split_on_qualified by done. done. }
  rewrite Hup. split; [done|]. by exists q.
Qed.

(** ** The classification of [MappingDocGenerator] *)

Lemma match_at_elem (f : Re.flags) (r : Re.regex) (text : list ascii) p :
  is_Some (Re.match_at f r text p) <-> exists st, st ∈ Re.exec f text r (Re.MState p []).
Proof.
  split.
  - intros [mt (st & Hst & _)%match_at_Some]. by exists st.
  - intros [st Hst]. by eapply match_at_is_Some.
Qed.

(** A text that [^\w+$] matches from its start is an identifier, with at
    most a line break after it. *)
Lemma word_only_match (text : list ascii) :
  is_Some (MappingDocGenerator.re_match Re.no_flags MappingDocGenerator.word_only text) ->
  exists w tl, Spec.identifier w = true /\ (tl = [] \/ tl = [Re.newline]) /\ text = w ++ tl.
Proof.
  unfold MappingDocGenerator.re_match. intros [st Hst]%match_at_elem.
  unfold MappingDocGenerator.word_only in Hst.
  apply exec_Seq_elem in Hst as (s0 & H0 & Hst).
  apply exec_Seq_elem in Hst as (s1 & H1 & H2).
  simpl in H0. apply list_elem_of_singleton in H0 as ->.
  apply exec_Rep_inv in H1 as (w & D1 & F1 & L1 & ->).
  apply exec_Eos_inv in H2 as [-> Htl].
  simpl in D1. exists w, (drop (Re.pos (Re.advance (length w) (Re.MState 0 []))) text).
  split; [|done]. apply identifier_spec. split; [|done]. intros ->. simpl in L1. lia.
Qed.

Lemma word_only_intro (w : list ascii) :
  Spec.identifier w = true ->
  is_Some (MappingDocGenerator.re_match Re.no_flags MappingDocGenerator.word_only w).
Proof.
  intros [Hne Hall]%identifier_spec.
  unfold MappingDocGenerator.re_match. apply match_at_elem.
  set (st0 := Re.MState 0 []).
  destruct (exec_Rep_intro Re.no_flags w true 1 Re.Word st0 w [])
    as [H1 D1]; [by rewrite app_nil_r|done|by destruct w; [|simpl; lia]|].
  exists (Re.advance (length w) st0).
  unfold MappingDocGenerator.word_only.
  apply exec_Seq_elem. exists st0. split; [simpl; left|].
  apply exec_Seq_elem. exists (Re.advance (length w) st0). split; [done|].
  apply exec_Eos_intro; [done|]. simpl. lia.
Qed.

(** A text that [^\w+\.\w+$] matches from its start is a qualified
    identifier, with at most a line break after it. *)
Lemma qualified_only_match (text : list ascii) :
  is_Some (MappingDocGenerator.re_match Re.no_flags MappingDocGenerator.qualified_only text) ->
  exists q c tl, Spec.identifier q = true /\ Spec.identifier c = true
                 /\ (tl = [] \/ tl = [Re.newline]) /\ text = q ++ "." ++ c ++ tl.
Proof.
  unfold MappingDocGenerator.re_match. intros [st Hst]%match_at_elem.
  unfold MappingDocGenerator.qualified_only in Hst.
  apply exec_Seq_elem in Hst as (s0 & H0 & Hst).
  apply exec_Seq_elem in Hst as (s1 & H1 & Hst).
  apply exec_Seq_elem in Hst as (s2 & H2 & Hst).
  apply exec_Seq_elem in Hst as (s3 & H3 & H4).
  simpl in H0. apply list_elem_of_singleton in H0 as ->.
  apply exec_Rep_inv in H1 as (q & D1 & F1 & L1 & ->).
  apply exec_One_inv in H2 as (d & D2 & Hd & ->).
  apply exec_Rep_inv in H3 as (c & D3 & F3 & L3 & ->).
  apply exec_Eos_inv in H4 as [-> Htl].
  simpl in D1, D2, D3, Hd. apply bool_decide_eq_true in Hd as ->.
  eexists q, c, _. split; [|split; [|split; [exact Htl|]]].
  - apply identifier_spec. split; [|done]. intros ->. simpl in L1. lia.
  - apply identifier_spec. split; [|done]. intros ->. simpl in L3. lia.
  - etransitivity; [exact D1|]. f_equal.
    etransitivity; [exact D2|]. f_equal. exact D3.
Qed.

Lemma qualified_only_intro (q c : list ascii) :
  Spec.identifier q = true -> Spec.identifier c = true ->
  is_Some (MappingDocGenerator.re_match Re.no_flags MappingDocGenerator.qualified_only
             (q ++ "." ++ c)).
Proof.
  intros [Nq Fq]%identifier_spec [Nc Fc]%identifier_spec.
  unfold MappingDocGenerator.re_match. apply match_at_elem.
  set (text := q ++ "." ++ c). set (st0 := Re.MState 0 []).
  destruct (exec_Rep_intro Re.no_flags text true 1 Re.Word st0 q ("." ++ c))
    as [H1 D1]; [done|done|by destruct q; [|simpl; lia]|].
  set (s1 := Re.advance (length q) st0) in *.
  destruct (exec_One_intro Re.no_flags text (Re.Chr ".") s1 "." c D1 eq_refl) as [H2 D2].
  set (s2 := Re.advance 1 s1) in *.
  destruct (exec_Rep_intro Re.no_flags text true 1 Re.Word s2 c [])
    as [H3 D3]; [by rewrite app_nil_r|done|by destruct c; [|simpl; lia]|].
  set (s3 := Re.advance (length c) s2) in *.
  exists s3. unfold MappingDocGenerator.qualified_only.
  apply exec_Seq_elem. exists st0. split; [simpl; left|].
  apply exec_Seq_elem. exists s1. split; [done|].
  apply exec_Seq_elem. exists s2. split; [done|].
  apply exec_Seq_elem. exists s3. split; [done|].
  apply exec_Eos_intro; [done|].
  subst s3 s2 s1 st0 text. simpl. rewrite length_app. simpl. lia.
Qed.

(** What [strip] leaves does not end with a line break. *)
Lemma strip_no_newline_end (s body : list ascii) : strip s <> body ++ [Re.newline].
Proof.
  intros H. destruct (Spec.has_nonspace s) eqn:Hs.
  - destruct (strip_decomp s Hs) as (_ & _ & _ & _ & _ & _ & (r & x & Hx & Hsp)).
    rewrite H in Hx. apply app_inj_tail in Hx as [_ <-]. done.
  - rewrite <- truthy_strip_has_nonspace, H in Hs. by destruct body.
Qed.

(** The two patterns of [_determine_r3_status] together match the
    trimmed text exactly when it is a direct reference. *)
Lemma r3_patterns_direct (transformation : list ascii) :
  bool_decide (is_Some (MappingDocGenerator.re_match Re.no_flags
                          MappingDocGenerator.qualified_only (strip transformation)))
  || bool_decide (is_Some (MappingDocGenerator.re_match Re.no_flags
                             MappingDocGenerator.word_only (strip transformation)))
  = true
  <-> Spec.direct_reference (strip transformation).
Proof.
  unfold Spec.direct_reference. rewrite orb_true_iff, !bool_decide_eq_true. split.
  - intros [H|H].
    + right. apply qualified_only_match in H as (qu & c & tl & Hq & Hc & Htl & Ht).
      exists qu, c. split; [done|]. split; [done|].
      destruct Htl as [-> | ->]; [by rewrite app_nil_r in Ht|].
      exfalso. apply (strip_no_newline_end transformation (qu ++ "." ++ c)).
      by rewrite Ht, <- !app_assoc.
    + left. apply word_only_match in H as (wd & tl & Hw & Htl & Ht).
      destruct Htl as [-> | ->]; [by rewrite app_nil_r in Ht; rewrite Ht|].
      exfalso. by apply (strip_no_newline_end transformation wd).
  - intros [H|(qu & c & Hq & Hc & ->)].
    + right. by apply word_only_intro.
    + left. by apply qualified_only_intro.
Qed.

(** [_determine_r3_status] returns the empty string for the empty string
    only; it returns R3 exactly when the trimmed text is one identifier or
    two identifiers joined by a dot; and R3+ in every other case, so also
    for a text of whitespace only. *)
Theorem determine_r3_status_spec (transformation : list ascii) :
  (MappingDocGenerator._determine_r3_status transformation = [] <-> transformation = [])
  /\ (MappingDocGenerator._determine_r3_status transformation = "R3"
      <-> transformation <> [] /\ Spec.direct_reference (strip transformation))
  /\ (MappingDocGenerator._determine_r3_status transformation = "R3+"
      <-> transformation <> [] /\ ~ Spec.direct_reference (strip transformation)).
Proof.
  pose proof (r3_patterns_direct transformation) as Hdirect.
  unfold MappingDocGenerator._determine_r3_status.
  destruct transformation as [|t0 t]; cbn [truthy negb].
  { repeat split; try done; by intros [? _]. }
  destruct (_ || _).
  - assert (Spec.direct_reference (strip (t0 :: t))) by by apply Hdirect.
    repeat split; try done. by intros [_ ?].
  - assert (~ Spec.direct_reference (strip (t0 :: t)))
      by (intros Hd%Hdirect; congruence).
    repeat split; try done. by intros [_ ?].
Qed.

(** ** The names [extract_ctes] returns *)

(** A captured group is the slice of the text between its two ends. *)
Lemma group_of_span (text : list ascii) p e gs n a (w rest : list ascii) :
  Re.span_of n gs = Some (a, a + length w) -> drop a text = w ++ rest ->
  Re.group' text (Re.RMatch p e gs) n = w.
Proof.
  intros Hspan Hdrop. unfold Re.group', Re.group. cbn [Re.m_groups].
  rewrite Hspan. cbn. unfold slice.
  replace (a + length w - a) with (length w) by lia.
  rewrite Hdrop. apply take_app_length.
Qed.

Lemma cte_pattern_match (text : list ascii) p st :
  st ∈ Re.exec Re.IGNORECASE text Enhanced.cte_pattern (Re.MState p []) ->
  exists ws k1 k2 ws2 rest,
    drop p text
    = Re.group' text (Re.RMatch p (Re.pos st) (Re.groups st)) 1
      ++ ws ++ k1 :: k2 :: ws2 ++ "(" ++ rest
    /\ Spec.identifier (Re.group' text (Re.RMatch p (Re.pos st) (Re.groups st)) 1) = true
    /\ ws <> [] /\ Forall (fun c => isspace c = true) ws
    /\ lower_char k1 = "a"%char /\ lower_char k2 = "s"%char
    /\ Forall (fun c => isspace c = true) ws2.
Proof.
  unfold Enhanced.cte_pattern. intros Hst.
  apply exec_Seq_elem in Hst as (s1 & H1 & Hst).
  apply exec_Seq_elem in Hst as (s2 & H2 & Hst).
  apply exec_Seq_elem in Hst as (s3 & H3 & Hst).
  apply exec_Seq_elem in Hst as (s4 & H4 & H5).
  apply exec_Group_elem in H1 as (s1' & H1 & ->).
  apply exec_Rep_inv in H1 as (w & D1 & F1 & L1 & ->).
  apply exec_Rep_inv in H2 as (ws & D2 & F2 & L2 & ->).
  change (Re.lit "as") with (Re.Seq (Re.One (Re.Chr "a")) (Re.One (Re.Chr "s"))) in H3.
  apply exec_Seq_elem in H3 as (s3' & H3 & H3').
  apply exec_One_inv in H3 as (k1 & D3 & Hk1 & ->).
  apply exec_One_inv in H3' as (k2 & D3' & Hk2 & ->).
  apply exec_Rep_inv in H4 as (ws2 & D4 & F4 & L4 & ->).
  apply exec_One_inv in H5 as (par & D5 & Hpar & ->).
  cbn [Re.cset_match Re.ignorecase Re.IGNORECASE] in Hk1, Hk2, Hpar.
  apply bool_decide_eq_true in Hk1, Hk2, Hpar.
  assert (par = "("%char) as ->.
  { assert (Hc := ascii_all (fun c => implb (bool_decide (lower_char c = lower_char "("))
                                            (bool_decide (c = "("%char)))).
    specialize (Hc ltac:(vm_compute; reflexivity) par).
    cbv beta in Hc. rewrite (bool_decide_eq_true_2 _ Hpar) in Hc.
    by apply bool_decide_eq_true in Hc. }
  cbn [Re.pos Re.advance Re.set_group] in D1, D2, D3, D3', D4, D5.
  match goal with
  | |- context [Re.group' ?t ?m 1] => assert (Hg : Re.group' t m 1 = w)
  end.
  { eapply group_of_span; [|exact D1]. cbn. done. }
  rewrite Hg. eexists ws, k1, k2, ws2, _.
  split.
  { etransitivity; [exact D1|]. f_equal.
    etransitivity; [exact D2|]. f_equal.
    etransitivity; [exact D3|]. f_equal.
    etransitivity; [exact D3'|]. f_equal.
    etransitivity; [exact D4|]. f_equal. exact D5. }
  split; [apply identifier_spec; split; [intros ->; simpl in L1; lia|done]|].
  split; [intros ->; simpl in L2; lia|].
  done.
Qed.

(** The keys of the dictionary: no key twice, and every key comes from a
    match that passed the test. *)
Lemma foldl_add_key_inv (P : list ascii -> Prop) (text : list ascii)
    (ms : list Re.rmatch) (acc : list (list ascii)) :
  NoDup acc -> Forall P acc ->
  Forall (fun mt => lower (Re.group' text mt 1) ∉ Enhanced.not_cte_names ->
                    P (Re.group' text mt 1)) ms ->
  let ctes :=
    foldl (fun ctes mt =>
             let cte_name := Re.group' text mt 1 in
             if bool_decide (lower cte_name ∈ Enhanced.not_cte_names) then ctes
             else Enhanced.add_key ctes cte_name) acc ms in
  NoDup ctes /\ Forall P ctes.
Proof.
  intros Hnd Hacc Hms. revert acc Hnd Hacc.
  induction Hms as [|mt ms Hmt _ IH]; intros acc Hnd Hacc; [done|].
  cbn [foldl]. apply IH.
  - case_bool_decide; [done|]. unfold Enhanced.add_key.
    case_bool_decide as Hin; [done|].
    apply NoDup_app. split; [done|]. split; [|apply NoDup_singleton].
    intros x Hx ->%list_elem_of_singleton. done.
  - case_bool_decide as Hkw; [done|]. unfold Enhanced.add_key.
    case_bool_decide; [done|]. apply Forall_app. split; [done|].
    apply Forall_singleton. by apply Hmt.
Qed.

(** [extract_ctes] returns no name twice; every name it returns is an
    identifier that is none of the six excluded words in any letter case,
    and stands in the text before whitespace, the word AS in any letter
    case, optional whitespace and an opening parenthesis. *)
Theorem extract_ctes_names (sql_content : list ascii) :
  NoDup (Enhanced.extract_ctes sql_content)
  /\ forall cte_name, cte_name ∈ Enhanced.extract_ctes sql_content ->
       Spec.identifier cte_name = true
       /\ (lower cte_name ∉ Enhanced.not_cte_names)
       /\ exists before ws k1 k2 ws2 rest,
            sql_content = before ++ cte_name ++ ws ++ k1 :: k2 :: ws2 ++ "(" ++ rest
            /\ ws <> [] /\ Forall (fun c => isspace c = true) ws
            /\ lower_char k1 = "a"%char /\ lower_char k2 = "s"%char
            /\ Forall (fun c => isspace c = true) ws2.
Proof.
  set (P := fun cte_name : list ascii =>
       Spec.identifier cte_name = true
       /\ (lower cte_name ∉ Enhanced.not_cte_names)
       /\ exists before ws k1 k2 ws2 rest,
            sql_content = before ++ cte_name ++ ws ++ k1 :: k2 :: ws2 ++ "(" ++ rest
            /\ ws <> [] /\ Forall (fun c => isspace c = true) ws
            /\ lower_char k1 = "a"%char /\ lower_char k2 = "s"%char
            /\ Forall (fun c => isspace c = true) ws2).
  destruct (foldl_add_key_inv P sql_content
              (Re.finditer Re.IGNORECASE Enhanced.cte_pattern sql_content) [])
    as [Hnd Hall]; [apply NoDup_nil_2|done| |].
  - apply Forall_forall. intros mt (p & st & Hst & ->)%finditer_elem Hkw.
    destruct (cte_pattern_match _ _ _ Hst)
      as (ws & k1 & k2 & ws2 & rest & Hdrop & Hid & Hrest).
    split; [done|]. split; [done|].
    exists (take p sql_content), ws, k1, k2, ws2, rest. split; [|done].
    rewrite <- Hdrop. by rewrite take_drop.
  - split; [done|]. intros cte_name Hin. rewrite Forall_forall in Hall. by apply Hall.
Qed.

(** ** The table names found in the SQL *)

(** A literal word matches itself only. *)
Lemma exec_lit_inv (text s : list ascii) st st' :
  st' ∈ Re.exec Re.no_flags text (Re.lit s) st ->
  drop (Re.pos st) text = s ++ drop (Re.pos st') text
  /\ Re.pos st' = Re.pos st + length s /\ Re.groups st' = Re.groups st.
Proof.
  revert st. induction s as [|c s IH]; intros st Hst.
  - simpl in Hst. apply list_elem_of_singleton in Hst as ->. simpl. split; [done|]. split; [lia|done].
  - destruct s as [|c' s].
    + apply exec_One_inv in Hst as (x & D & Hx & ->).
      simpl in Hx. apply bool_decide_eq_true in Hx as ->. simpl. split; [done|]. split; [lia|done].
    + change (Re.lit (c :: c' :: s)) with (Re.Seq (Re.One (Re.Chr c)) (Re.lit (c' :: s))) in Hst.
      apply exec_Seq_elem in Hst as (s1 & H1 & H2).
      apply exec_One_inv in H1 as (x & D & Hx & ->).
      simpl in Hx. apply bool_decide_eq_true in Hx as ->.
      apply IH in H2 as (D2 & P2 & G2). simpl in D2, P2, G2.
      split; [|split; [simpl; simpl in P2; lia|done]].
      etransitivity; [exact D|]. simpl. f_equal. etransitivity; [exact D2|]. done.
Qed.

Lemma quote_spec (c : ascii) :
  Re.cset_match Re.no_flags Enhanced.quote c = true <-> c = Re.dquote \/ c = "'"%char.
Proof.
  simpl. rewrite orb_true_iff, !bool_decide_eq_true. done.
Qed.

Lemma not_quote_spec (w : list ascii) :
  Forall (fun c => Re.cset_match Re.no_flags Enhanced.not_quote c = true) w ->
  Forall (fun c => c <> Re.dquote /\ c <> "'"%char) w.
Proof.
  intros H. eapply Forall_impl; [exact H|]. intros c Hc. simpl in Hc.
  apply negb_true_iff, bool_decide_eq_false in Hc.
  split; intros ->; apply Hc; [left|right; left].
Qed.

(** A quoted name: a quote, one or more characters that are not quotes,
    captured as group [n], and a quote. *)
Lemma exec_quoted_inv (text : list ascii) (n : nat) (tail : Re.regex) st st' :
  st' ∈ Re.exec Re.no_flags text
          (Re.One Enhanced.quote ⋅ Re.Group n (Re.plus Enhanced.not_quote)
           ⋅ Re.One Enhanced.quote ⋅ tail)%re st ->
  exists q1 name q2 st2,
    drop (Re.pos st) text = q1 :: name ++ q2 :: drop (Re.pos st2) text
    /\ (q1 = Re.dquote \/ q1 = "'"%char) /\ (q2 = Re.dquote \/ q2 = "'"%char)
    /\ name <> [] /\ Forall (fun c => c <> Re.dquote /\ c <> "'"%char) name
    /\ Re.groups st2 = (n, (Re.pos st + 1, Re.pos st + 1 + length name)) :: Re.groups st
    /\ drop (Re.pos st + 1) text = name ++ q2 :: drop (Re.pos st2) text
    /\ st' ∈ Re.exec Re.no_flags text tail st2.
Proof.
  intros Hst.
  apply exec_Seq_elem in Hst as (s1 & H1 & Hst).
  apply exec_Seq_elem in Hst as (s2 & H2 & Hst).
  apply exec_Seq_elem in Hst as (s3 & H3 & Hst).
  apply exec_One_inv in H1 as (q1 & D1 & Hq1 & ->).
  apply exec_Group_elem in H2 as (s2' & H2 & ->).
  apply exec_Rep_inv in H2 as (name & D2 & F2 & L2 & ->).
  apply exec_One_inv in H3 as (q2 & D3 & Hq2 & ->).
  apply quote_spec in Hq1, Hq2. apply not_quote_spec in F2.
  cbn [Re.pos Re.advance Re.set_group] in D1, D2, D3.
  exists q1, name, q2,
    (Re.advance 1 (Re.set_group n (Re.pos (Re.advance 1 st))
                     (Re.advance (length name) (Re.advance 1 st)))).
  split; [|split; [done|split; [done|split; [|split; [done|]]]]].
  - etransitivity; [exact D1|]. f_equal. etransitivity; [exact D2|]. f_equal. exact D3.
  - intros ->. simpl in L2. lia.
  - split; [done|]. split; [|exact Hst].
    etransitivity; [exact D2|]. f_equal. exact D3.
Qed.

Lemma space_spec (w : list ascii) :
  Forall (fun c => Re.cset_match Re.no_flags Re.Space c = true) w ->
  Forall (fun c => isspace c = true) w.
Proof. done. Qed.

(** What a match of the pattern of [extract_upstream_tables] spans: two
    opening braces, whitespace, [ref(], a quoted name, [)], whitespace and
    two closing braces. *)
Lemma ref_call_pattern_match (text : list ascii) p st :
  st ∈ Re.exec Re.no_flags text Enhanced.ref_call_pattern (Re.MState p []) ->
  exists w1 q1 name q2 w2 rest,
    Re.group' text (Re.RMatch p (Re.pos st) (Re.groups st)) 1 = name
    /\ drop p text
       = "{{" ++ w1 ++ "ref(" ++ q1 :: name ++ q2 :: ")" ++ w2 ++ "}}" ++ rest
    /\ (q1 = Re.dquote \/ q1 = "'"%char) /\ (q2 = Re.dquote \/ q2 = "'"%char)
    /\ name <> [] /\ Forall (fun c => c <> Re.dquote /\ c <> "'"%char) name
    /\ Forall (fun c => isspace c = true) w1 /\ Forall (fun c => isspace c = true) w2.
Proof.
  unfold Enhanced.ref_call_pattern. intros Hst.
  apply exec_Seq_elem in Hst as (s1 & H1 & Hst).
  apply exec_Seq_elem in Hst as (s2 & H2 & Hst).
  apply exec_Seq_elem in Hst as (s3 & H3 & Hst).
  apply exec_lit_inv in H1 as (D1 & P1 & G1).
  apply exec_Rep_inv in H2 as (w1 & D2 & F2 & _ & ->).
  apply exec_lit_inv in H3 as (D3 & P3 & G3).
  apply exec_quoted_inv in Hst
    as (q1 & name & q2 & s4 & D4 & Hq1 & Hq2 & Nname & Fname & G4 & D4' & Hst).
  apply exec_Seq_elem in Hst as (s5 & H5 & Hst).
  apply exec_Seq_elem in Hst as (s6 & H6 & H7).
  apply exec_One_inv in H5 as (par & D5 & Hpar & ->).
  apply exec_Rep_inv in H6 as (w2 & D6 & F6 & _ & ->).
  apply exec_lit_inv in H7 as (D7 & P7 & G7).
  simpl in Hpar. apply bool_decide_eq_true in Hpar as ->.
  cbn [Re.pos Re.groups Re.advance] in *.
  exists w1, q1, name, q2, w2, (drop (Re.pos st) text).
  split.
  { eapply group_of_span; [|exact D4'].
    rewrite G7, G4. cbn. done. }
  split; [|done].
  etransitivity; [exact D1|]. f_equal.
  etransitivity; [exact D2|]. f_equal.
  etransitivity; [exact D3|]. f_equal.
  etransitivity; [exact D4|]. do 3 f_equal.
  etransitivity; [exact D5|]. f_equal.
  etransitivity; [exact D6|]. f_equal. exact D7.
Qed.

(** Every name [extract_upstream_tables] returns stands in the text in a
    call of [ref] between double braces; it is not empty and holds no
    quote.  The opening and the closing quote need not be the same. *)
Theorem extract_upstream_tables_names (sql_content name : list ascii) :
  name ∈ Enhanced.extract_upstream_tables sql_content ->
  name <> [] /\ Forall (fun c => c <> Re.dquote /\ c <> "'"%char) name
  /\ exists before w1 q1 q2 w2 after,
       sql_content
       = before ++ "{{" ++ w1 ++ "ref(" ++ q1 :: name ++ q2 :: ")" ++ w2 ++ "}}" ++ after
       /\ (q1 = Re.dquote \/ q1 = "'"%char) /\ (q2 = Re.dquote \/ q2 = "'"%char)
       /\ Forall (fun c => isspace c = true) w1 /\ Forall (fun c => isspace c = true) w2.
Proof.
  unfold Enhanced.extract_upstream_tables.
  rewrite elem_of_list_to_set, list_elem_of_In, in_map_iff.
  intros (mt & <- & (p & st & Hst & ->)%list_elem_of_In%finditer_elem).
  destruct (ref_call_pattern_match _ _ _ Hst)
    as (w1 & q1 & name & q2 & w2 & rest & -> & Hdrop & Hq1 & Hq2 & Nname & Fname & F1 & F2).
  split; [done|]. split; [done|].
  exists (take p sql_content), w1, q1, q2, w2, rest. split; [|done].
  rewrite <- Hdrop. by rewrite take_drop.
Qed.

Lemma extract_upstream_tables_names_witness :
  ("orders" : list ascii)
    ∈ Enhanced.extract_upstream_tables "select * from {{ ref('orders') }} o"
  /\ ("orders" : list ascii) <> [].
Proof.
  split; [refine (bool_decide_unpack _ _); vm_compute; exact I|].
  apply (extract_upstream_tables_names "select * from {{ ref('orders') }} o" "orders").
  refine (bool_decide_unpack _ _); vm_compute; exact I.
Defined.

(** *** _extract_source_tables *)

Lemma ref_pattern_match (text : list ascii) p st :
  st ∈ Re.exec Re.no_flags text DbtModelAnalyzer.ref_pattern (Re.MState p []) ->
  exists q1 name q2 rest,
    Re.group' text (Re.RMatch p (Re.pos st) (Re.groups st)) 1 = name
    /\ drop p text = "ref(" ++ q1 :: name ++ q2 :: ")" ++ rest
    /\ (q1 = Re.dquote \/ q1 = "'"%char) /\ (q2 = Re.dquote \/ q2 = "'"%char)
    /\ name <> [] /\ Forall (fun c => c <> Re.dquote /\ c <> "'"%char) name.
Proof.
  unfold DbtModelAnalyzer.ref_pattern. intros Hst.
  apply exec_Seq_elem in Hst as (s3 & H3 & Hst).
  apply exec_lit_inv in H3 as (D3 & P3 & G3).
  apply exec_quoted_inv in Hst
    as (q1 & name & q2 & s4 & D4 & Hq1 & Hq2 & Nname & Fname & G4 & D4' & Hst).
  apply exec_One_inv in Hst as (par & D5 & Hpar & ->).
  simpl in Hpar. apply bool_decide_eq_true in Hpar as ->.
  cbn [Re.pos Re.groups Re.advance] in *.
  exists q1, name, q2, (drop (Re.pos s4 + 1) text).
  split.
  { eapply group_of_span; [|exact D4']. rewrite G4. cbn. done. }
  split; [|done].
  etransitivity; [exact D3|]. f_equal.
  etransitivity; [exact D4|]. do 3 f_equal. exact D5.
Qed.

Lemma source_pattern_match (text : list ascii) p st :
  st ∈ Re.exec Re.no_flags text DbtModelAnalyzer.source_pattern (Re.MState p []) ->
  exists q1 src0 q2 w1 w2 q3 src1 q4 rest,
    Re.group' text (Re.RMatch p (Re.pos st) (Re.groups st)) 1 = src0
    /\ Re.group' text (Re.RMatch p (Re.pos st) (Re.groups st)) 2 = src1
    /\ drop p text
       = "source(" ++ q1 :: src0 ++ q2 :: w1 ++ "," ++ w2 ++ q3 :: src1 ++ q4 :: ")" ++ rest
    /\ src0 <> [] /\ Forall (fun c => c <> Re.dquote /\ c <> "'"%char) src0
    /\ src1 <> [] /\ Forall (fun c => c <> Re.dquote /\ c <> "'"%char) src1.
Proof.
  unfold DbtModelAnalyzer.source_pattern. intros Hst.
  apply exec_Seq_elem in Hst as (s1 & H1 & Hst).
  apply exec_lit_inv in H1 as (D1 & P1 & G1).
  apply exec_quoted_inv in Hst
    as (q1 & src0 & q2 & s2 & D2 & Hq1 & Hq2 & N0 & F0 & G2 & D2' & Hst).
  apply exec_Seq_elem in Hst as (s3 & H3 & Hst).
  apply exec_Seq_elem in Hst as (s4 & H4 & Hst).
  apply exec_Seq_elem in Hst as (s5 & H5 & Hst).
  apply exec_Rep_inv in H3 as (w1 & D3 & F3 & _ & ->).
  apply exec_One_inv in H4 as (comma & D4 & Hcomma & ->).
  apply exec_Rep_inv in H5 as (w2 & D5 & F5 & _ & ->).
  apply exec_quoted_inv in Hst
    as (q3 & src1 & q4 & s6 & D6 & Hq3 & Hq4 & N1 & F1 & G6 & D6' & Hst).
  apply exec_One_inv in Hst as (par & D7 & Hpar & ->).
  simpl in Hpar, Hcomma. apply bool_decide_eq_true in Hpar as ->.
  apply bool_decide_eq_true in Hcomma as ->.
  cbn [Re.pos Re.groups Re.advance] in *.
  exists q1, src0, q2, w1, w2, q3, src1, q4, (drop (Re.pos s6 + 1) text).
  split.
  { eapply group_of_span; [|exact D2']. rewrite G6, G2. cbn. done. }
  split.
  { eapply group_of_span; [|exact D6']. rewrite G6. cbn. done. }
  split; [|done].
  etransitivity; [exact D1|]. f_equal.
  etransitivity; [exact D2|]. do 3 f_equal.
  etransitivity; [exact D3|]. f_equal.
  etransitivity; [exact D4|]. f_equal.
  etransitivity; [exact D5|]. f_equal.
  etransitivity; [exact D6|]. do 3 f_equal. exact D7.
Qed.

(** [_extract_source_tables] lists the entries of the [ref] calls before
    those of the [source] calls.  A [ref] entry has no schema and its
    full name is its name; the full name of a [source] entry is its
    schema, two underscores and its name.  Names and schemas are not empty
    and hold no quote. *)
Theorem extract_source_tables_entries (sql : list ascii) :
  exists refs sources,
    DbtModelAnalyzer._extract_source_tables sql = refs ++ sources
    /\ Forall (fun t =>
                 DbtModelAnalyzer.source_type t = "ref"
                 /\ DbtModelAnalyzer.schema t = None
                 /\ DbtModelAnalyzer.full_name t = DbtModelAnalyzer.name t
                 /\ DbtModelAnalyzer.name t <> []
                 /\ Forall (fun c => c <> Re.dquote /\ c <> "'"%char)
                           (DbtModelAnalyzer.name t)) refs
    /\ Forall (fun t =>
                 DbtModelAnalyzer.source_type t = "source"
                 /\ DbtModelAnalyzer.name t <> []
                 /\ Forall (fun c => c <> Re.dquote /\ c <> "'"%char)
                           (DbtModelAnalyzer.name t)
                 /\ exists src0,
                      DbtModelAnalyzer.schema t = Some src0
                      /\ src0 <> []
                      /\ Forall (fun c => c <> Re.dquote /\ c <> "'"%char) src0
                      /\ DbtModelAnalyzer.full_name t
                         = src0 ++ "__" ++ DbtModelAnalyzer.name t) sources.
Proof.
  unfold DbtModelAnalyzer._extract_source_tables. eexists _, _. split; [done|]. split.
  - apply Forall_forall. intros t (mt & <- & (p & st & Hst & ->)%list_elem_of_In%finditer_elem)%list_elem_of_In%in_map_iff.
    destruct (ref_pattern_match _ _ _ Hst)
      as (q1 & name & q2 & rest & Hg & _ & _ & _ & Nname & Fname).
    cbn [DbtModelAnalyzer.source_type DbtModelAnalyzer.schema DbtModelAnalyzer.full_name
         DbtModelAnalyzer.name]. rewrite Hg. done.
  - apply Forall_forall. intros t (mt & <- & (p & st & Hst & ->)%list_elem_of_In%finditer_elem)%list_elem_of_In%in_map_iff.
    destruct (source_pattern_match _ _ _ Hst)
      as (q1 & src0 & q2 & w1 & w2 & q3 & src1 & q4 & rest & Hg1 & Hg2 & _ & N0 & F0 & N1 & F1).
    cbn [DbtModelAnalyzer.source_type DbtModelAnalyzer.schema DbtModelAnalyzer.full_name
         DbtModelAnalyzer.name]. rewrite Hg1, Hg2.
    split; [done|]. split; [done|]. split; [done|]. by exists src0.
Qed.

(** ** The conditional flag and [extract_case_logic] agree *)

(** For a stored column, [extract_case_logic] returns a result on its
    expression exactly when the column is flagged as conditional: the
    caller's test of the result never fails after its test of the flag. *)
Theorem is_case_iff_case_logic (select_clause col_name : list ascii) c :
  Enhanced.parse_select_columns select_clause !! col_name = Some c ->
  (Enhanced.is_case c = true
   <-> is_Some (Enhanced.extract_case_logic (Enhanced.expression c))).
Proof.
  intros [_ Hc]%stored_column_of.
  unfold Enhanced.extract_case_logic.
  assert (Hflag : Enhanced.is_case c = contains (lower (Enhanced.expression c)) "case")
    by by rewrite Hc.
  rewrite Hflag.
  destruct (contains (lower (Enhanced.expression c)) "case"); cbn [negb].
  - split; [by eexists|done].
  - split; [done|]. by intros [? ?].
Qed.

Lemma is_case_iff_case_logic_witness :
  Enhanced.parse_select_columns "case when a.x > 0 then 1 else 0 end as flag"
    !! ("FLAG" : list ascii)
  = Some (Enhanced.Column "case when a.x > 0 then 1 else 0 end" "a.x" true)
  /\ (true = true
      <-> is_Some (Enhanced.extract_case_logic "case when a.x > 0 then 1 else 0 end")).
Proof.
  split; [vm_compute; reflexivity|].
  apply (is_case_iff_case_logic "case when a.x > 0 then 1 else 0 end as flag" "FLAG"
           (Enhanced.Column "case when a.x > 0 then 1 else 0 end" "a.x" true)).
  vm_compute. reflexivity.
Defined.

(** ** The names [_extract_source_columns] keeps *)

Lemma exec_Opt_elem (f : Re.flags) (text : list ascii) r st st' :
  st' ∈ Re.exec f text (Re.Opt r) st <-> st' ∈ Re.exec f text r st \/ st' = st.
Proof.
  simpl. rewrite elem_of_app, list_elem_of_singleton. done.
Qed.

Lemma exec_Wordb_elem (f : Re.flags) (text : list ascii) st st' :
  st' ∈ Re.exec f text Re.Wordb st -> st' = st.
Proof.
  simpl. destruct (xorb _ _); [|by intros ?%elem_of_nil].
  by intros ->%list_elem_of_singleton.
Qed.

(** Group 2 of a match of the column pattern is a letter or an underscore
    followed by letters, digits and underscores, and it stands in the
    text. *)
Lemma column_pattern_match (text : list ascii) p st :
  st ∈ Re.exec Re.no_flags text DbtModelAnalyzer.column_pattern (Re.MState p []) ->
  exists before c0 rest after,
    Re.group' text (Re.RMatch p (Re.pos st) (Re.groups st)) 2 = c0 :: rest
    /\ text = before ++ c0 :: rest ++ after
    /\ Re.cset_match Re.no_flags DbtModelAnalyzer.ident_start c0 = true
    /\ Forall (fun c => Re.cset_match Re.no_flags DbtModelAnalyzer.ident_char c = true) rest.
Proof.
  unfold DbtModelAnalyzer.column_pattern. intros Hst.
  apply exec_Seq_elem in Hst as (s0 & H0 & Hst).
  apply exec_Seq_elem in Hst as (s1 & H1 & Hst).
  apply exec_Seq_elem in Hst as (s2 & H2 & H3).
  apply exec_Wordb_elem in H0 as ->. apply exec_Wordb_elem in H3 as ->.
  apply exec_Group_elem in H2 as (s2' & H2 & ->).
  apply exec_Seq_elem in H2 as (s3 & H2 & H2').
  apply exec_One_inv in H2 as (c0 & D2 & Hc0 & ->).
  apply exec_Rep_inv in H2' as (rest & D3 & F3 & _ & ->).
  cbn [Re.pos Re.groups Re.advance Re.set_group] in *.
  exists (take (Re.pos s1) text), c0, rest, (drop (Re.pos s1 + 1 + length rest) text).
  split.
  { apply (group_of_span text _ _ _ 2 (Re.pos s1) (c0 :: rest)
             (drop (Re.pos s1 + 1 + length rest) text)).
    - cbn. f_equal. f_equal. lia.
    - etransitivity; [exact D2|]. simpl. f_equal. exact D3. }
  split; [|done].
  rewrite <- (take_drop (Re.pos s1) text) at 1. f_equal.
  etransitivity; [exact D2|]. f_equal. exact D3.
Qed.

(** Every name [_extract_source_columns] returns is the upper-cased form
    of an identifier of the text: a letter or an underscore followed by
    letters, digits and underscores.  The name is in upper case and is
    none of the reserved words. *)
Theorem extract_source_columns_names (transformation col : list ascii) :
  col ∈ DbtModelAnalyzer._extract_source_columns transformation ->
  upper col = col /\ (col ∉ DbtModelAnalyzer.sql_keywords)
  /\ exists before c0 rest after,
       col = upper (c0 :: rest)
       /\ transformation = before ++ c0 :: rest ++ after
       /\ Re.cset_match Re.no_flags DbtModelAnalyzer.ident_start c0 = true
       /\ Forall (fun c => Re.cset_match Re.no_flags DbtModelAnalyzer.ident_char c = true)
                 rest.
Proof.
  unfold DbtModelAnalyzer._extract_source_columns, DbtModelAnalyzer.kept_columns,
    DbtModelAnalyzer.column_matches.
  rewrite elem_of_list_to_set, list_elem_of_omap.
  intros (m & Hm & Hkeep). apply list_elem_of_In, in_map_iff in Hm as (mt & <- & Hmt).
  apply list_elem_of_In, finditer_elem in Hmt as (p & st & Hst & ->).
  cbn [snd] in Hkeep. case_bool_decide as Hkw; [done|]. injection Hkeep as <-.
  destruct (column_pattern_match _ _ _ Hst) as (before & c0 & rest & after & Hg & Htext & H0 & Hrest).
  split; [apply upper_upper|]. split; [done|].
  exists before, c0, rest, after. by rewrite Hg.
Qed.

Lemma extract_source_columns_names_witness :
  ("X" : list ascii) ∈ DbtModelAnalyzer._extract_source_columns "coalesce(a.x, 0)"
  /\ upper "X" = ("X" : list ascii).
Proof.
  split; [refine (bool_decide_unpack _ _); vm_compute; exact I|].
  apply (extract_source_columns_names "coalesce(a.x, 0)" "X").
  refine (bool_decide_unpack _ _); vm_compute; exact I.
Defined.

(** ** Removing the comments *)

(** [re.search] from a position reports the first start position at which
    the pattern matches. *)
Lemma search_starts_first (f : Re.flags) (r : Re.regex) (text : list ascii)
    (starts : list nat) mt :
  Re.search_starts f r text starts = Some mt ->
  exists before after,
    starts = before ++ Re.m_start mt :: after
    /\ Forall (fun q => Re.exec f text r (Re.MState q []) = []) before
    /\ exists st, st ∈ Re.exec f text r (Re.MState (Re.m_start mt) [])
                  /\ mt = Re.RMatch (Re.m_start mt) (Re.pos st) (Re.groups st).
Proof.
  induction starts as [|p starts IH]; simpl; [done|].
  unfold Re.match_at.
  destruct (Re.exec f text r (Re.MState p [])) as [|st sts] eqn:Hexec.
  - intros (before & after & -> & Hall & Hst)%IH.
    exists (p :: before), after. split; [done|]. split; [by constructor|done].
  - intros [= <-]. exists [], starts. split; [done|]. split; [done|].
    exists st. cbn [Re.m_start]. rewrite Hexec. split; [left|done].
Qed.

Lemma search_starts_None (f : Re.flags) (r : Re.regex) (text : list ascii)
    (starts : list nat) :
  Re.search_starts f r text starts = None ->
  Forall (fun q => Re.exec f text r (Re.MState q []) = []) starts.
Proof.
  induction starts as [|p starts IH]; simpl; [done|].
  unfold Re.match_at.
  destruct (Re.exec f text r (Re.MState p [])) as [|st sts] eqn:Hexec; [|done].
  intros H. constructor; [done|by apply IH].
Qed.

Lemma search_from_first (f : Re.flags) (r : Re.regex) (text : list ascii) p mt :
  Re.search_from f r text p = Some mt ->
  p <= Re.m_start mt <= length text
  /\ (forall q, p <= q < Re.m_start mt -> Re.exec f text r (Re.MState q []) = [])
  /\ exists st, st ∈ Re.exec f text r (Re.MState (Re.m_start mt) [])
                /\ mt = Re.RMatch (Re.m_start mt) (Re.pos st) (Re.groups st).
Proof.
  unfold Re.search_from.
  intros (before & after & Hseq & Hall & Hst)%search_starts_first.
  assert (Hin : Re.m_start mt ∈ seq p (length text + 1 - p)).
  { rewrite Hseq. apply elem_of_app. right. left. }
  apply elem_of_seq in Hin.
  split; [lia|]. split; [|done].
  intros q Hq. rewrite Forall_forall in Hall. apply Hall.
  assert (Hlen : length before = Re.m_start mt - p).
  { assert (H := f_equal (fun l => l !! length before) Hseq). cbv beta in H.
    rewrite list_lookup_middle in H by done.
    apply lookup_seq in H. lia. }
  assert (Hq' : seq p (length text + 1 - p) !! (q - p) = Some q).
  { rewrite lookup_seq_lt by lia. f_equal. lia. }
  rewrite Hseq, lookup_app_l in Hq' by lia.
  by eapply list_elem_of_lookup_2.
Qed.

Lemma search_from_None (f : Re.flags) (r : Re.regex) (text : list ascii) p :
  Re.search_from f r text p = None ->
  forall q, p <= q <= length text -> Re.exec f text r (Re.MState q []) = [].
Proof.
  unfold Re.search_from. intros Hall%search_starts_None q Hq.
  rewrite Forall_forall in Hall. apply Hall. apply elem_of_seq. lia.
Qed.

Lemma first_newline (b c : list ascii) :
  exists b' c', b ++ Re.newline :: c = b' ++ Re.newline :: c'
                /\ Forall (fun x => x <> Re.newline) b'.
Proof.
  induction b as [|x b (b' & c' & Heq & Hall)].
  - by exists [], c.
  - destruct (decide (x = Re.newline)) as [->|Hx].
    + by exists [], (b ++ Re.newline :: c).
    + exists (x :: b'), c'. simpl. rewrite Heq. split; [done|by constructor].
Qed.

(** What a match of the comment pattern spans. *)
Lemma comment_exec_inv (text : list ascii) q st :
  st ∈ Re.exec Re.no_flags text Enhanced.comment_pattern (Re.MState q []) ->
  exists b,
    drop q text = "--" ++ b ++ Re.newline :: drop (Re.pos st) text
    /\ Re.pos st = q + 2 + length b + 1 /\ Re.pos st <= length text.
Proof.
  unfold Enhanced.comment_pattern. intros Hst.
  apply exec_Seq_elem in Hst as (s1 & H1 & Hst).
  apply exec_Seq_elem in Hst as (s2 & H2 & H3).
  apply exec_lit_inv in H1 as (D1 & P1 & _).
  apply exec_Rep_inv in H2 as (b & D2 & _ & _ & ->).
  apply exec_One_inv in H3 as (x & D3 & Hx & ->).
  simpl in Hx. apply bool_decide_eq_true in Hx as ->.
  cbn [Re.pos Re.advance] in *. simpl in P1.
  assert (Hdrop : drop q text
                  = "--" ++ b ++ Re.newline :: drop (Re.pos s1 + length b + 1) text).
  { etransitivity; [exact D1|]. f_equal.
    etransitivity; [exact D2|]. f_equal. exact D3. }
  exists b. split; [exact Hdrop|]. split; [lia|].
  apply (f_equal length) in Hdrop.
  rewrite length_drop, !length_app in Hdrop. simpl in Hdrop.
  rewrite length_drop in Hdrop. lia.
Qed.

Lemma comment_exec_intro (text : list ascii) q (b c : list ascii) :
  drop q text = "--" ++ b ++ Re.newline :: c ->
  Re.exec Re.no_flags text Enhanced.comment_pattern (Re.MState q []) <> [].
Proof.
  destruct (first_newline b c) as (b' & c' & -> & Hb'). intros Hdrop.
  set (st0 := Re.MState q []).
  destruct (exec_One_intro Re.no_flags text (Re.Chr "-") st0 "-" _ Hdrop eq_refl)
    as [H1 D1].
  destruct (exec_One_intro Re.no_flags text (Re.Chr "-") _ "-" _ D1 eq_refl)
    as [H2 D2].
  destruct (exec_Rep_intro Re.no_flags text false 0 Re.Dot _ b' _ D2) as [H3 D3].
  { eapply Forall_impl; [exact Hb'|]. intros x Hx.
    cbn [Re.cset_match Re.dotall Re.no_flags orb].
    by apply negb_true_iff, bool_decide_eq_false. }
  { lia. }
  destruct (exec_One_intro Re.no_flags text (Re.Chr Re.newline) _ Re.newline _ D3)
    as [H4 _];
    [cbn [Re.cset_match Re.ignorecase Re.no_flags]; by apply bool_decide_eq_true|].
  intros Hnil.
  assert (Hin : Re.advance 1 (Re.advance (length b') (Re.advance 1 (Re.advance 1 st0)))
                ∈ Re.exec Re.no_flags text Enhanced.comment_pattern st0).
  { unfold Enhanced.comment_pattern.
    apply exec_Seq_elem. eexists. split.
    - change (Re.lit "--") with (Re.Seq (Re.One (Re.Chr "-")) (Re.One (Re.Chr "-"))).
      apply exec_Seq_elem. eexists. split; [exact H1|exact H2].
    - apply exec_Seq_elem. eexists. split; [exact H3|exact H4]. }
  rewrite Hnil in Hin. by apply elem_of_nil in Hin.
Qed.

Lemma sub_aux_comments (text : list ascii) (fuel : nat) : forall p,
  p <= length text -> length text + 1 <= p + fuel ->
  ~ Spec.closed_comment
      (Re.sub_aux text [Re.newline]
         (Re.finditer_from fuel Re.no_flags Enhanced.comment_pattern text p) p).
Proof.
  induction fuel as [|fuel IH]; intros p Hp Hfuel; [lia|].
  cbn [Re.finditer_from].
  destruct (Re.search_from Re.no_flags Enhanced.comment_pattern text p) as [mt|] eqn:Hs.
  - apply search_from_first in Hs as (Hstart & Hnone & st & Hst & ->).
    cbn [Re.m_start Re.m_end] in *.
    set (s := Re.m_start _) in *.
    destruct (comment_exec_inv _ _ _ Hst) as (b0 & Hdrop & Hend & Hlen).
    destruct (Nat.eqb_spec (Re.pos st) s) as [Heq|_]; [lia|].
    cbn [Re.sub_aux Re.m_start Re.m_end].
    specialize (IH (Re.pos st) Hlen ltac:(lia)).
    set (R' := Re.sub_aux text [Re.newline] _ (Re.pos st)) in *.
    assert (Hgap : drop p text = slice text p s ++ drop s text).
    { unfold slice. rewrite <- (take_drop (s - p) (drop p text)) at 1.
      rewrite drop_drop. do 2 f_equal. lia. }
    intros (a & b & c & Hbad).
    change ([Re.newline] ++ R') with (Re.newline :: R') in Hbad.
    apply app_eq_app in Hbad as [l [[Hg Hl]|[Ha Hl]]].
    + (* the two dashes begin in the gap *)
      destruct l as [|x l]; [done|]. injection Hl as <- Hl.
      destruct l as [|x l]; [done|]. injection Hl as <- Hl.
      assert (Hq : p + length a < s).
      { assert (H := f_equal length Hg). unfold slice in H.
        rewrite length_take, length_drop, length_app in H. simpl in H. lia. }
      apply (comment_exec_intro text (p + length a) (l ++ "--" ++ b0)
               (drop (Re.pos st) text)).
      * rewrite <- drop_drop, Hgap, Hg, <- app_assoc, drop_app_length, Hdrop.
        simpl. by rewrite <- app_assoc.
      * apply Hnone. lia.
    + (* the two dashes begin after the gap *)
      destruct l as [|x l]; [done|]. injection Hl as <- Hl.
      apply IH. by exists l, b, c.
  - cbn [Re.sub_aux]. intros (a & b & c & Hbad).
    apply (comment_exec_intro text (p + length a) b c).
    + by rewrite <- drop_drop, Hbad, drop_app_length.
    + apply (search_from_None _ _ _ _ Hs).
      apply (f_equal length) in Hbad.
      rewrite length_drop, !length_app in Hbad. simpl in Hbad. lia.
Qed.

(** After the comments have been removed from a select clause, the
    comment pattern matches nowhere in the result: no two dashes are
    followed, anywhere later, by a line break, and removing the comments
    again changes nothing.  (Two dashes on a last line without a line
    break are not a match and stay.) *)
Theorem comments_removed (select_clause : list ascii) :
  ~ Spec.closed_comment
      (Re.sub Re.no_flags Enhanced.comment_pattern [Re.newline] select_clause)
  /\ Re.search Re.no_flags Enhanced.comment_pattern
       (Re.sub Re.no_flags Enhanced.comment_pattern [Re.newline] select_clause) = None
  /\ Re.sub Re.no_flags Enhanced.comment_pattern [Re.newline]
       (Re.sub Re.no_flags Enhanced.comment_pattern [Re.newline] select_clause)
     = Re.sub Re.no_flags Enhanced.comment_pattern [Re.newline] select_clause.
Proof.
  set (cleaned := Re.sub Re.no_flags Enhanced.comment_pattern [Re.newline] select_clause).
  assert (Hfree : ~ Spec.closed_comment cleaned).
  { apply sub_aux_comments; lia. }
  assert (Hnone : Re.search Re.no_flags Enhanced.comment_pattern cleaned = None).
  { destruct (Re.search _ _ _) as [mt|] eqn:Hs; [|done]. exfalso.
    apply search_Some in Hs as (q & st & Hst & _).
    destruct (comment_exec_inv _ _ _ Hst) as (b & Hdrop & _).
    apply Hfree. exists (take q cleaned), b, (drop (Re.pos st) cleaned).
    by rewrite <- Hdrop, take_drop. }
  split; [done|]. split; [done|].
  unfold Re.sub at 1, Re.finditer. cbn [Re.finditer_from].
  replace (length cleaned + 1) with (S (length cleaned)) by lia.
  cbn [Re.finditer_from]. unfold Re.search in Hnone. rewrite Hnone. done.
Qed.

(** ** Removing the templates *)

Lemma exec_lit_flags_inv (f : Re.flags) (text s : list ascii) st st' :
  Re.ignorecase f = false ->
  st' ∈ Re.exec f text (Re.lit s) st ->
  drop (Re.pos st) text = s ++ drop (Re.pos st') text
  /\ Re.pos st' = Re.pos st + length s /\ Re.groups st' = Re.groups st.
Proof.
  intros Hf. revert st. induction s as [|c s IH]; intros st Hst.
  - simpl in Hst. apply list_elem_of_singleton in Hst as ->. simpl.
    split; [done|]. split; [lia|done].
  - destruct s as [|c' s].
    + apply exec_One_inv in Hst as (x & D & Hx & ->).
      simpl in Hx. rewrite Hf in Hx. apply bool_decide_eq_true in Hx as ->. simpl.
      split; [done|]. split; [lia|done].
    + change (Re.lit (c :: c' :: s)) with (Re.Seq (Re.One (Re.Chr c)) (Re.lit (c' :: s))) in Hst.
      apply exec_Seq_elem in Hst as (s1 & H1 & H2).
      apply exec_One_inv in H1 as (x & D & Hx & ->).
      simpl in Hx. rewrite Hf in Hx. apply bool_decide_eq_true in Hx as ->.
      apply IH in H2 as (D2 & P2 & G2). simpl in D2, P2, G2.
      split; [|split; [simpl; simpl in P2; lia|done]].
      etransitivity; [exact D|]. simpl. f_equal. etransitivity; [exact D2|]. done.
Qed.

(** What a match of the template pattern spans. *)
Lemma jinja_exec_inv (text : list ascii) q st :
  st ∈ Re.exec Re.DOTALL text Enhanced.jinja_pattern (Re.MState q []) ->
  exists b,
    drop q text = "{%" ++ b ++ "%}" ++ drop (Re.pos st) text
    /\ Re.pos st = q + 2 + length b + 2 /\ Re.pos st <= length text.
Proof.
  unfold Enhanced.jinja_pattern. intros Hst.
  apply exec_Seq_elem in Hst as (s1 & H1 & Hst).
  apply exec_Seq_elem in Hst as (s2 & H2 & H3).
  apply exec_lit_flags_inv in H1 as (D1 & P1 & _); [|done].
  apply exec_Rep_inv in H2 as (b & D2 & _ & _ & ->).
  apply exec_lit_flags_inv in H3 as (D3 & P3 & _); [|done].
  cbn [Re.pos Re.advance] in *. simpl in P1, P3.
  assert (Hdrop : drop q text = "{%" ++ b ++ "%}" ++ drop (Re.pos st) text).
  { etransitivity; [exact D1|]. f_equal.
    etransitivity; [exact D2|]. f_equal. exact D3. }
  exists b. split; [exact Hdrop|]. split; [lia|].
  apply (f_equal length) in Hdrop.
  rewrite length_drop in Hdrop.
  repeat (rewrite length_app in Hdrop; simpl in Hdrop).
  rewrite length_drop in Hdrop. lia.
Qed.

Lemma jinja_exec_intro (text : list ascii) q (b c : list ascii) :
  drop q text = "{%" ++ b ++ "%}" ++ c ->
  Re.exec Re.DOTALL text Enhanced.jinja_pattern (Re.MState q []) <> [].
Proof.
  intros Hdrop. set (st0 := Re.MState q []).
  destruct (exec_One_intro Re.DOTALL text (Re.Chr "{") st0 "{" _ Hdrop eq_refl)
    as [H1 D1].
  destruct (exec_One_intro Re.DOTALL text (Re.Chr "%") _ "%" _ D1 eq_refl)
    as [H2 D2].
  destruct (exec_Rep_intro Re.DOTALL text false 0 Re.Dot _ b _ D2) as [H3 D3].
  { by apply Forall_forall. }
  { lia. }
  destruct (exec_One_intro Re.DOTALL text (Re.Chr "%") _ "%" _ D3 eq_refl)
    as [H4 D4].
  destruct (exec_One_intro Re.DOTALL text (Re.Chr "}") _ "}" _ D4 eq_refl)
    as [H5 _].
  intros Hnil.
  assert (Hin : Re.advance 1 (Re.advance 1 (Re.advance (length b)
                  (Re.advance 1 (Re.advance 1 st0))))
                ∈ Re.exec Re.DOTALL text Enhanced.jinja_pattern st0).
  { unfold Enhanced.jinja_pattern.
    apply exec_Seq_elem. eexists. split.
    - change (Re.lit "{%") with (Re.Seq (Re.One (Re.Chr "{")) (Re.One (Re.Chr "%"))).
      apply exec_Seq_elem. eexists. split; [exact H1|exact H2].
    - apply exec_Seq_elem. eexists. split; [exact H3|].
      change (Re.lit "%}") with (Re.Seq (Re.One (Re.Chr "%")) (Re.One (Re.Chr "}"))).
      apply exec_Seq_elem. eexists. split; [exact H4|exact H5]. }
  rewrite Hnil in Hin. by apply elem_of_nil in Hin.
Qed.

(** A text that begins with a replacement free of a character [x]: an
    [x] in it stands after the replacement. *)
Lemma app_inv_free (x : ascii) (repl rest l tail : list ascii) :
  Forall (fun y => y <> x) repl ->
  repl ++ rest = l ++ x :: tail ->
  exists l', l = repl ++ l' /\ rest = l' ++ x :: tail.
Proof.
  intros Hfree. revert l. induction Hfree as [|y repl Hy _ IH]; intros l Heq.
  - by exists l.
  - destruct l as [|z l]; simpl in Heq; [injection Heq as -> _; done|].
    injection Heq as <- Heq. destruct (IH _ Heq) as (l' & -> & ->). by exists l'.
Qed.

Lemma sub_aux_templates (text : list ascii) (fuel : nat) : forall p,
  p <= length text -> length text + 1 <= p + fuel ->
  ~ Spec.closed_template
      (Re.sub_aux text " [jinja_template] "
         (Re.finditer_from fuel Re.DOTALL Enhanced.jinja_pattern text p) p).
Proof.
  induction fuel as [|fuel IH]; intros p Hp Hfuel; [lia|].
  cbn [Re.finditer_from].
  destruct (Re.search_from Re.DOTALL Enhanced.jinja_pattern text p) as [mt|] eqn:Hs.
  - apply search_from_first in Hs as (Hstart & Hnone & st & Hst & ->).
    cbn [Re.m_start Re.m_end] in *.
    set (s := Re.m_start _) in *.
    destruct (jinja_exec_inv _ _ _ Hst) as (b0 & Hdrop & Hend & Hlen).
    destruct (Nat.eqb_spec (Re.pos st) s) as [Heq|_]; [lia|].
    cbn [Re.sub_aux Re.m_start Re.m_end].
    specialize (IH (Re.pos st) Hlen ltac:(lia)).
    set (R' := Re.sub_aux text _ _ (Re.pos st)) in *.
    assert (Hgap : drop p text = slice text p s ++ drop s text).
    { unfold slice. rewrite <- (take_drop (s - p) (drop p text)) at 1.
      rewrite drop_drop. do 2 f_equal. lia. }
    intros (a & b & c & Hbad).
    apply app_eq_app in Hbad as [l [[Hg Hl]|[Ha Hl]]].
    + (* the opening mark begins in the gap *)
      destruct l as [|x l]; [done|]. injection Hl as <- Hl.
      destruct l as [|x l]; [done|]. injection Hl as <- Hl.
      assert (Hq : p + length a < s).
      { assert (H := f_equal length Hg). unfold slice in H.
        rewrite length_take, length_drop, length_app in H. simpl in H. lia. }
      apply (jinja_exec_intro text (p + length a) (l ++ "{%" ++ b0)
               (drop (Re.pos st) text)).
      * rewrite <- drop_drop, Hgap, Hg, <- app_assoc, drop_app_length, Hdrop.
        simpl. by rewrite <- !app_assoc.
      * apply Hnone. lia.
    + (* the opening mark begins after the gap *)
      apply app_inv_free in Hl as (l' & -> & HR');
        [|by repeat (constructor; [done|])].
      apply IH. by exists l', b, c.
  - cbn [Re.sub_aux]. intros (a & b & c & Hbad).
    apply (jinja_exec_intro text (p + length a) b c).
    + by rewrite <- drop_drop, Hbad, drop_app_length.
    + apply (search_from_None _ _ _ _ Hs).
      apply (f_equal length) in Hbad.
      rewrite length_drop, !length_app in Hbad. simpl in Hbad. lia.
Qed.

(** After the templates have been replaced in a select clause, the
    template pattern matches nowhere in the result: no opening mark is
    followed, anywhere later, by a closing mark, and replacing again
    changes nothing.  The placeholder holds neither mark. *)
Theorem templates_removed (select_clause : list ascii) :
  ~ Spec.closed_template
      (Re.sub Re.DOTALL Enhanced.jinja_pattern " [jinja_template] " select_clause)
  /\ Re.search Re.DOTALL Enhanced.jinja_pattern
       (Re.sub Re.DOTALL Enhanced.jinja_pattern " [jinja_template] " select_clause) = None
  /\ Re.sub Re.DOTALL Enhanced.jinja_pattern " [jinja_template] "
       (Re.sub Re.DOTALL Enhanced.jinja_pattern " [jinja_template] " select_clause)
     = Re.sub Re.DOTALL Enhanced.jinja_pattern " [jinja_template] " select_clause.
Proof.
  set (cleaned := Re.sub Re.DOTALL Enhanced.jinja_pattern " [jinja_template] " select_clause).
  assert (Hfree : ~ Spec.closed_template cleaned).
  { apply sub_aux_templates; lia. }
  assert (Hnone : Re.search Re.DOTALL Enhanced.jinja_pattern cleaned = None).
  { destruct (Re.search _ _ _) as [mt|] eqn:Hs; [|done]. exfalso.
    apply search_Some in Hs as (q & st & Hst & _).
    destruct (jinja_exec_inv _ _ _ Hst) as (b & Hdrop & _).
    apply Hfree. exists (take q cleaned), b, (drop (Re.pos st) cleaned).
    by rewrite <- Hdrop, take_drop. }
  split; [done|]. split; [done|].
  unfold Re.sub at 1, Re.finditer. cbn [Re.finditer_from].
  replace (length cleaned + 1) with (S (length cleaned)) by lia.
  cbn [Re.finditer_from]. unfold Re.search in Hnone. rewrite Hnone. done.
Qed.

(** ** The columns of [DbtModelAnalyzer._parse_select_columns] *)

(** Whether a pattern matches from a state depends on the position of the
    state only, not on the groups captured so far. *)
Lemma bind_pos_only (g g' : Re.mstate -> list Re.mstate) (l l' : list Re.mstate) :
  (forall a b, Re.pos a = Re.pos b -> map Re.pos (g a) = map Re.pos (g' b)) ->
  map Re.pos l = map Re.pos l' ->
  map Re.pos (l ≫= g) = map Re.pos (l' ≫= g').
Proof.
  intros Hg. revert l'. induction l as [|a l IH]; intros [|b l'] Hl; try done.
  injection Hl as Hab Hl. cbn. rewrite !map_app. f_equal; [by apply Hg|by apply IH].
Qed.

Lemma exec_pos_only (f : Re.flags) (text : list ascii) (r : Re.regex) :
  forall st st', Re.pos st = Re.pos st' ->
    map Re.pos (Re.exec f text r st) = map Re.pos (Re.exec f text r st').
Proof.
  induction r as [|cs|greedy min cs|r IH|r1 IH1 r2 IH2|n r IH| | |]; intros st st' Hpos;
    cbn [Re.exec].
  - cbn. by rewrite Hpos.
  - rewrite Hpos. destruct (text !! Re.pos st') as [c|]; [|done].
    destruct (Re.cset_match f cs c); [|done]. cbn. by rewrite Hpos.
  - rewrite Hpos. cbv zeta. case_match; [done|].
    rewrite !map_map. apply map_ext. intros k. cbn. by rewrite Hpos.
  - rewrite !map_app. f_equal; [by apply IH|]. cbn. by rewrite Hpos.
  - apply bind_pos_only; [exact IH2|by apply IH1].
  - rewrite !map_map. cbn. exact (IH _ _ Hpos).
  - rewrite Hpos. case_match; cbn; congruence.
  - rewrite Hpos. case_match; cbn; congruence.
  - rewrite Hpos. case_match; cbn; congruence.
Qed.

Lemma exec_nonempty_pos (f : Re.flags) (text : list ascii) (r : Re.regex) st st' :
  Re.pos st = Re.pos st' -> Re.exec f text r st <> [] -> Re.exec f text r st' <> [].
Proof.
  intros Hpos Hne Hnil. apply Hne.
  pose proof (exec_pos_only f text r st st' Hpos) as H. rewrite Hnil in H.
  by destruct (Re.exec f text r st).
Qed.

Lemma has_nonspace_false (w : list ascii) :
  Spec.has_nonspace w = false -> Forall (fun c => isspace c = true) w.
Proof.
  induction w as [|c w IH]; simpl; [done|].
  intros [Hc Hw]%orb_false_iff. constructor; [|by apply IH].
  by apply negb_false_iff.
Qed.

(** Before a position that is not the first, in a text that starts with
    a character other than whitespace: the last such character and the
    whitespace between it and the position. *)
Lemma last_nonspace_before (s : list ascii) (p : nat) :
  (exists c r, s = c :: r /\ isspace c = false) -> 0 < p <= length s ->
  exists q x gap,
    q < p /\ drop q s = x :: gap ++ drop p s /\ isspace x = false
    /\ Forall (fun c => isspace c = true) gap.
Proof.
  intros (c & r & -> & Hc). induction p as [|p IH]; intros Hp; [lia|].
  destruct p as [|p].
  - exists 0, c, []. repeat split; try done. lia.
  - destruct (lookup_lt_is_Some_2 (c :: r) (S p) ltac:(lia)) as [y Hy].
    destruct (isspace y) eqn:Hsp.
    + destruct (IH ltac:(lia)) as (q & x & gap & Hq & Hdrop & Hx & Hgap).
      exists q, x, (gap ++ [y]). split; [lia|]. split; [|split; [done|]].
      * rewrite Hdrop, (drop_S _ _ _ Hy), <- app_assoc. done.
      * apply Forall_app. split; [done|]. by apply Forall_singleton.
    + exists (S p), y, []. split; [lia|]. split; [|done].
      by rewrite (drop_S _ _ _ Hy).
Qed.

(** Group 1 of the first match of the alias pattern holds a character
    other than whitespace: a match whose group 1 is blank would not be
    the leftmost. *)
Lemma alias_group_nonblank (s : list ascii) mt :
  (exists c r, s = c :: r /\ isspace c = false) ->
  Re.search Re.IGNORECASE DbtModelAnalyzer.alias_pattern s = Some mt ->
  Spec.has_nonspace (Re.group' s mt 1) = true
  /\ Spec.identifier (Re.group' s mt 2) = true.
Proof.
  intros Hhead Hs. unfold Re.search in Hs.
  apply search_from_first in Hs as (Hstart & Hnone & st & Hst & ->).
  cbn [Re.m_start] in *. set (p := Re.m_start mt) in *. clearbody p. clear mt.
  unfold DbtModelAnalyzer.alias_pattern in Hst.
  apply exec_Seq_elem in Hst as (s1 & H1 & Hst).
  apply exec_Seq_elem in Hst as (s2 & H2 & Htail).
  apply exec_Group_elem in H1 as (s1' & H1 & ->).
  apply exec_Rep_inv in H1 as (w & D1 & F1 & L1 & ->).
  apply exec_Rep_inv in H2 as (ws & D2 & F2 & L2 & ->).
  pose proof Htail as Hst.
  apply exec_Seq_elem in Hst as (s3 & H3 & Hst).
  apply exec_Seq_elem in Hst as (s4 & H4 & H5).
  apply exec_Eos_elem in H5 as [-> _].
  apply exec_Group_elem in H4 as (s4' & H4 & ->).
  apply exec_Rep_inv in H4 as (w2 & D4 & F4 & L4 & ->).
  assert (G3 : Re.groups s3 = [(1, (p, p + length w))]).
  { apply exec_Opt_elem in H3 as [H3| ->]; [|done].
    apply exec_Seq_elem in H3 as (t1 & T1 & T2).
    change (Re.lit "as") with (Re.Seq (Re.One (Re.Chr "a")) (Re.One (Re.Chr "s"))) in T1.
    apply exec_Seq_elem in T1 as (t0 & T0 & T1).
    apply exec_One_elem in T0 as (? & _ & _ & ->).
    apply exec_One_elem in T1 as (? & _ & _ & ->).
    apply exec_Rep_elem in T2 as (? & _ & ->). done. }
  cbn [Re.pos Re.groups Re.advance Re.set_group] in *.
  assert (Hg1 : Re.group' s (Re.RMatch p (Re.pos s3 + length w2)
                               ((2, (Re.pos s3, Re.pos s3 + length w2)) :: Re.groups s3)) 1
                = w).
  { eapply group_of_span; [|exact D1]. rewrite G3. done. }
  assert (Hg2 : Re.group' s (Re.RMatch p (Re.pos s3 + length w2)
                               ((2, (Re.pos s3, Re.pos s3 + length w2)) :: Re.groups s3)) 2
                = w2).
  { eapply group_of_span; [|exact D4]. done. }
  rewrite Hg1, Hg2. split.
  2:{ apply identifier_spec. split; [intros ->; simpl in L4; lia|done]. }
  destruct (Spec.has_nonspace w) eqn:Hw; [done|]. exfalso.
  apply has_nonspace_false in Hw.
  destruct w as [|w0 w]; [simpl in L1; lia|].
  apply Forall_cons in Hw as [Hw0 Hw].
  assert (Hp : 0 < p).
  { destruct p as [|p]; [|lia]. destruct Hhead as (c & r & -> & Hc).
    simpl in D1. injection D1 as -> _. congruence. }
  destruct (last_nonspace_before s p Hhead ltac:(lia))
    as (q & x & gap & Hq & Hdrop & Hx & Hgap).
  assert (Hlen : q + 1 + length gap = p).
  { apply (f_equal length) in Hdrop. rewrite length_drop in Hdrop. simpl in Hdrop.
    rewrite length_app, length_drop in Hdrop. lia. }
  set (st0 := Re.MState q []).
  destruct (exec_Rep_intro Re.IGNORECASE s false 1 Re.Dot st0 [x] (gap ++ drop p s))
    as [E1 DE1]; [done| |simpl; lia|].
  { apply Forall_singleton. cbn. apply negb_true_iff, bool_decide_eq_false.
    intros ->. done. }
  set (g1 := Re.set_group 1 q (Re.advance (length [x]) st0)).
  destruct (exec_Rep_intro Re.IGNORECASE s true 1 Re.Space g1 (gap ++ (w0 :: w) ++ ws)
              (drop (p + length (w0 :: w) + length ws) s)) as [E2 DE2].
  { subst g1. cbn [Re.pos Re.set_group]. rewrite DE1, D1, D2, <- !app_assoc. done. }
  { apply Forall_app. split; [done|]. apply Forall_app. split; [by constructor|done]. }
  { rewrite !length_app. simpl. lia. }
  set (a2 := Re.advance (length (gap ++ (w0 :: w) ++ ws)) g1) in *.
  assert (Hne : Re.exec Re.IGNORECASE s
                  (Re.Opt (Re.lit "as" ⋅ Re.plus Re.Space)
                   ⋅ Re.Group 2 (Re.plus Re.Word) ⋅ Re.Eos)%re a2 <> []).
  { eapply (exec_nonempty_pos _ _ _ _ a2); [|by intros Hnil; rewrite Hnil in Htail;
                                              apply elem_of_nil in Htail].
    subst a2 g1 st0. cbn [Re.pos Re.advance Re.set_group].
    rewrite !length_app. simpl. simpl in Hlen. lia. }
  destruct (Re.exec Re.IGNORECASE s _ a2) as [|fin fins] eqn:Hfin; [done|].
  assert (Hin : fin ∈ Re.exec Re.IGNORECASE s DbtModelAnalyzer.alias_pattern st0).
  { unfold DbtModelAnalyzer.alias_pattern.
    apply exec_Seq_elem. exists g1. split.
    - apply exec_Group_elem. eexists. split; [exact E1|done].
    - apply exec_Seq_elem. exists a2. split; [exact E2|]. rewrite Hfin. left. }
  pose proof (Hnone q ltac:(lia)) as Hq'. fold st0 in Hq'.
  rewrite Hq' in Hin. by apply elem_of_nil in Hin.
Qed.

Lemma strip_strip (s : list ascii) : strip (strip s) = strip s.
Proof.
  destruct (Spec.has_nonspace s) eqn:Hs.
  - destruct (strip_decomp s Hs) as (_ & _ & _ & _ & _ & Hhead & Hlast).
    rewrite <- (app_nil_r (strip s)) at 1. by apply (strip_sandwich []).
  - rewrite <- truthy_strip_has_nonspace in Hs. by destruct (strip s).
Qed.

(** The transformation of a column is trimmed and never empty. *)
Lemma parse_column_string_transformation (col_str : list ascii) c :
  DbtModelAnalyzer.parse_column_string col_str = Some c ->
  DbtModelAnalyzer.transformation c <> []
  /\ strip (DbtModelAnalyzer.transformation c) = DbtModelAnalyzer.transformation c.
Proof.
  unfold DbtModelAnalyzer.parse_column_string.
  destruct (truthy (strip col_str)) eqn:Htruthy; [|done]. cbn [negb].
  assert (Hs : Spec.has_nonspace col_str = true)
    by by rewrite <- truthy_strip_has_nonspace.
  destruct (strip_decomp col_str Hs) as (_ & _ & _ & _ & _ & Hhead & _).
  destruct (Re.search _ _ _) as [mt|] eqn:Hsearch.
  - intros [= <-]. cbn [DbtModelAnalyzer.transformation].
    destruct (alias_group_nonblank _ _ Hhead Hsearch) as [Hg1 _].
    split; [|apply strip_strip].
    rewrite <- truthy_strip_has_nonspace in Hg1. by apply truthy_nonempty.
  - intros [= <-]. cbn [DbtModelAnalyzer.transformation].
    split; [by apply truthy_nonempty|apply strip_strip].
Qed.



(** ** The summary of a CASE expression and the transformation shown *)

Lemma join_cons_nonempty (sep line : list ascii) (lines : list (list ascii)) :
  line <> [] -> join sep (line :: lines) <> [].
Proof. intros Hne. destruct lines; simpl; [done|]. by destruct line. Qed.



(** ** Instances *)

Lemma extract_ctes_names_witness :
  ("final" : list ascii)
    ∈ Enhanced.extract_ctes
        "with src as (select 1), final as (select * from src) select * from final"
  /\ Spec.identifier "final" = true.
Proof.
  split; [refine (bool_decide_unpack _ _); vm_compute; exact I|].
  apply (proj2 (extract_ctes_names
                  "with src as (select 1), final as (select * from src) select * from final")
           "final").
  refine (bool_decide_unpack _ _); vm_compute; exact I.
Defined.


(** ** Splitting an expression again *)

(** *** A segment scanned on its own *)
Section SegmentScan.

Variable text : list ascii.
Variables a b : nat.
Hypothesis Hab : a <= b <= length text.
Hypothesis Hleft : a = 0 \/ text !! (a - 1) = Some ","%char.
Hypothesis Hright : b = length text \/ text !! b = Some ","%char.

Lemma segment_length : length (slice text a b) = b - a.
Proof using Hab Hleft Hright. unfold slice. rewrite length_take, length_drop. lia. Qed.

Lemma segment_lookup k : k < b - a -> slice text a b !! k = text !! (a + k).
Proof using Hab Hleft Hright.
  intros Hk. unfold slice. rewrite lookup_take_lt by done. apply lookup_drop.
Qed.

Lemma segment_slice k n :
  k + n <= b - a -> slice (slice text a b) k (k + n) = slice text (a + k) (a + k + n).
Proof using Hab Hleft Hright.
  intros Hk. unfold slice.
  replace (k + n - k) with n by lia. replace (a + k + n - (a + k)) with n by lia.
  replace (b - a) with (k + (b - a - k)) by lia.
  rewrite <- take_drop_commute, take_take, drop_drop.
  by replace (n `min` (b - a - k)) with n by lia.
Qed.

Lemma segment_alnum k : k < b - a -> Enhanced.alnum_at (slice text a b) k = Enhanced.alnum_at text (a + k).
Proof using Hab Hleft Hright. intros Hk. unfold Enhanced.alnum_at. by rewrite segment_lookup. Qed.

(** The test for a keyword gives the same answer in the segment and in
    the text: a slice that reaches over the end of the segment holds the
    comma that ends it. *)
Lemma segment_keyword (kw : list ascii) k :
  Forall (fun c => c <> ","%char) kw -> k < b - a ->
  (k + length kw <=? length (slice text a b))
  && str_eqb (lower (slice (slice text a b) k (k + length kw))) kw
  = (a + k + length kw <=? length text)
    && str_eqb (lower (slice text (a + k) (a + k + length kw))) kw.
Proof using Hab Hleft Hright.
  intros Hkw Hk. rewrite segment_length.
  destruct (Nat.leb_spec (k + length kw) (b - a)) as [Hin|Hout].
  - rewrite segment_slice by done.
    by destruct (Nat.leb_spec (a + k + length kw) (length text)) as [_|?]; [|lia].
  - cbn [andb]. symmetry. apply andb_false_iff.
    destruct (Nat.leb_spec (a + k + length kw) (length text)) as [Hfit|?]; [|by left].
    right. unfold str_eqb. apply bool_decide_eq_false. intros Heq.
    destruct Hright as [->|Hcomma]; [lia|].
    assert (Hj : lower (slice text (a + k) (a + k + length kw)) !! (b - (a + k))
                 = Some ","%char).
    { unfold lower. rewrite list_lookup_fmap, slice_lookup by lia.
      replace (a + k + (b - (a + k))) with b by lia. by rewrite Hcomma. }
    rewrite Heq in Hj. rewrite Forall_forall in Hkw.
    apply list_elem_of_lookup_2 in Hj. by apply (Hkw ","%char).
Qed.

Lemma segment_boundary k n :
  k + n <= b - a ->
  Enhanced.word_boundary (slice text a b) k n = Enhanced.word_boundary text (a + k) n.
Proof using Hab Hleft Hright.
  intros Hk. unfold Enhanced.word_boundary. rewrite segment_length. f_equal.
  - destruct k as [|k].
    + rewrite Nat.add_0_r. cbn [Nat.eqb orb].
      destruct Hleft as [->|Hc]; [done|].
      unfold Enhanced.alnum_at. rewrite Hc. by rewrite orb_true_r.
    + replace (a + S k =? 0) with false by (symmetry; apply Nat.eqb_neq; lia).
      cbn [Nat.eqb orb]. rewrite segment_alnum by lia.
      do 2 f_equal. lia.
  - destruct (Nat.leb_spec (b - a) (k + n)) as [Hend|Hmid].
    + cbn [orb]. symmetry. apply orb_true_iff.
      destruct Hright as [->|Hcomma]; [left; apply Nat.leb_le; lia|].
      right. unfold Enhanced.alnum_at.
      replace (a + k + n) with b by lia. by rewrite Hcomma.
    + replace (length text <=? a + k + n) with false
        by (symmetry; apply Nat.leb_gt; lia).
      cbn [orb]. rewrite segment_alnum by lia. do 2 f_equal. lia.
Qed.

Lemma segment_track_case k d :
  k < b - a ->
  Enhanced.track_case (slice text a b) k d = Enhanced.track_case text (a + k) d.
Proof using Hab Hleft Hright.
  intros Hk. unfold Enhanced.track_case.
  pose proof (segment_keyword "case" k ltac:(by repeat constructor) Hk) as H4.
  pose proof (segment_keyword "end" k ltac:(by repeat constructor) Hk) as H3.
  change (length ("case" : list ascii)) with 4 in H4.
  change (length ("end" : list ascii)) with 3 in H3.
  rewrite <- H4, <- H3.
  destruct ((k + 4 <=? _) && _) eqn:E4.
  - apply andb_prop in E4 as [L4%Nat.leb_le _]. rewrite segment_length in L4.
    rewrite (segment_boundary k 4 L4).
    destruct ((k + 3 <=? _) && _) eqn:E3; [|done].
    apply andb_prop in E3 as [L3%Nat.leb_le _]. rewrite segment_length in L3.
    by rewrite (segment_boundary k 3 L3).
  - destruct ((k + 3 <=? _) && _) eqn:E3; [|done].
    apply andb_prop in E3 as [L3%Nat.leb_le _]. rewrite segment_length in L3.
    by rewrite (segment_boundary k 3 L3).
Qed.

Hypothesis Hzero : Spec.counters_before text a = (0%Z, 0%Z).

Lemma segment_counters k :
  k <= b - a ->
  Spec.counters_before (slice text a b) k = Spec.counters_before text (a + k).
Proof using Hab Hleft Hright Hzero.
  induction k as [|k IH]; intros Hk.
  - by rewrite Nat.add_0_r, Hzero.
  - replace (a + S k) with (S (a + k)) by lia. cbn [Spec.counters_before].
    rewrite IH by lia. destruct (Spec.counters_before text (a + k)) as [d p].
    by rewrite segment_track_case, segment_lookup by lia.
Qed.

Lemma segment_top_level_comma k :
  k < b - a ->
  Spec.top_level_comma (slice text a b) k = Spec.top_level_comma text (a + k).
Proof using Hab Hleft Hright Hzero.
  intros Hk. unfold Spec.top_level_comma, Spec.is_comma.
  by rewrite segment_lookup, segment_counters by lia.
Qed.

End SegmentScan.

(** *** Where a segment starts *)

Lemma count_upto_zero (P : nat -> bool) (n : nat) :
  (forall k, k < n -> P k = false) -> Spec.count_upto P n = 0.
Proof.
  induction n as [|n IH]; intros H; simpl; [done|].
  rewrite IH by (intros k Hk; apply H; lia). by rewrite H by lia.
Qed.

Lemma segment_start_zero (text : list ascii) (n : nat) :
  (forall k, k < n -> Spec.top_level_comma text k = false) ->
  Spec.segment_start text n = 0.
Proof.
  induction n as [|n IH]; intros H; simpl; [done|].
  rewrite H by lia. apply IH. intros k Hk. apply H. lia.
Qed.

Lemma segment_start_no_comma (text : list ascii) (k j : nat) :
  Spec.segment_start text k <= j < k -> Spec.top_level_comma text j = false.
Proof.
  induction k as [|k IH]; simpl; [lia|].
  destruct (Spec.top_level_comma text k) eqn:E; [lia|].
  intros Hj. destruct (decide (j = k)) as [->|Hne]; [done|]. apply IH. lia.
Qed.

Lemma segment_start_left (text : list ascii) (k : nat) :
  Spec.segment_start text k = 0
  \/ Spec.top_level_comma text (Spec.segment_start text k - 1) = true.
Proof.
  induction k as [|k IH]; cbn [Spec.segment_start]; [by left|].
  destruct (Spec.top_level_comma text k) eqn:E; [|done].
  right. by replace (S k - 1) with k by lia.
Qed.

Lemma top_level_comma_inv (text : list ascii) (k : nat) :
  Spec.top_level_comma text k = true ->
  text !! k = Some ","%char /\ Spec.counters_before text k = (0%Z, 0%Z).
Proof.
  unfold Spec.top_level_comma, Spec.is_comma.
  by intros [?%bool_decide_eq_true ?%bool_decide_eq_true]%andb_prop.
Qed.

Lemma segment_start_counters (text : list ascii) (k : nat) :
  Spec.counters_before text (Spec.segment_start text k) = (0%Z, 0%Z).
Proof.
  induction k as [|k IH]; simpl; [done|].
  destruct (Spec.top_level_comma text k) eqn:E; [|done].
  apply top_level_comma_inv in E as [Hc Hz].
  cbn [Spec.counters_before]. rewrite Hz, Hc.
  by rewrite (track_case_comma text k 0 Hc).
Qed.

(** A part of the text from the start of a segment to its end, which is
    a top-level comma or the end of the text, has no top-level comma when
    it is scanned on its own. *)
Lemma segment_alone (text : list ascii) (b : nat) :
  b <= length text -> (b = length text \/ Spec.top_level_comma text b = true) ->
  forall k, k < length (slice text (Spec.segment_start text b) b) ->
    Spec.top_level_comma (slice text (Spec.segment_start text b) b) k = false.
Proof.
  intros Hb Hright k Hk.
  pose proof (segment_start_le text b) as Hle.
  assert (Hab : Spec.segment_start text b <= b <= length text) by lia.
  assert (Hl : Spec.segment_start text b = 0
               \/ text !! (Spec.segment_start text b - 1) = Some ","%char).
  { destruct (segment_start_left text b) as [?|[Hc _]%top_level_comma_inv];
      [by left|by right]. }
  assert (Hr : b = length text \/ text !! b = Some ","%char).
  { destruct Hright as [?|[Hc _]%top_level_comma_inv]; [by left|by right]. }
  rewrite (segment_length text _ _ Hab Hl Hr) in Hk.
  rewrite (segment_top_level_comma text _ b Hab Hl Hr (segment_start_counters text b) k Hk).
  apply (segment_start_no_comma text b). lia.
Qed.

(** The expressions closed so far are such segments. *)
Lemma split_step_expressions (text : list ascii) s :
  Enhanced.i s < length text -> Spec.split_inv text s ->
  Enhanced.expressions (Enhanced.split_step text s) = Enhanced.expressions s
  \/ (Enhanced.expressions (Enhanced.split_step text s)
      = Enhanced.expressions s ++ [Enhanced.current s]
      /\ Spec.top_level_comma text (Enhanced.i s) = true).
Proof.
  intros Hlt Hinv.
  pose proof (split_step_inv text s Hlt Hinv) as (_ & _ & Hlen' & _).
  destruct Hinv as (_ & _ & Hlen & _).
  rewrite (split_step_i text s Hlt) in Hlen'.
  replace (Enhanced.i s + 1) with (S (Enhanced.i s)) in Hlen' by lia.
  cbn [Spec.count_upto] in Hlen'.
  unfold Enhanced.split_step in *.
  destruct (text !! Enhanced.i s) as [c|]; [|by left].
  cbv zeta in *. case_match; cbn [Enhanced.expressions] in *; [|by left].
  right. split; [done|]. rewrite length_app in Hlen'. cbn in Hlen'.
  destruct (Spec.top_level_comma text (Enhanced.i s)); [done|lia].
Qed.

Lemma split_final_segments (text : list ascii) :
  Forall (fun e => exists b, b < length text /\ Spec.top_level_comma text b = true
                             /\ e = slice text (Spec.segment_start text b) b)
         (Enhanced.expressions (Enhanced.split_final text)).
Proof.
  assert (H : Spec.split_inv text (Enhanced.split_final text)
              /\ Forall (fun e => exists b, b < length text
                                   /\ Spec.top_level_comma text b = true
                                   /\ e = slice text (Spec.segment_start text b) b)
                        (Enhanced.expressions (Enhanced.split_final text))).
  { unfold Enhanced.split_final.
    apply (split_loop_ind text
             (fun s => Spec.split_inv text s
                       /\ Forall (fun e => exists b, b < length text
                                            /\ Spec.top_level_comma text b = true
                                            /\ e = slice text (Spec.segment_start text b) b)
                                 (Enhanced.expressions s))).
    - intros s Hlt [Hinv Hall]. split; [by apply split_step_inv|].
      destruct (split_step_expressions text s Hlt Hinv) as [->|[-> Htop]]; [done|].
      apply Forall_app. split; [done|]. apply Forall_singleton.
      exists (Enhanced.i s). split; [done|]. split; [done|].
      by destruct Hinv as (_ & _ & _ & ->).
    - split; [|by constructor].
      unfold Spec.split_inv, slice; simpl. repeat split. lia. }
  by destruct H.
Qed.

(** A text without a top-level comma is its own only expression, unless
    it is blank. *)
Lemma split_single (e : list ascii) :
  (forall k, k < length e -> Spec.top_level_comma e k = false) ->
  Spec.has_nonspace e = true ->
  Enhanced.split_by_comma_respecting_case e = [e].
Proof.
  intros Hnone Hne. unfold Enhanced.split_by_comma_respecting_case.
  pose proof (split_final_expressions e) as Hlen.
  unfold Spec.top_level_commas in Hlen. rewrite count_upto_zero in Hlen by done.
  rewrite truthy_strip_has_nonspace, split_final_current.
  unfold Spec.final_segment. rewrite segment_start_zero by done.
  rewrite drop_0, Hne.
  by destruct (Enhanced.expressions (Enhanced.split_final e)).
Qed.

(** Splitting is idempotent on its results: an expression that
    [split_by_comma_respecting_case] returned and that is not blank is
    returned as it is, alone, when it is split again. *)
Theorem split_idempotent (text e : list ascii) :
  e ∈ Enhanced.split_by_comma_respecting_case text ->
  Spec.has_nonspace e = true ->
  Enhanced.split_by_comma_respecting_case e = [e].
Proof.
  intros Hin Hne. apply split_single; [|done].
  assert (Hcases : e ∈ Enhanced.expressions (Enhanced.split_final text)
                   \/ e = Spec.final_segment text).
  { unfold Enhanced.split_by_comma_respecting_case in Hin. cbv zeta in Hin.
    destruct (truthy _); [|by left].
    apply elem_of_app in Hin as [?|Hlast]; [by left|].
    apply list_elem_of_singleton in Hlast as ->.
    right. apply split_final_current. }
  destruct Hcases as [Hexpr|Hlast]; [|rewrite Hlast; clear Hlast].
  - pose proof (split_final_segments text) as Hall. rewrite Forall_forall in Hall.
    destruct (Hall e Hexpr) as (b & Hb & Htop & Heq). rewrite Heq.
    apply segment_alone; [lia|by right].
  - unfold Spec.final_segment.
    replace (drop (Spec.segment_start text (length text)) text)
      with (slice text (Spec.segment_start text (length text)) (length text)).
    + apply segment_alone; [done|by left].
    + unfold slice. apply take_ge. rewrite length_drop. lia.
Qed.

Lemma split_idempotent_witness :
  (" case when a then f(1, 2) else 0 end as y" : list ascii)
    ∈ Enhanced.split_by_comma_respecting_case
        "x.a as b, case when a then f(1, 2) else 0 end as y"
  /\ Enhanced.split_by_comma_respecting_case " case when a then f(1, 2) else 0 end as y"
     = [" case when a then f(1, 2) else 0 end as y" : list ascii].
Proof.
  split; [refine (bool_decide_unpack _ _); vm_compute; exact I|].
  apply (split_idempotent "x.a as b, case when a then f(1, 2) else 0 end as y");
    [refine (bool_decide_unpack _ _); vm_compute; exact I|reflexivity].
Defined.
